(** * Whoosh indexing core: posting codecs, posting pools, run merging,
      the posting stream writer and the multi-segment reader.

    A shallow embedding of [whoosh/fields.py], [whoosh/filedb/pools.py] and
    [whoosh/reading.py] (Python 2), with the properties of the
    specification stated and settled against it. *)

From Stdlib Require Import ZArith String Ascii List OrderedTypeEx.
From stdpp Require Import base option list sorting gmap strings.
From Equations Require Import Equations.

Local Open Scope Z_scope.

(** * Python's ordering of values

    Python 2 compares any two values; the values of this program are
    strings, integers, weights, [None] and tuples of those.  A comparison
    function into [comparison] plays the part of [cmp]; the operators
    [<], [>], [==] and [!=] are read off it. *)

Module PyOrder.

Class Cmp (A : Type) := cmp : A → A → comparison.
Global Hint Mode Cmp ! : typeclass_instances.

(** [a <= b], as a relation: the order [list.sort] and [heapq] sort by. *)
Definition cle `{Cmp A} : relation A := λ a b, cmp a b ≠ Gt.

(** A total preorder: what sorting and heaps need of a comparison. *)
Class CmpPreOrder (A : Type) `{Cmp A} : Prop := {
  cmp_opp (a b : A) : cmp b a = CompOpp (cmp a b);
  cle_trans (a b c : A) : cle a b → cle b c → cle a c
}.
Global Hint Mode CmpPreOrder ! - : typeclass_instances.

(** A total order: values that compare equal are the same value. *)
Class CmpOrder (A : Type) `{Cmp A} : Prop := {
  cmp_order_pre :: CmpPreOrder A;
  cmp_eq (a b : A) : cmp a b = Eq → a = b
}.
Global Hint Mode CmpOrder ! - : typeclass_instances.

Definition py_lt `{Cmp A} (a b : A) : bool :=
  match cmp a b with Lt => true | _ => false end.
Definition py_gt `{Cmp A} (a b : A) : bool :=
  match cmp a b with Gt => true | _ => false end.
Definition py_eq `{Cmp A} (a b : A) : bool :=
  match cmp a b with Eq => true | _ => false end.
Definition py_ne `{Cmp A} (a b : A) : bool := negb (py_eq a b).

Global Instance cle_dec `{Cmp A} : RelDecision (cle (A:=A)).
Proof. intros a b. unfold cle. destruct (cmp a b); [left|left|right]; congruence. Defined.

(** Integers and natural numbers. *)
Global Instance Z_cmp : Cmp Z := Z.compare.
Global Instance nat_cmp : Cmp nat := Nat.compare.

(** Strings compare character by character, a proper prefix first. *)
Global Instance string_cmp : Cmp string := String.compare.

(** [None] is smaller than every other value (Python 2). *)
Global Instance option_cmp `{Cmp A} : Cmp (option A) := λ x y,
  match x, y with
  | None, None => Eq
  | None, Some _ => Lt
  | Some _, None => Gt
  | Some a, Some b => cmp a b
  end.

(** Tuples compare at the first component in which they differ. *)
Global Instance prod_cmp `{Cmp A, Cmp B} : Cmp (A * B) := λ p q,
  match cmp p.1 q.1 with
  | Eq => cmp p.2 q.2
  | c => c
  end.

End PyOrder.
Import PyOrder.

(** ** Facts about the orderings *)

Section cmp_facts.
Context `{CmpPreOrder A}.

Lemma cmp_refl (a : A) : cmp a a = Eq.
Proof. pose proof (cmp_opp a a) as Ho. destruct (cmp a a); simpl in Ho; congruence. Qed.

Lemma cmp_Gt_Lt (a b : A) : cmp a b = Gt ↔ cmp b a = Lt.
Proof. rewrite (cmp_opp a b). destruct (cmp a b); simpl; split; congruence. Qed.

Lemma cmp_Eq_sym (a b : A) : cmp a b = Eq → cmp b a = Eq.
Proof. intros Hab. rewrite (cmp_opp a b), Hab. reflexivity. Qed.

Lemma cle_total (a b : A) : cle a b ∨ cle b a.
Proof.
  unfold cle. rewrite (cmp_opp a b).
  destruct (cmp a b); simpl; [left|left|right]; congruence.
Qed.

Lemma not_cle (a b : A) : ¬ cle a b ↔ cmp a b = Gt.
Proof.
  unfold cle. destruct (cmp a b); split; try done.
  - intros Hn. exfalso. by apply Hn.
  - intros Hn. exfalso. by apply Hn.
  - intros _ Hn. by apply Hn.
Qed.

Lemma cmp_Lt_cle (a b : A) : cmp a b = Lt → cle a b.
Proof. unfold cle. by intros ->. Qed.

Lemma cmp_Eq_cle (a b : A) : cmp a b = Eq → cle a b.
Proof. unfold cle. by intros ->. Qed.

Lemma cle_Lt_trans (a b c : A) : cle a b → cmp b c = Lt → cmp a c = Lt.
Proof.
  intros Hab Hbc. apply cmp_Gt_Lt in Hbc.
  destruct (cmp a c) eqn:Hac; [exfalso|done|exfalso].
  - apply cmp_Eq_sym in Hac.
    exact (cle_trans c a b (cmp_Eq_cle _ _ Hac) Hab Hbc).
  - apply cmp_Gt_Lt in Hac.
    exact (cle_trans c a b (cmp_Lt_cle _ _ Hac) Hab Hbc).
Qed.

Lemma Lt_cle_trans (a b c : A) : cmp a b = Lt → cle b c → cmp a c = Lt.
Proof.
  intros Hab Hbc. apply cmp_Gt_Lt in Hab.
  destruct (cmp a c) eqn:Hac; [exfalso|done|exfalso].
  - apply cmp_Eq_sym in Hac.
    exact (cle_trans b c a Hbc (cmp_Eq_cle _ _ Hac) Hab).
  - apply cmp_Gt_Lt in Hac.
    exact (cle_trans b c a Hbc (cmp_Lt_cle _ _ Hac) Hab).
Qed.

Lemma cmp_Eq_trans (a b c : A) : cmp a b = Eq → cmp b c = Eq → cmp a c = Eq.
Proof.
  intros Hab Hbc. destruct (cmp a c) eqn:Hac; [done|exfalso|exfalso].
  - pose proof (cle_Lt_trans b a c (cmp_Eq_cle _ _ (cmp_Eq_sym _ _ Hab)) Hac).
    congruence.
  - apply cmp_Gt_Lt in Hac.
    pose proof (cle_Lt_trans b c a (cmp_Eq_cle _ _ Hbc) Hac) as Hba.
    apply cmp_Gt_Lt in Hba. congruence.
Qed.

Global Instance cle_Total : Total (cle (A:=A)).
Proof. intros a b. apply cle_total. Qed.

Global Instance cle_Transitive : Transitive (cle (A:=A)).
Proof. intros a b c. apply cle_trans. Qed.

Global Instance cle_Reflexive : Reflexive (cle (A:=A)).
Proof. intros a. unfold cle. rewrite cmp_refl. congruence. Qed.

End cmp_facts.

Global Instance cle_AntiSymm `{CmpOrder A} : AntiSymm (=) (cle (A:=A)).
Proof.
  intros a b Hab Hba. apply cmp_eq. unfold cle in *.
  rewrite (cmp_opp a b) in Hba. destruct (cmp a b); simpl in *; congruence.
Qed.

(** A comparison read through a function inherits the preorder. *)
Lemma pullback_preorder {A B} `{CmpPreOrder B} (f : A → B) :
  @CmpPreOrder A (λ x y, cmp (f x) (f y)).
Proof.
  split.
  - intros a b. unfold cmp at 1 3. apply cmp_opp.
  - intros a b c. unfold cle, cmp. apply (cle_trans (f a) (f b) (f c)).
Qed.

Global Instance Z_cmp_order : CmpOrder Z.
Proof.
  split; [split|].
  - intros a b. unfold cmp, Z_cmp. apply Z.compare_antisym.
  - intros a b c. unfold cle, cmp, Z_cmp. rewrite !Z.compare_gt_iff. lia.
  - intros a b. apply Z.compare_eq.
Qed.

Global Instance nat_cmp_order : CmpOrder nat.
Proof.
  split; [split|].
  - intros a b. unfold cmp, nat_cmp. apply Nat.compare_antisym.
  - intros a b c. unfold cle, cmp, nat_cmp. rewrite !Nat.compare_gt_iff. lia.
  - intros a b. apply Nat.compare_eq.
Qed.

Global Instance string_cmp_order : CmpOrder string.
Proof.
  split; [split|].
  - intros a b. unfold cmp, string_cmp. apply String.compare_antisym.
  - intros a b c. unfold cle, cmp, string_cmp. intros Hab Hbc Hac.
    rewrite String.compare_antisym in Hac.
    destruct (String.compare c a) eqn:Hca; simpl in Hac; try congruence.
    destruct (String.compare a b) eqn:Eab; [|clear Hab|congruence].
    { apply String.compare_eq_iff in Eab. subst b.
      rewrite String.compare_antisym, Hca in Hbc. simpl in Hbc. congruence. }
    destruct (String.compare b c) eqn:Ebc; [|clear Hbc|congruence].
    { apply String.compare_eq_iff in Ebc. subst c.
      rewrite String.compare_antisym, Hca in Eab. simpl in Eab. congruence. }
    apply String_as_OT.cmp_lt in Eab, Ebc, Hca.
    pose proof (String_as_OT.lt_trans _ _ _ Eab (String_as_OT.lt_trans _ _ _ Ebc Hca)) as Haa.
    apply String_as_OT.cmp_lt in Haa. unfold String_as_OT.cmp in Haa.
    pose proof (String.compare_antisym a a) as Hs. rewrite Haa in Hs. discriminate.
  - intros a b. apply String.compare_eq_iff.
Qed.

Global Instance option_cmp_preorder `{CmpPreOrder A} : CmpPreOrder (option A).
Proof.
  split.
  - intros [a|] [b|]; unfold cmp, option_cmp; try reflexivity. apply cmp_opp.
  - intros [a|] [b|] [c|]; unfold cle, cmp, option_cmp; try congruence.
    apply (cle_trans a b c).
Qed.

Global Instance option_cmp_order `{CmpOrder A} : CmpOrder (option A).
Proof.
  split; [apply _|].
  intros [a|] [b|]; unfold cmp, option_cmp; try congruence.
  intros Hab. f_equal. by apply cmp_eq.
Qed.

Global Instance prod_cmp_preorder `{CmpPreOrder A, CmpPreOrder B} :
  CmpPreOrder (A * B).
Proof.
  split.
  - intros [a x] [b y]. unfold cmp at 1 2, prod_cmp. simpl.
    rewrite (cmp_opp a b). destruct (cmp a b); simpl; auto using cmp_opp.
  - intros [a x] [b y] [c z]. unfold cle, cmp, prod_cmp. simpl.
    destruct (cmp a b) eqn:Hab; [|intros _|congruence].
    + destruct (cmp b c) eqn:Hbc; [|intros _ _|congruence].
      * rewrite (cmp_Eq_trans a b c Hab Hbc). apply (cle_trans x y z).
      * rewrite (cle_Lt_trans a b c (cmp_Eq_cle _ _ Hab) Hbc). congruence.
    + destruct (cmp b c) eqn:Hbc; [intros _|intros _|congruence].
      * rewrite (Lt_cle_trans a b c Hab (cmp_Eq_cle _ _ Hbc)). congruence.
      * rewrite (Lt_cle_trans a b c Hab (cmp_Lt_cle _ _ Hbc)). congruence.
Qed.

Global Instance prod_cmp_order `{CmpOrder A, CmpOrder B} : CmpOrder (A * B).
Proof.
  split; [apply _|].
  intros [a x] [b y]. unfold cmp, prod_cmp. simpl.
  destruct (cmp a b) eqn:Hab; try congruence.
  intros Hxy. f_equal; by apply cmp_eq.
Qed.

(** * [heapq]

    The heap functions the program calls, modelled by a sorted list: a
    sorted list satisfies the heap invariant [a[k] <= a[2k+1]] and
    [a[k] <= a[2k+2]], its index 0 holds the least entry, and the code
    below observes a heap only through index 0, its length and the entry
    popped. *)

Module Heapq.
Section heapq.
Context `{Cmp E}.

Definition heapify (x : list E) : list E := merge_sort cle x.

Fixpoint heappush (heap : list E) (item : E) : list E :=
  match heap with
  | [] => [item]
  | y :: heap' =>
      if decide (cle item y) then item :: heap else y :: heappush heap' item
  end.

(** [None] stands for the [IndexError] of an empty heap. *)
Definition heappop (heap : list E) : option (E * list E) :=
  match heap with
  | [] => None
  | x :: heap' => Some (x, heap')
  end.

Definition heapreplace (heap : list E) (item : E) : option (E * list E) :=
  match heap with
  | [] => None
  | x :: heap' => Some (x, heappush heap' item)
  end.

End heapq.
End Heapq.
Import Heapq.

(** * Iterators

    A generator object: its identity (Python 2 orders arbitrary objects by
    address) and the items it has still to yield.  Distinct generators are
    distinct objects, so each heap entry owns the state of its generator. *)

Record generator (A : Type) := Generator { gen_id : nat; gen_rest : list A }.
Arguments Generator {A} _ _.
Arguments gen_id {A} _.
Arguments gen_rest {A} _.

Global Instance generator_cmp {A} : Cmp (generator A) :=
  λ g h, cmp (gen_id g) (gen_id h).

(** [g.next()]: [None] stands for [StopIteration]. *)
Definition next {A} (g : generator A) : option (A * generator A) :=
  match gen_rest g with
  | [] => None
  | x :: rest => Some (x, Generator (gen_id g) rest)
  end.

Definition inspect {A} (a : A) : {b : A | a = b} := exist _ a eq_refl.

(** * [pools.py]: [imerge] *)

Module Imerge.
Section imerge.
Context `{Cmp A}.

Local Abbreviation entry := (A * generator A)%type.

(** [for g in iterators: try: current.append((g.next(), g)) ...] *)
Fixpoint imerge_init (iterators : list (generator A)) (current : list entry)
  : list entry :=
  match iterators with
  | [] => current
  | g :: iterators' =>
      match next g with
      | Some (item, g') => imerge_init iterators' (current ++ [(item, g')])
      | None => imerge_init iterators' current
      end
  end.

(** The items still to come out of the heap: the heads and what their
    generators hold. *)
Definition pending (current : list entry) : nat :=
  sum_list_with (λ e, S (length (gen_rest e.2))) current.

Lemma pending_heappush (heap : list entry) (e : entry) :
  pending (heappush heap e) = (S (length (gen_rest e.2)) + pending heap)%nat.
Proof.
  unfold pending. induction heap as [|y heap IH]; simpl; [done|].
  case_decide; simpl; [done|]. rewrite IH. simpl. lia.
Qed.

(** [while len(current) > 1: ...] followed by [if current: ...] *)
Equations? imerge_loop (current : list entry) : list A
  by wf (pending current) lt :=
  imerge_loop current with decide (1 < length current)%nat := {
    | left _ with inspect (heappop current) := {
        | exist _ (Some ((item, gen), current')) Hpop with inspect (next gen) := {
            | exist _ (Some (item', gen')) Hnext :=
                item :: imerge_loop (heappush current' (item', gen'));
            | exist _ None Hnext := item :: imerge_loop current' };
        | exist _ None Hpop := [] };
    | right _ :=
        match current with
        | [] => []
        | (item, gen) :: _ => item :: gen_rest gen
        end }.
Proof.
  - destruct current as [|e current]; simplify_eq/=.
    rewrite pending_heappush. unfold next in Hnext. simpl.
    destruct (gen_rest gen); simplify_eq/=. lia.
  - destruct current as [|e current]; simplify_eq/=. lia.
Qed.

Definition imerge (iterators : list (generator A)) : list A :=
  imerge_loop (heapify (imerge_init iterators [])).

End imerge.
End Imerge.
Import Imerge.


(** * Exceptions and results *)

(** Exceptions the modelled code raises or lets through. *)
Inductive exn :=
| OutOfOrder (current_fieldname current_text : option string)
             (fieldname text : string)
| KeyError (fieldname : string)
| OSError
| IOError
| EOFError
| IndexError
| TypeError
| ValueError
| AttributeError.

Inductive result (X : Type) :=
| Ok (x : X)
| Raise (e : exn).
Arguments Ok {X} _.
Arguments Raise {X} _.

Global Instance result_ret : MRet result := λ X x, Ok x.
Global Instance result_bind : MBind result := λ X Y f r,
  match r with
  | Ok x => f x
  | Raise e => Raise e
  end.

(** Python truth value of a string or [None]. *)
Definition truthy (s : option string) : bool :=
  match s with
  | None | Some EmptyString => false
  | Some _ => true
  end.

Definition len (s : string) : Z := Z.of_nat (String.length s).


(** * [pools.py]: postings, [write_postings] and [TempfilePool] *)

Module Pools.
Section pools.

(** Weights are Python numbers, kept abstract: the zero that
    [current_weight = 0] starts from, [+], and their ordering. *)
Context {W : Type} `{Cmp W} (w0 : W) (wadd : W → W → W).

(** A posting, the tuple [(fieldname, text, docnum, weight, valuestring)]. *)
Definition Posting : Type := string * string * Z * W * option string.

(** ** [write_postings] and its collaborators

    The schema, the length table, the posting writer and the term table
    are objects of other modules.  The schema is read as a dictionary from
    field names to formats and the length table as a function; the posting
    writer is any implementation of the interface below; the term table is
    the sequence of its [add] calls. *)

Context {Format Offset Inline : Type}.

Class PostingWriter (PW : Type) := {
  posttotal : PW → Z;
  blockcount : PW → Z;
  pw_start : option Format → PW → Offset * PW;
  pw_write : Z → W → option string → Z → PW → PW;
  pw_as_inline : PW → Inline;
  pw_cancel : PW → PW;
  pw_finish : PW → Z * PW
}.

Context `{PostingWriter PW}.

(** The values the variable [offset] takes: [None], what [start] returned,
    or what [as_inline] returned. *)
Inductive offset_value :=
| NoOffset
| BlockOffset (o : Offset)
| InlineData (i : Inline).

(** The calls made on the posting writer. *)
Inductive pw_call :=
| CallStart (format : option Format)
| CallWrite (docnum : Z) (weight : W) (valuestring : option string) (length : Z)
| CallAsInline
| CallCancel
| CallFinish.

Definition term_key : Type := option string * option string.
Definition term_info : Type := W * offset_value * Z.

(** The objects [write_postings] acts on: the term table (its [add] calls,
    oldest first), the posting writer, and the calls made on the writer
    (oldest first). *)
Record world := World {
  termtable : list (term_key * term_info);
  postwriter : PW;
  pw_calls : list pw_call
}.

(** The local variables of [write_postings]. *)
Record locals := Locals {
  current_fieldname : option string;
  current_text : option string;
  first : bool;
  current_weight : W;
  offset : offset_value;
  format : option Format
}.

Definition termtable_add (key : term_key) (info : term_info) (w : world) : world :=
  World (termtable w ++ [(key, info)]) (postwriter w) (pw_calls w).

Definition call (c : pw_call) (pw : PW) (w : world) : world :=
  World (termtable w) pw (pw_calls w ++ [c]).

(** Lines 101-111: the previous term is finished and added to the term
    table. *)
Definition finish_term (inlinelimit : Z) (l : locals) (w : world) : locals * world :=
  let postcount := posttotal (postwriter w) in
  let '(offset, w) :=
    if bool_decide (postcount ≤ inlinelimit) && bool_decide (blockcount (postwriter w) < 1)
    then
      let offset := InlineData (pw_as_inline (postwriter w)) in
      let w := call CallAsInline (postwriter w) w in
      let w := call CallCancel (pw_cancel (postwriter w)) w in
      (offset, w)
    else
      let w := call CallFinish (pw_finish (postwriter w)).2 w in
      (offset l, w) in
  let w := termtable_add (current_fieldname l, current_text l)
                         (current_weight l, offset, postcount) w in
  (Locals (current_fieldname l) (current_text l) (first l) (current_weight l)
          offset (format l), w).

(** Lines 113-119: the writer and the term variables are reset. *)
Definition start_term (schema : gmap string Format) (fieldname text : string)
    (l : locals) (w : world) : result (locals * world) :=
  '(format, current_fieldname) ←
    (if py_ne (Some fieldname) (current_fieldname l) then
       match schema !! fieldname with
       | Some fmt => Ok (Some fmt, Some fieldname)
       | None => Raise (KeyError fieldname)
       end
     else Ok (format l, current_fieldname l));
  let current_text := Some text in
  let current_weight := w0 in
  let '(offset, pw) := pw_start format (postwriter w) in
  let w := call (CallStart format) pw w in
  Ok (Locals current_fieldname current_text (first l) current_weight
             (BlockOffset offset) format, w).

(** Lines 127-129: the posting is written. *)
Definition write_posting (getlength : Z → string → Z) (p : Posting)
    (l : locals) (w : world) : locals * world :=
  let '(fieldname, text, docnum, weight, valuestring) := p in
  let current_weight := wadd (current_weight l) weight in
  let length := getlength docnum fieldname in
  let w := call (CallWrite docnum weight valuestring length)
                (pw_write docnum weight valuestring length (postwriter w)) w in
  (Locals (current_fieldname l) (current_text l) (first l) current_weight
          (offset l) (format l), w).

(** The body of the [for] loop, lines 92-129.  An exception leaves the
    objects as they are at that point. *)
Definition write_postings_body (schema : gmap string Format)
    (getlength : Z → string → Z) (inlinelimit : Z) (p : Posting)
    (l : locals) (w : world) : (locals * world) + (exn * world) :=
  let '(fieldname, text, docnum, weight, valuestring) := p in
  if first l || py_gt (Some fieldname) (current_fieldname l)
             || py_gt (Some text) (current_text l) then
    let '(l, w) :=
      if first l then
        (Locals (current_fieldname l) (current_text l) false (current_weight l)
                (offset l) (format l), w)
      else finish_term inlinelimit l w in
    match start_term schema fieldname text l w with
    | Ok (l, w) => inl (write_posting getlength p l w)
    | Raise e => inr (e, w)
    end
  else if py_lt (Some fieldname) (current_fieldname l)
          || (py_eq (Some fieldname) (current_fieldname l)
              && py_lt (Some text) (current_text l)) then
    inr (OutOfOrder (current_fieldname l) (current_text l) fieldname text, w)
  else inl (write_posting getlength p l w).

Fixpoint write_postings_loop (schema : gmap string Format)
    (getlength : Z → string → Z) (inlinelimit : Z) (postiter : list Posting)
    (l : locals) (w : world) : (locals * world) + (exn * world) :=
  match postiter with
  | [] => inl (l, w)
  | p :: postiter' =>
      match write_postings_body schema getlength inlinelimit p l w with
      | inl (l, w) => write_postings_loop schema getlength inlinelimit postiter' l w
      | inr ew => inr ew
      end
  end.

(** [write_postings(schema, termtable, lengths, postwriter, postiter,
    inlinelimit)]: the objects afterwards, and the exception if one was
    raised. *)
Definition write_postings (schema : gmap string Format)
    (getlength : Z → string → Z) (postiter : list Posting) (inlinelimit : Z)
    (w : world) : world * option exn :=
  let l := Locals None None true w0 NoOffset None in
  match write_postings_loop schema getlength inlinelimit postiter l w with
  | inl (l, w) =>
      if negb (first l) then
        let '(postcount, pw) := pw_finish (postwriter w) in
        let w := call CallFinish pw w in
        let w := termtable_add (current_fieldname l, current_text l)
                               (current_weight l, offset l, postcount) w in
        (w, None)
      else (w, None)
  | inr (e, w) => (w, Some e)
  end.

(** ** The file system

    Directories by name, each with its files by name; a run file holds the
    postings [marshal.dump] wrote to it, which [marshal.load] gives back
    unchanged. *)

Definition filesystem : Type := gmap string (gmap string (list Posting)).
Definition filename : Type := string * string.

(** [tempfile.mkdtemp]: a new, empty directory under a name not in use. *)
Definition mkdtemp (fs : filesystem) : string * filesystem :=
  let d := fresh (dom fs) in (d, <[d := ∅]> fs).

(** [tempfile.mkstemp(".run", dir=d)]: a new, empty file in [d] under a
    name not in use there; [OSError] when [d] does not exist. *)
Definition mkstemp (d : string) (fs : filesystem) : result (filename * filesystem) :=
  match fs !! d with
  | Some files =>
      let n := fresh (dom files) in Ok ((d, n), <[d := <[n := []]> files]> fs)
  | None => Raise OSError
  end.

Definition file_content (fn : filename) (fs : filesystem) : option (list Posting) :=
  fs !! fn.1 ≫= λ files, files !! fn.2.

(** What writing to a file opened with [mkstemp] and closing it leaves. *)
Definition write_file (fn : filename) (content : list Posting) (fs : filesystem)
  : filesystem :=
  match fs !! fn.1 with
  | Some files => <[fn.1 := <[fn.2 := content]> files]> fs
  | None => fs
  end.

(** [os.path.exists] *)
Definition file_exists (fn : filename) (fs : filesystem) : bool :=
  bool_decide (is_Some (file_content fn fs)).
Definition dir_exists (d : string) (fs : filesystem) : bool :=
  bool_decide (is_Some (fs !! d)).

(** [os.remove] *)
Definition os_remove (fn : filename) (fs : filesystem) : result filesystem :=
  match fs !! fn.1 with
  | Some files =>
      if bool_decide (is_Some (files !! fn.2))
      then Ok (<[fn.1 := delete fn.2 files]> fs)
      else Raise OSError
  | None => Raise OSError
  end.

(** [os.rmdir]: [OSError] when the directory is missing or not empty. *)
Definition os_rmdir (d : string) (fs : filesystem) : result filesystem :=
  match fs !! d with
  | Some files => if bool_decide (files = ∅) then Ok (delete d fs) else Raise OSError
  | None => Raise OSError
  end.

(** ** [read_run]

    The postings a run generator yields: the first [count] of the file.
    [IOError] when the file is missing, [EOFError] when it is too short. *)
Definition read_run (fn : filename) (count : nat) (fs : filesystem)
  : result (list Posting) :=
  match file_content fn fs with
  | Some content =>
      if bool_decide (count ≤ length content)%nat
      then Ok (take count content)
      else Raise EOFError
  | None => Raise IOError
  end.

(** ** [PoolBase] and [TempfilePool] *)

Record TempfilePool := Pool {
  dir : option string;
  using_tempdir : bool;
  limit : Z;
  size : Z;
  count : nat;
  postings : list Posting;
  runs : list (filename * nat)
}.

(** [TempfilePool.__init__], with [PoolBase.__init__]. *)
Definition init (limitmb : Z) (dir : option string) : TempfilePool :=
  {| dir := dir;
     using_tempdir := bool_decide (dir ≠ None);
     limit := limitmb * 1024 * 1024;
     size := 0;
     count := 0;
     postings := [];
     runs := [] |}.

(** [PoolBase._make_dir] *)
Definition make_dir (self : TempfilePool) (fs : filesystem)
  : TempfilePool * filesystem :=
  match dir self with
  | None =>
      let '(d, fs) := mkdtemp fs in
      (Pool (Some d) (using_tempdir self) (limit self) (size self) (count self)
            (postings self) (runs self), fs)
  | Some _ => (self, fs)
  end.

(** [TempfilePool.dump_run] *)
Definition dump_run (self : TempfilePool) (fs : filesystem)
  : result (TempfilePool * filesystem) :=
  if bool_decide (size self > 0) then
    let '(self, fs) := make_dir self fs in
    '(fn, fs) ← mkstemp (default ""%string (dir self)) fs;
    let sorted := merge_sort cle (postings self) in
    let fs := write_file fn sorted fs in
    Ok (Pool (dir self) (using_tempdir self) (limit self) 0 0%nat []
             (runs self ++ [(fn, count self)]), fs)
  else Ok (self, fs).

(** [TempfilePool.add_posting] *)
Definition add_posting (p : Posting) (self : TempfilePool) (fs : filesystem)
  : result (TempfilePool * filesystem) :=
  let '(fieldname, text, docnum, weight, valuestring) := p in
  '(self, fs) ← (if bool_decide (size self >= limit self)
                 then dump_run self fs else Ok (self, fs));
  let size := size self + (len fieldname + len text + 18) in
  let size := if truthy valuestring
              then size + len (default ""%string valuestring) else size in
  Ok (Pool (dir self) (using_tempdir self) (limit self) size (S (count self))
           (postings self ++ [p]) (runs self), fs).

(** A sequence of [add_posting] calls. *)
Definition add_postings (ps : list Posting) (self : TempfilePool) (fs : filesystem)
  : result (TempfilePool * filesystem) :=
  foldl (λ r p, '(self, fs) ← r; add_posting p self fs) (Ok (self, fs)) ps.

(** [TempfilePool.run_filenames] *)
Definition run_filenames (self : TempfilePool) : list filename :=
  (runs self).*1.

(** [PoolBase._clean_temp_dir] *)
Definition clean_temp_dir (self : TempfilePool) (fs : filesystem) : filesystem :=
  if using_tempdir self && truthy (dir self)
     && dir_exists (default ""%string (dir self)) fs
  then
    match os_rmdir (default ""%string (dir self)) fs with
    | Ok fs => fs
    | Raise _ => fs
    end
  else fs.

(** [TempfilePool.cleanup].  [os.remove] raises [OSError], which the
    [except IOError] clause does not catch. *)
Fixpoint remove_runs (filenames : list filename) (fs : filesystem)
  : result filesystem :=
  match filenames with
  | [] => Ok fs
  | fn :: filenames' =>
      fs ← (if file_exists fn fs then os_remove fn fs else Ok fs);
      remove_runs filenames' fs
  end.

Definition cleanup (self : TempfilePool) (fs : filesystem) : result filesystem :=
  fs ← remove_runs (run_filenames self) fs;
  Ok (clean_temp_dir self fs).

(** [TempfilePool.cancel] *)
Definition cancel (self : TempfilePool) (fs : filesystem) : result filesystem :=
  cleanup self fs.

(** The generators of the list comprehension in [finish]: the [i]-th one
    created lives at address [gen_addr i]. *)
Context (gen_addr : nat → nat).

Fixpoint read_runs (i : nat) (runs : list (filename * nat)) (fs : filesystem)
  : result (list (generator Posting)) :=
  match runs with
  | [] => Ok []
  | (runname, count) :: runs' =>
      items ← read_run runname count fs;
      gens ← read_runs (S i) runs' fs;
      Ok (Generator (gen_addr i) items :: gens)
  end.

(** [TempfilePool.finish], up to the call of [write_postings]: the posting
    iterator passed to it, or [None] when it is not called. *)
Definition finish_postiter (self : TempfilePool) (fs : filesystem)
  : result (option (list Posting) * TempfilePool * filesystem) :=
  if bool_decide (postings self ≠ []) || bool_decide (runs self ≠ []) then
    if bool_decide (postings self ≠ []) && bool_decide (length (runs self) = 0%nat)
    then
      let sorted := merge_sort cle (postings self) in
      let self := Pool (dir self) (using_tempdir self) (limit self) (size self)
                       (count self) sorted (runs self) in
      Ok (Some sorted, self, fs)
    else if negb (bool_decide (postings self ≠ []))
            && negb (bool_decide (runs self ≠ []))
    then Ok (Some [], self, fs)
    else
      '(self, fs) ← dump_run self fs;
      gens ← read_runs 0 (runs self) fs;
      Ok (Some (imerge gens), self, fs)
  else Ok (None, self, fs).

(** [TempfilePool.finish].  The length file and the length table are the
    business of [_write_lengths] and [LengthReader]; the table comes in as
    [getlength].  An exception from [write_postings] leaves [finish]
    before [cleanup]. *)
Definition finish (schema : gmap string Format) (getlength : Z → string → Z)
    (self : TempfilePool) (fs : filesystem) (w : world)
  : result (TempfilePool * filesystem * world) :=
  '(postiter, self, fs) ← finish_postiter self fs;
  w ← match postiter with
      | Some postiter =>
          match write_postings schema getlength postiter 1 w with
          | (w, None) => Ok w
          | (_, Some e) => Raise e
          end
      | None => Ok w
      end;
  fs ← cleanup self fs;
  Ok (self, fs, w).

End pools.
End Pools.

(** * [pools.py]: [MemPool] *)

Module MemPool.
Section mempool.
Import Pools.
Context {W : Type} `{Cmp W} (w0 : W) (wadd : W → W → W).
Context {Format Offset Inline PW : Type}.
Context `{!PostingWriter (W:=W) (Format:=Format) (Offset:=Offset) (Inline:=Inline) PW}.

Record MemPool := Pool { postbuf : list (Posting (W:=W)) }.

(** [MemPool.__init__] *)
Definition init : MemPool := {| postbuf := [] |}.

(** [MemPool.add_posting], declared with [*item]: the arguments, as one
    tuple, are appended to the buffer. *)
Definition add_posting (item : Posting (W:=W)) (self : MemPool) : MemPool :=
  {| postbuf := postbuf self ++ [item] |}.

(** A sequence of [add_posting] calls. *)
Definition add_postings (ps : list (Posting (W:=W))) (self : MemPool) : MemPool :=
  foldl (λ self p, add_posting p self) self ps.

(** [MemPool.finish]: the buffer is sorted in place and handed to
    [write_postings], whose [inlinelimit] keeps its default.  The length
    table comes in as [getlength], as for [TempfilePool.finish]. *)
Definition finish (schema : gmap string Format) (getlength : Z → string → Z)
    (self : MemPool)
    (w : world (W:=W) (Format:=Format) (Offset:=Offset) (Inline:=Inline) (PW:=PW))
  : MemPool * (world (W:=W) (Format:=Format) (Offset:=Offset) (Inline:=Inline) (PW:=PW)
               * option exn) :=
  let self := {| postbuf := merge_sort cle (postbuf self) |} in
  (self, write_postings w0 wadd schema getlength (postbuf self) 1 w).

End mempool.
End MemPool.

(** * [pools.py]: the field lengths of [PoolBase] *)

Module PoolBase.
Section poolbase.

(** [whoosh.util.length_to_byte] belongs to another module: all that is
    used of it is that it gives the byte that stands for a length.  The
    length arrays are [array("B")]: unsigned bytes. *)
Context (length_to_byte : Z → Byte.byte).

Record PoolBase := {
  length_arrays : gmap string (list Byte.byte);
  _fieldlength_totals : gmap string Z;
  _fieldlength_maxes : gmap string Z
}.

(** [PoolBase.__init__], for these three attributes. *)
Definition init : PoolBase :=
  {| length_arrays := ∅; _fieldlength_totals := ∅; _fieldlength_maxes := ∅ |}.

(** [fieldlength_totals()] returns a copy of the dictionary and
    [fieldlength_maxes()] the dictionary. *)
Definition fieldlength_totals (self : PoolBase) : gmap string Z :=
  _fieldlength_totals self.
Definition fieldlength_maxes (self : PoolBase) : gmap string Z :=
  _fieldlength_maxes self.

(** [for _ in xrange(n): arry.append(0)] *)
Fixpoint append_zeros (n : nat) (arry : list Byte.byte) : list Byte.byte :=
  match n with
  | O => arry
  | S n' => append_zeros n' (arry ++ [Byte.x00])
  end.

(** [arry[i] = b]: a negative index counts from the end; [None] stands for
    the [IndexError] of an index out of range. *)
Definition array_set (arry : list Byte.byte) (i : Z) (b : Byte.byte)
  : option (list Byte.byte) :=
  let i := if bool_decide (i < 0) then i + Z.of_nat (length arry) else i in
  if bool_decide (0 ≤ i < Z.of_nat (length arry))
  then Some (<[Z.to_nat i := b]> arry)
  else None.

(** [add_field_length(docnum, fieldname, length)]: the object afterwards,
    and the exception if one was raised. *)
Definition add_field_length (docnum : Z) (fieldname : string) (length : Z)
    (self : PoolBase) : PoolBase * option exn :=
  let totals :=
    <[fieldname := default 0 (_fieldlength_totals self !! fieldname) + length]>
      (_fieldlength_totals self) in
  let maxes :=
    if bool_decide (length > default 0 (_fieldlength_maxes self !! fieldname))
    then <[fieldname := length]> (_fieldlength_maxes self)
    else _fieldlength_maxes self in
  let arrays :=
    if bool_decide (length_arrays self !! fieldname = None)
    then <[fieldname := []]> (length_arrays self)
    else length_arrays self in
  let arry := default [] (arrays !! fieldname) in
  let arry :=
    if bool_decide (Z.of_nat (List.length arry) ≤ docnum)
    then append_zeros (Z.to_nat (docnum - Z.of_nat (List.length arry) + 1)) arry
    else arry in
  let arrays := <[fieldname := arry]> arrays in
  match array_set arry docnum (length_to_byte length) with
  | Some arry =>
      ({| length_arrays := <[fieldname := arry]> arrays;
          _fieldlength_totals := totals;
          _fieldlength_maxes := maxes |}, None)
  | None =>
      ({| length_arrays := arrays;
          _fieldlength_totals := totals;
          _fieldlength_maxes := maxes |}, Some IndexError)
  end.

(** A sequence of [add_field_length] calls, up to the first that
    raises. *)
Definition add_field_lengths (calls : list (Z * string * Z)) (self : PoolBase)
  : PoolBase * option exn :=
  foldl (λ r c,
           match r with
           | (self, None) => add_field_length c.1.1 c.1.2 c.2 self
           | (self, Some e) => (self, Some e)
           end)
        (self, None) calls.

(** [_fill_lengths(doccount)] *)
Definition _fill_lengths (doccount : Z) (self : PoolBase) : PoolBase :=
  {| length_arrays :=
       (λ arry,
          if bool_decide (Z.of_nat (List.length arry) < doccount)
          then append_zeros (Z.to_nat (doccount - Z.of_nat (List.length arry))) arry
          else arry) <$> length_arrays self;
     _fieldlength_totals := _fieldlength_totals self;
     _fieldlength_maxes := _fieldlength_maxes self |}.

(** ** [add_content]

    [add_posting] is the method of the subclass, acting on the state [P]
    of the subclass; [field.index(value)] is given by the tuples
    [(w, freq, weight, valuestring)] it yields, and [field.scorable] by
    its value. *)
Context {W P : Type} (add_posting : string * string * Z * W * option string → P → result P).

Fixpoint add_content_loop (docnum : Z) (fieldname : string)
    (index : list (string * Z * W * option string)) (termcount : Z) (pool : P)
  : result (Z * P) :=
  match index with
  | [] => Ok (termcount, pool)
  | (w, freq, weight, valuestring) :: index' =>
      pool ← add_posting (fieldname, w, docnum, weight, valuestring) pool;
      add_content_loop docnum fieldname index' (termcount + freq) pool
  end.

Definition add_content (docnum : Z) (fieldname : string) (scorable : option bool)
    (index : list (string * Z * W * option string))
    (self : PoolBase) (pool : P) : result (Z * PoolBase * P) :=
  '(termcount, pool) ← add_content_loop docnum fieldname index 0 pool;
  self ←
    (if match scorable with Some b => b | None => false end
        && negb (bool_decide (termcount = 0))
     then match add_field_length docnum fieldname termcount self with
          | (self, None) => Ok self
          | (_, Some e) => Raise e
          end
     else Ok self);
  Ok (termcount, self, pool).

End poolbase.
End PoolBase.

(** * A posting writer to run the code on *)

Module SampleWriter.

Definition blocklimit : nat := 128.

Record post := Post {
  post_docnum : Z; post_weight : Z; post_value : option string; post_length : Z
}.

(** Modelled from the spec: the posting-list block writer is an object of
    another module ([start], [write], [finish], [cancel], [as_inline],
    with the attributes [posttotal] and [blockcount]).  This one buffers
    the postings of the current term, moves them to the posting file in
    blocks of [blocklimit], and counts the postings written since [start].
    It serves to run the code on concrete inputs; the theorems about
    [write_postings] hold for every writer. *)
Record writer := Writer {
  postfile : list (list post);   (* the blocks written so far *)
  startoffset : nat;             (* where the current posting list starts *)
  block : list post;             (* the postings buffered *)
  blocks : Z;                    (* blockcount *)
  total : Z                      (* posttotal *)
}.

Definition empty : writer := Writer [] 0 [] 0 0.

Definition write_block (pw : writer) : writer :=
  Writer (postfile pw ++ [block pw]) (startoffset pw) [] (blocks pw + 1) (total pw).

Global Instance sample_writer :
  Pools.PostingWriter (W:=Z) (Format:=string) (Offset:=nat)
                      (Inline:=list post) writer := {|
  Pools.posttotal := total;
  Pools.blockcount := blocks;
  Pools.pw_start := λ _ pw,
    (length (postfile pw),
     Writer (postfile pw) (length (postfile pw)) [] 0 0);
  Pools.pw_write := λ docnum weight valuestring dfl pw,
    let pw := Writer (postfile pw) (startoffset pw)
                     (block pw ++ [Post docnum weight valuestring dfl])
                     (blocks pw) (total pw + 1) in
    if bool_decide (blocklimit ≤ length (block pw))%nat then write_block pw else pw;
  Pools.pw_as_inline := block;
  Pools.pw_cancel := λ pw,
    Writer (take (startoffset pw) (postfile pw)) (startoffset pw) [] (blocks pw) (total pw);
  Pools.pw_finish := λ pw,
    let pw := if bool_decide (block pw ≠ []) then write_block pw else pw in
    (total pw, pw)
|}.

Definition schema : gmap string string :=
  {[ "a" := "Frequency"; "b" := "Frequency"; "content" := "Positions";
     "title" := "Frequency" ]}%string.

Definition getlength (docnum : Z) (fieldname : string) : Z := 0.

Definition world0 :
  Pools.world (W:=Z) (Format:=string) (Offset:=nat) (Inline:=list post) (PW:=writer) :=
  Pools.World [] empty [].

Definition write_postings (postiter : list (Pools.Posting (W:=Z))) :=
  Pools.write_postings 0 Z.add schema getlength postiter 1 world0.

(** A pool filled with [ps] and finished: the file system afterwards. *)
Definition index (limitmb : Z) (d : option string)
    (fs : Pools.filesystem (W:=Z)) (ps : list (Pools.Posting (W:=Z)))
  : result (Pools.filesystem (W:=Z)) :=
  '(self, fs) ← Pools.add_postings ps (Pools.init limitmb d) fs;
  '(_, fs, _) ← Pools.finish 0 Z.add id schema getlength self fs world0;
  Ok fs.

(** A pool filled with [ps] and cancelled. *)
Definition index_cancel (limitmb : Z) (d : option string)
    (fs : Pools.filesystem (W:=Z)) (ps : list (Pools.Posting (W:=Z)))
  : result (Pools.filesystem (W:=Z)) :=
  '(self, fs) ← Pools.add_postings ps (Pools.init limitmb d) fs;
  Pools.cancel self fs.

End SampleWriter.

(** * [reading.py]: [MultiReader] *)

(** [bisect.bisect_right(a, x)], after the library's Python source: the
    binary search for the insertion point that comes after every entry
    equal to [x]. *)
Equations? bisect_right_loop (a : list Z) (x : Z) (lo hi : nat) : result nat
  by wf (hi - lo)%nat lt :=
  bisect_right_loop a x lo hi with decide (lo < hi)%nat := {
    | left _ with a !! ((lo + hi) / 2)%nat := {
        | Some y with decide (x < y) := {
            | left _ := bisect_right_loop a x lo ((lo + hi) / 2)%nat;
            | right _ := bisect_right_loop a x ((lo + hi) / 2 + 1)%nat hi };
        | None := Raise IndexError };
    | right _ := Ok lo }.
Proof.
  all: change (Nat.divmod (lo + hi) 1 0 1).1 with ((lo + hi) / 2)%nat;
       assert (lo ≤ (lo + hi) / 2 < hi)%nat
         by (split; [apply Nat.div_le_lower_bound
                    |apply Nat.Div0.div_lt_upper_bound]; lia);
       lia.
Qed.

Definition bisect_right (a : list Z) (x : Z) : result nat :=
  bisect_right_loop a x 0 (length a).

Module Reading.

(** A segment reader, as far as [MultiReader] looks into it here. *)
Record IndexReader := { doc_count_all : Z }.

Record MultiReader := {
  readers : list IndexReader;
  doc_offsets : list Z
}.

(** The loop of [MultiReader.__init__]. *)
Fixpoint init_offsets (readers : list IndexReader) (doc_offsets : list Z)
    (base : Z) : list Z :=
  match readers with
  | [] => doc_offsets
  | r :: readers' =>
      init_offsets readers' (doc_offsets ++ [base]) (base + doc_count_all r)
  end.

(** [MultiReader.__init__] *)
Definition init (readers : list IndexReader) : MultiReader :=
  {| readers := readers; doc_offsets := init_offsets readers [] 0 |}.

(** [MultiReader._document_segment] *)
Definition document_segment (self : MultiReader) (docnum : Z) : result Z :=
  i ← bisect_right (doc_offsets self) docnum;
  Ok (Z.max 0 (Z.of_nat i - 1)).

(** [MultiReader._segment_and_docnum].  [segmentnum] is never negative,
    so the index counts from the front. *)
Definition segment_and_docnum (self : MultiReader) (docnum : Z) : result (Z * Z) :=
  segmentnum ← document_segment self docnum;
  match doc_offsets self !! Z.to_nat segmentnum with
  | Some offset => Ok (segmentnum, docnum - offset)
  | None => Raise IndexError
  end.

(** ** [MultiReader._merge_iters] *)

Section merge_iters.
(** Field identifiers, with their ordering. *)
Context {F : Type} `{Cmp F}.

(** What a term iterator yields: [(fieldnum, text, docfreq, termcount)]. *)
Definition term : Type := F * string * Z * Z.

(** The entries of [current]: a term and the iterator it came from. *)
Definition entry : Type := F * string * Z * Z * generator term.

(** The loop that fills [current].  [it.next()] is not guarded: a
    [StopIteration] leaves the generator function, which ends the merged
    iterator before it has yielded anything. *)
Fixpoint merge_iters_init (iterlist : list (generator term)) (current : list entry)
  : option (list entry) :=
  match iterlist with
  | [] => Some current
  | it :: iterlist' =>
      match next it with
      | Some ((fnum, text, docfreq, termcount), it') =>
          merge_iters_init iterlist'
            (current ++ [(fnum, text, docfreq, termcount, it')])
      | None => None
      end
  end.

Definition pending (current : list entry) : nat :=
  sum_list_with (λ e : entry, S (length (gen_rest e.2))) current.

Lemma entries_pending_heappush (heap : list entry) (e : entry) :
  pending (heappush heap e) = (S (length (gen_rest e.2)) + pending heap)%nat.
Proof.
  unfold pending. induction heap as [|y heap IH]; simpl; [done|].
  case_decide; simpl; [done|]. rewrite IH. simpl. lia.
Qed.

(** The inner [while]: the terms at the top of the heap that match
    [(fnum, text)] are added together and their iterators advanced.  The
    heap is not empty where [heapreplace] and [heappop] are called, so
    their [IndexError] cannot occur. *)
Equations? merge_same (fnum : F) (text : string) (docfreq termcount : Z)
    (current : list entry) (active : Z) : Z * Z * list entry * Z
  by wf (pending current) lt :=
  merge_same fnum text docfreq termcount [] active :=
    (docfreq, termcount, [], active);
  merge_same fnum text docfreq termcount ((fn0, t0, df0, tc0, it) :: current') active
    with py_eq fn0 fnum && py_eq t0 text := {
    | true with inspect (next it) := {
        | exist _ (Some ((fn, t, df, tc), it')) Hnext
            with inspect (heapreplace ((fn0, t0, df0, tc0, it) :: current')
                                      (fn, t, df, tc, it')) := {
            | exist _ (Some (_, current1)) Hheap :=
                merge_same fnum text (docfreq + df0) (termcount + tc0)
                  current1 active;
            | exist _ None Hheap :=
                (docfreq + df0, termcount + tc0, [], active) };
        | exist _ None Hnext
            with inspect (heappop ((fn0, t0, df0, tc0, it) :: current')) := {
            | exist _ (Some (_, current1)) Hheap :=
                merge_same fnum text (docfreq + df0) (termcount + tc0)
                  current1 (active - 1);
            | exist _ None Hheap :=
                (docfreq + df0, termcount + tc0, [], active - 1) } };
    | false :=
        (docfreq, termcount, (fn0, t0, df0, tc0, it) :: current', active) }.
Proof.
  - rewrite entries_pending_heappush. unfold next in Hnext. simpl.
    destruct (gen_rest _); simplify_eq/=. lia.
  - lia.
Qed.

Lemma merge_same_pending (fnum : F) (text : string) (docfreq termcount : Z)
    (current : list entry) (active : Z) :
  (pending (merge_same fnum text docfreq termcount current active).1.2
   ≤ pending current)%nat.
Proof.
  funelim (merge_same fnum text docfreq termcount current active); simpl;
    try done.
  - etrans; [done|]. rewrite entries_pending_heappush.
    unfold pending, next in *. simpl.
    destruct (gen_rest _); simplify_eq/=. lia.
  - etrans; [done|]. unfold pending. simpl. lia.
Qed.

Lemma merge_same_progress (fnum : F) (text : string) (docfreq termcount : Z)
    (e : entry) (current' : list entry) (active : Z) :
  py_eq e.1.1.1.1 fnum && py_eq e.1.1.1.2 text = true →
  (pending (merge_same fnum text docfreq termcount (e :: current') active).1.2
   < pending (e :: current'))%nat.
Proof.
  destruct e as [[[[fn0 t0] df0] tc0] it]. simpl. intros Heq.
  simp merge_same. rewrite Heq. simpl.
  destruct (next it) as [[[[[fn t] df] tc] it']|] eqn:Hnext; simpl.
  - pose proof (merge_same_pending fnum text (docfreq + df0) (termcount + tc0)
                  (heappush current' (fn, t, df, tc, it')) active) as Hle.
    rewrite entries_pending_heappush in Hle. unfold next in Hnext.
    destruct (gen_rest it); simplify_eq/=. unfold pending, entry in *. lia.
  - pose proof (merge_same_pending fnum text (docfreq + df0) (termcount + tc0)
                  current' (active - 1)) as Hle.
    unfold pending, entry in *. lia.
Qed.

(** The outer [while] of a generator function: the terms it yields, and
    the exception that ends it if one does. *)
Equations? merge_iters_loop `{!CmpPreOrder F} (current : list entry) (active : Z)
  : list term * option exn
  by wf (pending current) lt :=
  merge_iters_loop current active with decide (active > 0) := {
    | left _ with current := {
        | [] := ([], Some IndexError);
        | (fnum, text, df0, tc0, it) :: current'
            with inspect (merge_same fnum text 0 0
                            ((fnum, text, df0, tc0, it) :: current') active) := {
            | exist _ (docfreq, termcount, current1, active1) Hsame :=
                let rest := merge_iters_loop current1 active1 in
                ((fnum, text, docfreq, termcount) :: rest.1, rest.2) } };
    | right _ := ([], None) }.
Proof.
  pose proof (merge_same_progress fnum text 0 0 (fnum, text, df0, tc0, it)
                current' active) as Hlt.
  pose proof (f_equal (λ r : Z * Z * list entry * Z, r.1.2) Hsame) as Hcur.
  simpl in Hcur. subst current1. apply Hlt.
  simpl. unfold py_eq. by rewrite !cmp_refl.
Qed.

(** [MultiReader._merge_iters(iterlist)] *)
Definition merge_iters `{!CmpPreOrder F} (iterlist : list (generator term))
  : list term * option exn :=
  match merge_iters_init iterlist [] with
  | Some current =>
      let current := heapify current in
      let active := Z.of_nat (length current) in
      merge_iters_loop current active
  | None => ([], None)
  end.

End merge_iters.
End Reading.

(** * [reading.py]: what [IndexReader] builds on [iter_from] *)

Module Terms.
Section terms.
Context {F : Type} `{Cmp F}.

Local Abbreviation term := (Reading.term (F:=F)).

(** The generators below are given by the list of what they yield, and
    the iterator [self.iter_from(fieldid, prefix)] they consume by the
    list [terms] of what it yields. *)

(** [IndexReader.expand_prefix(fieldid, prefix)] *)
Fixpoint expand_prefix (fieldid : F) (prefix : string) (terms : list term)
  : list string :=
  match terms with
  | [] => []
  | (fn, t, _, _) :: terms' =>
      if py_ne fn fieldid || negb (String.prefix prefix t) then []
      else t :: expand_prefix fieldid prefix terms'
  end.

(** [IndexReader.all_terms()], over what [iter(self)] yields. *)
Definition all_terms (terms : list term) : list (F * string) :=
  (λ x : term, (x.1.1.1, x.1.1.2)) <$> terms.

(** [IndexReader.iter_field(fieldid, prefix)] *)
Fixpoint iter_field (fieldid : F) (terms : list term) : list (string * Z * Z) :=
  match terms with
  | [] => []
  | (fn, t, docfreq, freq) :: terms' =>
      if py_ne fn fieldid then []
      else (t, docfreq, freq) :: iter_field fieldid terms'
  end.

(** [IndexReader.iter_prefix(fieldid, prefix)] *)
Fixpoint iter_prefix (fieldid : F) (prefix : string) (terms : list term)
  : list (string * Z * Z) :=
  match terms with
  | [] => []
  | (fn, t, docfreq, colfreq) :: terms' =>
      if py_ne fn fieldid || negb (String.prefix prefix t) then []
      else (t, docfreq, colfreq) :: iter_prefix fieldid prefix terms'
  end.

(** [IndexReader.lexicon(fieldid)], over what [iter_from(fieldid, '')]
    yields. *)
Definition lexicon (fieldid : F) (terms : list term) : list string :=
  (λ x : string * Z * Z, x.1.1) <$> iter_field fieldid terms.

End terms.
End Terms.

(** * [reading.py]: more of [MultiReader] *)

Module MultiReaders.

(** [MultiReader.scorable_field_names()], the readers given by what their
    [scorable_field_names()] return.  [s.union(...)] makes a new set and
    leaves [s] as it is. *)
Definition scorable_field_names (readers : list (list string)) : list string :=
  let s : gset string :=
    foldl (λ s names, let _ := s ∪ list_to_set names in s) ∅ readers in
  merge_sort cle (elements s).

(** [MultiReader.doc_count_all()] *)
Definition doc_count_all (self : Reading.MultiReader) : Z :=
  foldl Z.add 0 (Reading.doc_count_all <$> Reading.readers self).

End MultiReaders.

(** * [fields.py]: the posting formats *)

Module Fields.
Section fields.

(** Python floats are kept abstract: the conversion from integers, [+]
    and [*], and what a float is after [write_8bitfloat] and
    [read_8bitfloat] have stored it in one byte and read it back. *)
Context {Float : Type} (of_int : Z → Float) (fadd fmul : Float → Float → Float)
        (quantize : Float → Float).

(** The values posting data is made of. *)
#[warnings="-register-all"]
Inductive pyval :=
| PNone
| PInt (n : Z)
| PFloat (x : Float)
| PTuple (items : list pyval)
| PList (items : list pyval).

(** ** Python operations on those values *)

(** The items of a sequence, as [for ... in data] and [len(data)] see
    them. *)
Definition py_iter (data : pyval) : result (list pyval) :=
  match data with
  | PTuple items | PList items => Ok items
  | _ => Raise TypeError
  end.

Definition py_len (data : pyval) : result pyval :=
  items ← py_iter data; Ok (PInt (Z.of_nat (length items))).

(** [data[i]] for the constant indices 0 and 1. *)
Definition py_index (data : pyval) (i : nat) : result pyval :=
  match data with
  | PTuple items | PList items =>
      match items !! i with
      | Some v => Ok v
      | None => Raise IndexError
      end
  | _ => Raise TypeError
  end.

Definition py_add (a b : pyval) : result pyval :=
  match a, b with
  | PInt m, PInt n => Ok (PInt (m + n))
  | PInt m, PFloat y => Ok (PFloat (fadd (of_int m) y))
  | PFloat x, PInt n => Ok (PFloat (fadd x (of_int n)))
  | PFloat x, PFloat y => Ok (PFloat (fadd x y))
  | _, _ => Raise TypeError
  end.

Definition py_sub (a b : pyval) : result pyval :=
  match a, b with
  | PInt m, PInt n => Ok (PInt (m - n))
  | _, _ => Raise TypeError
  end.

Definition py_mul (a b : pyval) : result pyval :=
  match a, b with
  | PInt m, PInt n => Ok (PInt (m * n))
  | PInt m, PFloat y => Ok (PFloat (fmul (of_int m) y))
  | PFloat x, PInt n => Ok (PFloat (fmul x (of_int n)))
  | PFloat x, PFloat y => Ok (PFloat (fmul x y))
  | _, _ => Raise TypeError
  end.

(** [ls.append(...)]: [list.append] takes exactly one argument. *)
Definition list_append (ls : list pyval) (args : list pyval) : result (list pyval) :=
  match args with
  | [x] => Ok (ls ++ [x])
  | _ => Raise TypeError
  end.

(** [a, b = item] and [a, b, c = item] *)
Definition unpack2 (item : pyval) : result (pyval * pyval) :=
  items ← py_iter item;
  match items with
  | [a; b] => Ok (a, b)
  | _ => Raise ValueError
  end.

Definition unpack3 (item : pyval) : result (pyval * pyval * pyval) :=
  items ← py_iter item;
  match items with
  | [a; b; c] => Ok (a, b, c)
  | _ => Raise ValueError
  end.

(** [sum(...)], which starts from the integer 0. *)
Fixpoint py_sum_from (acc : pyval) (items : list pyval) : result pyval :=
  match items with
  | [] => Ok acc
  | v :: items' => acc ← py_add acc v; py_sum_from acc items'
  end.
Definition py_sum (items : list pyval) : result pyval := py_sum_from (PInt 0) items.

Fixpoint mapM {X Y : Type} (f : X → result Y) (l : list X) : result (list Y) :=
  match l with
  | [] => Ok []
  | x :: l' => y ← f x; ys ← mapM f l'; Ok (y :: ys)
  end.

(** ** The stream *)

(** Modelled from the spec: the binary stream is an object of another
    module, with [write_varint]/[read_varint] for unsigned integers and
    [write_8bitfloat]/[read_8bitfloat] for floats stored in one byte.  A
    stream is the sequence of the items written; reading takes them from
    the front. *)
Inductive stream_item :=
| Varint (n : Z)
| Float8 (x : Float).

Definition stream : Type := list stream_item.

Definition write_varint (v : pyval) (s : stream) : result stream :=
  match v with
  | PInt n => if bool_decide (0 ≤ n) then Ok (s ++ [Varint n]) else Raise ValueError
  | _ => Raise TypeError
  end.

Definition read_varint (s : stream) : result (pyval * stream) :=
  match s with
  | Varint n :: s' => Ok (PInt n, s')
  | _ => Raise EOFError
  end.

Definition write_8bitfloat (v : pyval) (s : stream) : result stream :=
  match v with
  | PFloat x => Ok (s ++ [Float8 (quantize x)])
  | PInt n => Ok (s ++ [Float8 (quantize (of_int n))])
  | _ => Raise TypeError
  end.

Definition read_8bitfloat (s : stream) : result (pyval * stream) :=
  match s with
  | Float8 x :: s' => Ok (PFloat x, s')
  | _ => Raise EOFError
  end.

(** [xrange(n)]: the number of rounds of the loop. *)
Definition xrange (n : pyval) : result nat :=
  match n with
  | PInt n => Ok (Z.to_nat n)
  | _ => Raise TypeError
  end.

(** ** The formats *)

Inductive Format :=
| Existance
| Frequency
| DocBoosts
| Positions
| Characters
| PositionBoosts.

(** The loop of [Positions.write_postvalue]. *)
Fixpoint positions_write_loop (data : list pyval) (pos_base : pyval) (s : stream)
  : result stream :=
  match data with
  | [] => Ok s
  | pos :: data' =>
      delta ← py_sub pos pos_base;
      s ← write_varint delta s;
      positions_write_loop data' pos s
  end.

(** The loop of [Positions.read_postvalue]. *)
Fixpoint positions_read_loop (rounds : nat) (pos_base : pyval)
    (pos_list : list pyval) (s : stream) : result (list pyval * stream) :=
  match rounds with
  | O => Ok (pos_list, s)
  | S rounds' =>
      '(delta, s) ← read_varint s;
      pos_base ← py_add pos_base delta;
      pos_list ← list_append pos_list [pos_base];
      positions_read_loop rounds' pos_base pos_list s
  end.

(** The loop of [Characters.write_postvalue]. *)
Fixpoint characters_write_loop (data : list pyval) (pos_base char_base : pyval)
    (s : stream) : result stream :=
  match data with
  | [] => Ok s
  | item :: data' =>
      '(pos, startchar, endchar) ← unpack3 item;
      delta ← py_sub pos pos_base;
      s ← write_varint delta s;
      delta ← py_sub startchar char_base;
      s ← write_varint delta s;
      delta ← py_sub endchar startchar;
      s ← write_varint delta s;
      characters_write_loop data' pos endchar s
  end.

(** The loop of [Characters.read_postvalue].  [ls.append] is called with
    three arguments. *)
Fixpoint characters_read_loop (rounds : nat) (pos_base char_base : pyval)
    (ls : list pyval) (s : stream) : result (list pyval * stream) :=
  match rounds with
  | O => Ok (ls, s)
  | S rounds' =>
      '(delta, s) ← read_varint s;
      pos_base ← py_add pos_base delta;
      '(delta, s) ← read_varint s;
      char_base ← py_add char_base delta;
      let startchar := char_base in
      '(delta, s) ← read_varint s;
      char_base ← py_add char_base delta;
      ls ← list_append ls [pos_base; startchar; char_base];
      characters_read_loop rounds' pos_base char_base ls s
  end.

(** The loop of [PositionBoosts.write_postvalue]. *)
Fixpoint position_boosts_write_loop (data : list pyval) (pos_base : pyval)
    (count : Z) (s : stream) : result (Z * stream) :=
  match data with
  | [] => Ok (count, s)
  | item :: data' =>
      '(pos, boost) ← unpack2 item;
      delta ← py_sub pos pos_base;
      s ← write_varint delta s;
      s ← write_8bitfloat boost s;
      position_boosts_write_loop data' pos (count + 1) s
  end.

(** The loop of [PositionBoosts.read_postvalue]. *)
Fixpoint position_boosts_read_loop (rounds : nat) (pos_base : pyval)
    (pos_list : list pyval) (s : stream) : result (list pyval * stream) :=
  match rounds with
  | O => Ok (pos_list, s)
  | S rounds' =>
      '(delta, s) ← read_varint s;
      pos_base ← py_add pos_base delta;
      '(boost, s) ← read_8bitfloat s;
      pos_list ← list_append pos_list [PTuple [pos_base; boost]];
      position_boosts_read_loop rounds' pos_base pos_list s
  end.

(** [write_postvalue(stream, data)]: the stream afterwards and the value
    returned. *)
Definition write_postvalue (fmt : Format) (s : stream) (data : pyval)
  : result (stream * pyval) :=
  match fmt with
  | Existance => Ok (s, PInt 0)
  | Frequency =>
      s ← write_varint data s;
      Ok (s, data)
  | DocBoosts =>
      freq ← py_index data 0;
      s ← write_varint freq s;
      boost ← py_index data 1;
      s ← write_8bitfloat boost s;
      freq ← py_index data 0;
      Ok (s, freq)
  | Positions =>
      n ← py_len data;
      s ← write_varint n s;
      items ← py_iter data;
      s ← positions_write_loop items (PInt 0) s;
      n ← py_len data;
      Ok (s, n)
  | Characters =>
      n ← py_len data;
      s ← write_varint n s;
      items ← py_iter data;
      s ← characters_write_loop items (PInt 0) (PInt 0) s;
      n ← py_len data;
      Ok (s, n)
  | PositionBoosts =>
      n ← py_len data;
      s ← write_varint n s;
      items ← py_iter data;
      '(count, s) ← position_boosts_write_loop items (PInt 0) 0 s;
      Ok (s, PInt count)
  end.

(** [read_postvalue(stream)]: the value read and the rest of the stream. *)
Definition read_postvalue (fmt : Format) (s : stream) : result (pyval * stream) :=
  match fmt with
  | Existance => Ok (PNone, s)
  | Frequency => read_varint s
  | DocBoosts =>
      '(freq, s) ← read_varint s;
      '(boost, s) ← read_8bitfloat s;
      Ok (PTuple [freq; boost], s)
  | Positions =>
      '(n, s) ← read_varint s;
      rounds ← xrange n;
      '(pos_list, s) ← positions_read_loop rounds (PInt 0) [] s;
      Ok (PList pos_list, s)
  | Characters =>
      '(n, s) ← read_varint s;
      rounds ← xrange n;
      '(ls, s) ← characters_read_loop rounds (PInt 0) (PInt 0) [] s;
      Ok (PList ls, s)
  | PositionBoosts =>
      '(freq, s) ← read_varint s;
      rounds ← xrange freq;
      '(pos_list, s) ← position_boosts_read_loop rounds (PInt 0) [] s;
      Ok (PTuple [freq; PList pos_list], s)
  end.

(** ** The extractors *)

Inductive metric := frequency | weight | positions | characters | position_boosts.

(** [Format.supports(name)]: whether the class has [data_to_<name>];
    [getattr] raises [AttributeError] when it has not. *)
Definition supports (fmt : Format) (name : metric) : bool :=
  match fmt, name with
  | _, frequency | _, weight => true
  | (Positions | Characters | PositionBoosts), positions => true
  | Characters, characters => true
  | PositionBoosts, position_boosts => true
  | _, _ => false
  end.

Definition data_to_frequency (fmt : Format) (data : pyval) : result pyval :=
  match fmt with
  | Existance => Ok (PInt 1)
  | Frequency => Ok data
  | DocBoosts => py_index data 0
  | Positions | Characters | PositionBoosts => py_len data
  end.

Definition data_to_weight (field_boost : Float) (fmt : Format) (data : pyval)
  : result pyval :=
  match fmt with
  | Existance => Ok (PFloat field_boost)
  | Frequency => py_mul data (PFloat field_boost)
  | DocBoosts =>
      freq ← py_index data 0;
      boost ← py_index data 1;
      w ← py_mul freq boost;
      py_mul w (PFloat field_boost)
  | Positions | Characters =>
      n ← py_len data;
      py_mul n (PFloat field_boost)
  | PositionBoosts =>
      n ← py_len data;
      items ← py_iter data;
      boosts ← mapM (λ d, py_index d 1) items;
      total ← py_sum boosts;
      w ← py_mul n total;
      py_mul w (PFloat field_boost)
  end.

(** The generators of [Characters] are given by the list of what they
    yield. *)
Definition data_to_positions (fmt : Format) (data : pyval) : result pyval :=
  match fmt with
  | Positions => Ok data
  | Characters =>
      items ← py_iter data;
      ps ← mapM (λ item, '(pos, _, _) ← unpack3 item; Ok pos) items;
      Ok (PList ps)
  | PositionBoosts =>
      items ← py_iter data;
      ps ← mapM (λ d, py_index d 0) items;
      Ok (PList ps)
  | _ => Raise AttributeError
  end.

Definition data_to_characters (fmt : Format) (data : pyval) : result pyval :=
  match fmt with
  | Characters =>
      items ← py_iter data;
      cs ← mapM (λ item, '(_, sc, ec) ← unpack3 item; Ok (PTuple [sc; ec])) items;
      Ok (PList cs)
  | _ => Raise AttributeError
  end.

Definition data_to_position_boosts (fmt : Format) (data : pyval) : result pyval :=
  match fmt with
  | PositionBoosts => Ok data
  | _ => Raise AttributeError
  end.

(** [Format.data_to(data, name)] *)
Definition data_to (field_boost : Float) (fmt : Format) (data : pyval)
    (name : metric) : result pyval :=
  match name with
  | frequency => data_to_frequency fmt data
  | weight => data_to_weight field_boost fmt data
  | positions => data_to_positions fmt data
  | characters => data_to_characters fmt data
  | position_boosts => data_to_position_boosts fmt data
  end.

(** Writing [data] to an empty stream and reading it back. *)
Definition round_trip (fmt : Format) (data : pyval) : result pyval :=
  '(s, _) ← write_postvalue fmt [] data;
  '(data', _) ← read_postvalue fmt s;
  Ok data'.

(** The round trip of the specification: the value read back gives, for
    every metric the format supports, what the original gave. *)
Definition round_trip_ok (field_boost : Float) (fmt : Format) (data : pyval) : Prop :=
  ∃ data',
    round_trip fmt data = Ok data'
    ∧ ∀ name, supports fmt name = true →
        data_to field_boost fmt data' name = data_to field_boost fmt data name.

End fields.
End Fields.

(** * [fields.py]: [word_datas] *)

Module WordDatas.
Section word_datas.
Context {Float : Type}.

Local Abbreviation pyval := (Fields.pyval (Float:=Float)).

(** A token of the analyzer, as far as [word_datas] looks into it.  The
    analyzer belongs to another module: its call is given by the tokens
    it yields. *)
Record token := Token {
  text : string;
  pos : Z;
  startchar : Z;
  endchar : Z;
  boosts : bool;
  boost : Float
}.

(** What [word_datas] yields: [(w, freq, data)].  The generators run over
    a set or a dictionary, whose order is the order of the hash table;
    they are given here in the order the map gives, and no statement
    below depends on the order. *)
Definition word_data : Type := string * Z * pyval.

(** [Existance.word_datas] *)
Definition existance_word_datas (tokens : list token) : list word_data :=
  let seen : gset string := foldl (λ seen t, seen ∪ {[text t]}) ∅ tokens in
  (λ w, (w, 1, Fields.PNone)) <$> elements seen.

(** [Frequency.word_datas]: [seen] is a [defaultdict(int)]. *)
Definition frequency_seen (tokens : list token) : gmap string Z :=
  foldl (λ seen t, <[text t := default 0 (seen !! text t) + 1]> seen) ∅ tokens.

Definition frequency_word_datas (tokens : list token) : list word_data :=
  (λ e : string * Z, (e.1, e.2, Fields.PInt e.2)) <$> map_to_list (frequency_seen tokens).

(** [Positions.word_datas]: [seen] is a [defaultdict(list)]. *)
Definition positions_seen (start_pos : Z) (tokens : list token)
  : gmap string (list Z) :=
  foldl (λ seen t,
           <[text t := default [] (seen !! text t) ++ [start_pos + pos t]]> seen)
        ∅ tokens.

Definition positions_word_datas (start_pos : Z) (tokens : list token)
  : list word_data :=
  (λ e : string * list Z,
     (e.1, Z.of_nat (length e.2), Fields.PList (Fields.PInt <$> e.2)))
    <$> map_to_list (positions_seen start_pos tokens).

(** [Characters.word_datas] *)
Definition characters_seen (start_char : Z) (tokens : list token)
  : gmap string (list (Z * Z * Z)) :=
  foldl (λ seen t,
           <[text t := default [] (seen !! text t)
                       ++ [(pos t, start_char + startchar t, start_char + endchar t)]]>
             seen)
        ∅ tokens.

Definition characters_word_datas (start_char : Z) (tokens : list token)
  : list word_data :=
  (λ e : string * list (Z * Z * Z),
     (e.1, Z.of_nat (length e.2),
      Fields.PList ((λ c : Z * Z * Z,
                       Fields.PTuple [Fields.PInt c.1.1; Fields.PInt c.1.2;
                                      Fields.PInt c.2]) <$> e.2)))
    <$> map_to_list (characters_seen start_char tokens).

(** [PositionBoosts.word_datas]: [seen] is a [defaultdict(iter)], whose
    factory [iter] is called without argument for a missing key, which
    is a [TypeError]; [boost] is a local variable assigned only for a
    token with [boosts]. *)
Inductive word_datas_error := TypeError_iter | UnboundLocalError_boost.

Fixpoint position_boosts_loop (tokens : list token) (boost_var : option Float)
    (seen : gmap string (list (Z * Float)))
  : gmap string (list (Z * Float)) + word_datas_error :=
  match tokens with
  | [] => inl seen
  | t :: tokens' =>
      let boost_var := if boosts t then Some (boost t) else boost_var in
      match seen !! text t with
      | None => inr TypeError_iter
      | Some poslist =>
          match boost_var with
          | None => inr UnboundLocalError_boost
          | Some b =>
              position_boosts_loop tokens' boost_var
                (<[text t := poslist ++ [(pos t, b)]]> seen)
          end
      end
  end.

Definition position_boosts_word_datas (tokens : list token)
  : list word_data + word_datas_error :=
  match position_boosts_loop tokens None ∅ with
  | inl seen =>
      inl ((λ e : string * list (Z * Float),
              (e.1, Z.of_nat (length e.2),
               Fields.PList ((λ pb : Z * Float,
                                Fields.PTuple [Fields.PInt pb.1; Fields.PFloat pb.2])
                               <$> e.2)))
             <$> map_to_list seen)
  | inr e => inr e
  end.

End word_datas.
End WordDatas.

(** * [fields.py]: field types and the schema *)

(** [l[i]] on a list: a negative index counts from the end. *)
Definition list_index {A} (l : list A) (i : Z) : result A :=
  let i := if bool_decide (i < 0) then i + Z.of_nat (length l) else i in
  if bool_decide (i < 0) then Raise IndexError
  else match l !! Z.to_nat i with
       | Some x => Ok x
       | None => Raise IndexError
       end.

(** [d[k]] on a dictionary with string keys. *)
Definition dict_index {A} (d : gmap string A) (k : string) : result A :=
  match d !! k with
  | Some x => Ok x
  | None => Raise (KeyError k)
  end.

(** [enumerate(l)] *)
Definition enumerate {A} (l : list A) : list (Z * A) :=
  imap (λ i x, (Z.of_nat i, x)) l.

Module Schema.
Section schema.

(** The formats are objects of the classes of [fields.py]; the schema
    stores them and looks at nothing in them. *)
Context {Fmt : Type}.

(** A [FieldType] object: its four attributes, each [None] until set. *)
Record FieldType := {
  format : option Fmt;
  vector : option Fmt;
  scorable : option bool;
  stored : option bool
}.

(** The truth value of an attribute: an object of a format class is
    true, as it defines neither [__nonzero__] nor [__len__]. *)
Definition format_truth (v : option Fmt) : bool :=
  match v with Some _ => true | None => false end.
Definition bool_truth (v : option bool) : bool :=
  match v with Some b => b | None => false end.

(** What [Schema.add] is given for [fieldtype]: a [FieldType] object, a
    callable (a class or a function) with what calling it without
    argument gives, which is an exception, a [FieldType] object or
    ([None]) an object of another kind, or an object that is neither. *)
Inductive fieldtype_arg :=
| AFieldType (ft : FieldType)
| ACallable (returns : result (option FieldType))
| AnotherObject.

(** Why [FieldConfigurationError] is raised. *)
Inductive configuration_error :=
| LeadingUnderscore
| AlreadyHasField (name : string)
| NotAFieldType.

Inductive error :=
| FieldConfigurationError (why : configuration_error)
| Raised (e : exn).

Record Schema := {
  _by_number : list FieldType;
  _names : list string;
  _by_name : gmap string FieldType;
  _numbers : gmap string Z
}.

(** The start of [Schema.__init__]. *)
Definition empty : Schema :=
  {| _by_number := []; _names := []; _by_name := ∅; _numbers := ∅ |}.

(** [Schema.add(name, fieldtype)]: the schema afterwards, or the
    exception; every exception is raised before anything is assigned. *)
Definition add (name : string) (fieldtype : fieldtype_arg) (self : Schema)
  : Schema + error :=
  if String.prefix "_" name then inr (FieldConfigurationError LeadingUnderscore)
  else if bool_decide (is_Some (_by_name self !! name))
  then inr (FieldConfigurationError (AlreadyHasField name))
  else
    let called :=
      match fieldtype with
      | ACallable returns => returns
      | AFieldType ft => Ok (Some ft)
      | AnotherObject => Ok None
      end in
    match called with
    | Raise e => inr (Raised e)
    | Ok None => inr (FieldConfigurationError NotAFieldType)
    | Ok (Some fieldtype) =>
        let fnum := Z.of_nat (length (_by_number self)) in
        inl {| _numbers := <[name := fnum]> (_numbers self);
               _by_number := _by_number self ++ [fieldtype];
               _names := _names self ++ [name];
               _by_name := <[name := fieldtype]> (_by_name self) |}
    end.

(** A sequence of [add] calls, up to the first that raises. *)
Fixpoint add_all (fields : list (string * fieldtype_arg)) (self : Schema)
  : Schema + error :=
  match fields with
  | [] => inl self
  | (name, fieldtype) :: fields' =>
      match add name fieldtype self with
      | inl self => add_all fields' self
      | inr e => inr e
      end
  end.

(** [Schema.__init__( **fields)]: the keyword arguments are a dictionary,
    and the fields are added in the sorted order of their names. *)
Definition init (fields : gmap string fieldtype_arg) : Schema + error :=
  let names := merge_sort cle (elements (dom fields)) in
  add_all (omap (λ name, (name,.) <$> fields !! name) names) empty.

(** [Schema.__getitem__(id)]: by name for a string, by number otherwise. *)
Definition getitem (id : string + Z) (self : Schema) : result FieldType :=
  match id with
  | inl name => dict_index (_by_name self) name
  | inr number => list_index (_by_number self) number
  end.

(** [Schema.__len__] *)
Definition len (self : Schema) : Z := Z.of_nat (length (_by_number self)).

(** [Schema.__contains__] *)
Definition contains (fieldname : string) (self : Schema) : bool :=
  bool_decide (is_Some (_by_name self !! fieldname)).

Definition field_by_name (name : string) (self : Schema) : result FieldType :=
  dict_index (_by_name self) name.

Definition field_by_number (number : Z) (self : Schema) : result FieldType :=
  list_index (_by_number self) number.

Definition field_names (self : Schema) : list string := _names self.

Definition name_to_number (name : string) (self : Schema) : result Z :=
  dict_index (_numbers self) name.

Definition number_to_name (number : Z) (self : Schema) : result string :=
  list_index (_names self) number.

(** [is_vectored]: [vector is not None]. *)
Definition is_vectored (fieldnum : Z) (self : Schema) : result bool :=
  ft ← list_index (_by_number self) fieldnum;
  Ok (bool_decide (vector ft ≠ None)).

(** [has_vectored_fields]: [any(ftype.vector for ...)]. *)
Definition has_vectored_fields (self : Schema) : bool :=
  existsb (λ ftype, format_truth (vector ftype)) (_by_number self).

(** [vectored_fields]: [[i for i, ftype in enumerate(...) if ftype.vector]] *)
Definition vectored_fields (self : Schema) : list Z :=
  omap (λ '(i, ftype), if format_truth (vector ftype) then Some i else None)
       (enumerate (_by_number self)).

(** [is_scorable]: the attribute as it is. *)
Definition is_scorable (fieldnum : Z) (self : Schema) : result (option bool) :=
  ft ← list_index (_by_number self) fieldnum;
  Ok (scorable ft).

(** [scorable_fields] *)
Definition scorable_fields (self : Schema) : list Z :=
  omap (λ '(i, field), if bool_truth (scorable field) then Some i else None)
       (enumerate (_by_number self)).

End schema.
End Schema.
(** * Facts about [heapq] *)

Section heapq_facts.
Context `{CmpPreOrder E}.

Lemma heappush_perm (heap : list E) (item : E) :
  heappush heap item ≡ₚ item :: heap.
Proof.
  induction heap as [|y heap IH]; simpl; [done|].
  case_decide; [done|]. rewrite IH. apply Permutation_swap.
Qed.

Lemma heappush_sorted (heap : list E) (item : E) :
  Sorted cle heap → Sorted cle (heappush heap item).
Proof.
  induction heap as [|y heap IH]; simpl; intros Hs.
  - repeat constructor.
  - case_decide as Hle.
    + constructor; [done|]. by constructor.
    + apply Sorted_inv in Hs as [Hs Hhd]. constructor; [by apply IH|].
      destruct heap as [|z heap]; simpl.
      * constructor. destruct (cle_total item y); done.
      * case_decide; constructor.
        -- destruct (cle_total item y); done.
        -- by apply HdRel_inv in Hhd.
Qed.

Lemma heapify_perm (x : list E) : heapify x ≡ₚ x.
Proof. apply merge_sort_Permutation. Qed.

Lemma heapify_sorted (x : list E) : Sorted cle (heapify x).
Proof. apply Sorted_merge_sort, _. Qed.

Lemma sorted_head_least (x : E) (heap : list E) :
  Sorted cle (x :: heap) → Forall (cle x) heap.
Proof.
  intros Hs. apply Sorted_StronglySorted in Hs; [|apply _].
  by apply StronglySorted_inv in Hs as [_ ?].
Qed.

Lemma sorted_cons_least (x : E) (l : list E) :
  Forall (cle x) l → Sorted cle l → Sorted cle (x :: l).
Proof.
  intros Hall Hs. constructor; [done|].
  destruct l; constructor. by apply Forall_inv in Hall.
Qed.

End heapq_facts.

(** * Facts about [imerge] *)

Example imerge_ex :
  imerge [Generator 0 [1; 4; 4]; Generator 1 []; Generator 2 [2; 4; 7]]
  = [1; 2; 4; 4; 4; 7].
Proof. reflexivity. Qed.


Global Instance generator_cmp_preorder {A} : CmpPreOrder (generator A).
Proof. apply (pullback_preorder gen_id). Qed.

Section imerge_facts.
Context `{CmpPreOrder A}.
Local Abbreviation entry := (A * generator A)%type.

(** Everything a list of heap entries will still yield. *)
Definition items_of (current : list entry) : list A :=
  concat (map (λ e : entry, e.1 :: gen_rest e.2) current).

(** The head of an entry and the rest of its generator are in order. *)
Definition chain_sorted (e : entry) : Prop := Sorted cle (e.1 :: gen_rest e.2).

Lemma items_of_perm (c1 c2 : list entry) :
  c1 ≡ₚ c2 → items_of c1 ≡ₚ items_of c2.
Proof. intros Hp. unfold items_of. by rewrite Hp. Qed.

Lemma items_of_app (c1 c2 : list entry) :
  items_of (c1 ++ c2) = items_of c1 ++ items_of c2.
Proof. unfold items_of. by rewrite map_app, concat_app. Qed.

Lemma next_Some (g g' : generator A) (x : A) :
  next g = Some (x, g') → gen_rest g = x :: gen_rest g' ∧ gen_id g' = gen_id g.
Proof. unfold next. destruct (gen_rest g); intros; by simplify_eq/=. Qed.

Lemma next_None (g : generator A) : next g = None → gen_rest g = [].
Proof. unfold next. by destruct (gen_rest g). Qed.

Lemma entry_cle_item (e1 e2 : entry) : cle e1 e2 → cle e1.1 e2.1.
Proof.
  unfold cle. intros He Hgt. apply He.
  unfold cmp at 1, prod_cmp. by rewrite Hgt.
Qed.

Lemma imerge_loop_perm (current : list entry) :
  imerge_loop current ≡ₚ items_of current.
Proof.
  funelim (imerge_loop current).
  - destruct current as [|[item gen] [|e current]];
      [done| |simpl in *; lia].
    unfold items_of. simpl. by rewrite app_nil_r.
  - destruct current; simpl in *; [lia|done].
  - destruct current as [|e current]; simplify_eq/=.
    apply next_Some in Hnext as [Hrest _].
    rewrite H1, (items_of_perm _ _ (heappush_perm _ _)).
    unfold items_of. simpl. rewrite Hrest. simpl.
    done.
  - destruct current as [|e current]; simplify_eq/=.
    apply next_None in Hnext. rewrite H1. unfold items_of. simpl.
    by rewrite Hnext.
Qed.

Lemma chain_sorted_items (x : A) (e : entry) :
  cle x e.1 → chain_sorted e → Forall (cle x) (e.1 :: gen_rest e.2).
Proof.
  intros Hx Hc. constructor; [done|].
  apply sorted_head_least in Hc.
  eapply Forall_impl; [done|]. intros y Hy. by etrans.
Qed.

Lemma heap_least_items (x : A) (current : list entry) :
  Forall (λ e, cle x e.1) current → Forall chain_sorted current →
  Forall (cle x) (items_of current).
Proof.
  unfold items_of. induction current as [|e current IH]; simpl; [done|].
  intros Hx Hc. apply Forall_cons in Hx as [Hx Hxs], Hc as [Hc Hcs].
  pose proof (chain_sorted_items x e Hx Hc) as Hitems.
  apply Forall_cons in Hitems as [? ?].
  constructor; [done|]. apply Forall_app. split; [done|by apply IH].
Qed.

Lemma imerge_loop_sorted (current : list entry) :
  Sorted cle current → Forall chain_sorted current →
  Sorted cle (imerge_loop current).
Proof.
  funelim (imerge_loop current); intros Hheap Hchains.
  - destruct current as [|[item gen] ?]; [constructor|].
    by apply Forall_cons in Hchains as [? _].
  - constructor.
  - destruct current as [|e current]; simplify_eq/=.
    apply Forall_cons in Hchains as [Hc Hcs].
    pose proof (sorted_head_least _ _ Hheap) as Hleast.
    apply Sorted_inv in Hheap as [Hheap _].
    apply next_Some in Hnext as [Hrest _].
    unfold chain_sorted in Hc. simpl in Hc. rewrite Hrest in Hc.
    assert (Forall chain_sorted (heappush current' (item', gen'))) as Hcs'.
    { rewrite heappush_perm. constructor; [|done].
      by apply Sorted_inv in Hc as [? _]. }
    apply sorted_cons_least.
    + rewrite imerge_loop_perm. apply heap_least_items; [|done].
      rewrite heappush_perm. constructor.
      * simpl. apply Sorted_inv in Hc as [_ Hhd]. by apply HdRel_inv in Hhd.
      * eapply Forall_impl; [done|]. intros e He. by apply entry_cle_item in He.
    + apply H1; [by apply heappush_sorted|done].
  - destruct current as [|e current]; simplify_eq/=.
    apply Forall_cons in Hchains as [Hc Hcs].
    pose proof (sorted_head_least _ _ Hheap) as Hleast.
    apply Sorted_inv in Hheap as [Hheap _].
    apply sorted_cons_least.
    + rewrite imerge_loop_perm. apply heap_least_items; [|done].
      eapply Forall_impl; [done|]. intros e He. by apply entry_cle_item in He.
    + by apply H1.
Qed.

Lemma imerge_init_items (iterators : list (generator A)) (current : list entry) :
  items_of (imerge_init iterators current)
  = items_of current ++ concat (map gen_rest iterators).
Proof.
  revert current. induction iterators as [|g iterators IH]; intros current; simpl.
  - by rewrite app_nil_r.
  - destruct (next g) as [[item g']|] eqn:Hnext.
    + apply next_Some in Hnext as [Hrest _].
      rewrite IH, items_of_app, Hrest, <-app_assoc. unfold items_of. simpl.
      by rewrite app_nil_r.
    + apply next_None in Hnext. by rewrite IH, Hnext.
Qed.

Lemma imerge_init_chains (iterators : list (generator A)) (current : list entry) :
  Forall (λ g, Sorted cle (gen_rest g)) iterators →
  Forall chain_sorted current →
  Forall chain_sorted (imerge_init iterators current).
Proof.
  revert current. induction iterators as [|g iterators IH];
    intros current Hits Hcur; simpl; [done|].
  apply Forall_cons in Hits as [Hg Hits].
  destruct (next g) as [[item g']|] eqn:Hnext; [|by apply IH].
  apply next_Some in Hnext as [Hrest _]. apply IH; [done|].
  apply Forall_app. split; [done|]. constructor; [|done].
  unfold chain_sorted. simpl. by rewrite <-Hrest.
Qed.

Lemma imerge_sorted (iterators : list (generator A)) :
  Forall (λ g, Sorted cle (gen_rest g)) iterators →
  Sorted cle (imerge iterators).
Proof.
  intros Hsorted. unfold imerge.
  apply imerge_loop_sorted; [apply heapify_sorted|].
  rewrite heapify_perm. by apply imerge_init_chains.
Qed.

Lemma imerge_perm (iterators : list (generator A)) :
  imerge iterators ≡ₚ concat (gen_rest <$> iterators).
Proof.
  unfold imerge.
  rewrite imerge_loop_perm, (items_of_perm _ _ (heapify_perm _)).
  by rewrite imerge_init_items.
Qed.

End imerge_facts.

(** C5.  [imerge] over individually sorted iterators yields a sorted
    sequence that is a permutation of all their items together; over no
    iterator it yields nothing, and over a single iterator it yields that
    iterator's items in their order. *)
Theorem imerge_sorted_permutation `{CmpPreOrder A} :
  (∀ iterators : list (generator A),
     Forall (λ g, Sorted cle (gen_rest g)) iterators →
     Sorted cle (imerge iterators)
     ∧ imerge iterators ≡ₚ concat (map gen_rest iterators))
  ∧ imerge (A:=A) [] = []
  ∧ (∀ g : generator A, imerge [g] = gen_rest g).
Proof.
  split; [|split].
  - intros iterators Hsorted. split.
    + by apply imerge_sorted.
    + apply imerge_perm.
  - reflexivity.
  - intros [i [|x rest]]; reflexivity.
Qed.

Lemma imerge_sorted_permutation_witness :
  let iterators :=
    [Generator 0 [1; 4; 4]; Generator 1 []; Generator 2 [2; 4; 7]] in
  Forall (λ g, Sorted cle (gen_rest g)) iterators
  ∧ Sorted cle (imerge iterators)
  ∧ imerge iterators ≡ₚ concat (map gen_rest iterators).
Proof.
  simpl.
  assert (Forall (λ g : generator Z, Sorted cle (gen_rest g))
            [Generator 0 [1; 4; 4]; Generator 1 []; Generator 2 [2; 4; 7]])
    as Hs by (repeat constructor; done).
  split; [exact Hs|].
  exact (proj1 (imerge_sorted_permutation (A:=Z)) _ Hs).
Defined.

(** X30.  [imerge] neither loses nor repeats an item, whether or not the
    iterators are sorted: what it yields is a rearrangement of the items
    of all the iterators together. *)
Theorem imerge_keeps_every_item `{CmpPreOrder A} (iterators : list (generator A)) :
  imerge iterators ≡ₚ concat (gen_rest <$> iterators).
Proof. apply imerge_perm. Qed.

(** * Facts about [write_postings] *)

Section write_postings_facts.
Import Pools.
Context {W : Type} `{Cmp W} (w0 : W) (wadd : W → W → W).
Context {Format Offset Inline PW : Type}.
Context `{!PostingWriter (W:=W) (Format:=Format) (Offset:=Offset) (Inline:=Inline) PW}.
Context (schema : gmap string Format) (getlength : Z → string → Z).

Local Abbreviation world := (world (W:=W) (Format:=Format) (Offset:=Offset) (Inline:=Inline) (PW:=PW)).
Local Abbreviation locals := (locals (W:=W) (Format:=Format) (Offset:=Offset) (Inline:=Inline)).
Local Abbreviation body := (write_postings_body w0 wadd schema getlength).
Local Abbreviation loop := (write_postings_loop w0 wadd schema getlength).

(** Once a posting has been taken, [first] is off and [offset] holds what
    [start] returned for the current term. *)
Definition in_term (l : locals) : Prop :=
  first l = false ∧ ∃ o, offset l = BlockOffset o.

Lemma write_posting_in_term p (l l' : locals) (w w' : world) :
  write_posting wadd getlength p l w = (l', w') →
  first l' = first l ∧ offset l' = offset l
  ∧ current_fieldname l' = current_fieldname l
  ∧ current_text l' = current_text l.
Proof.
  destruct p as [[[[f t] d] x] v]. unfold write_posting.
  intros; by simplify_eq/=.
Qed.

Lemma body_in_term inlinelimit p (l l' : locals) (w w' : world) :
  body inlinelimit p l w = inl (l', w') →
  (first l = true ∨ in_term l) → in_term l'.
Proof.
  destruct p as [[[[f t] d] x] v]. unfold write_postings_body.
  intros Hbody Hl.
  destruct (first l || py_gt (Some f) (current_fieldname l)
            || py_gt (Some t) (current_text l)) eqn:Hnew.
  - destruct (if first l then _ else _) as [l1 w1] eqn:Hclose.
    assert (first l1 = false) as Hf1.
    { destruct (first l) eqn:Hf; [by simplify_eq/=|].
      destruct Hl as [?|[? _]]; [done|].
      unfold finish_term in Hclose.
      destruct (bool_decide _ && bool_decide _); by simplify_eq/=. }
    destruct (start_term w0 schema f t l1 w1) as [[l2 w2]|e] eqn:Hstart; [|done].
    unfold start_term in Hstart.
    destruct (if py_ne _ _ then _ else _) as [[fmt cf]|]; simpl in Hstart; [|done].
    destruct (pw_start fmt (postwriter w1)) as [o pw'].
    unfold write_posting in Hbody. simplify_eq/=. split; simpl; eauto.
  - destruct (py_lt _ _ || _); [done|].
    destruct Hl as [Hl|[Hf [o Ho]]]; [by rewrite Hl in Hnew|].
    unfold write_posting in Hbody. simplify_eq/=. split; simpl; eauto.
Qed.

Lemma loop_in_term inlinelimit postiter (l l' : locals) (w w' : world) :
  loop inlinelimit postiter l w = inl (l', w') →
  (first l = true ∨ in_term l) →
  (postiter = [] ∧ l' = l ∧ w' = w) ∨ in_term l'.
Proof.
  revert l w. induction postiter as [|p postiter IH]; intros l w Hloop Hl.
  - left. by simplify_eq/=.
  - right. simpl in Hloop.
    destruct (body inlinelimit p l w) as [[l1 w1]|?] eqn:Hbody; [|done].
    pose proof (body_in_term _ _ _ _ _ _ Hbody Hl) as Hl1.
    destruct (IH _ _ Hloop (or_intror Hl1)) as [(_ & -> & _)|?]; done.
Qed.

(** ** The steps of the loop *)

Lemma py_ne_false (f : string) (cf : option string) :
  py_ne (Some f) cf = false → cf = Some f.
Proof.
  unfold py_ne, py_eq. destruct cf as [g|]; unfold cmp, option_cmp; [|done].
  destruct (cmp f g) eqn:Hc; try done. apply cmp_eq in Hc. by subst.
Qed.

Lemma finish_term_spec inlinelimit (l : locals) (w : world) :
  ∃ off pw calls,
    finish_term inlinelimit l w
    = (Locals (current_fieldname l) (current_text l) (first l)
              (current_weight l) off (format l),
       World (termtable w
                ++ [((current_fieldname l, current_text l),
                     (current_weight l, off, posttotal (postwriter w)))])
             pw (pw_calls w ++ calls)).
Proof.
  unfold finish_term.
  destruct (bool_decide _ && bool_decide _); simpl.
  - eexists _, _, [_; _]. unfold termtable_add, call. simpl.
    by rewrite <-app_assoc.
  - eexists _, _, [_]. done.
Qed.

(** The rule for a term that is not the last: inline when the postings
    are within the limit and no block was written. *)
Lemma finish_term_inline inlinelimit (l : locals) (w : world) :
  posttotal (postwriter w) ≤ inlinelimit → blockcount (postwriter w) < 1 →
  termtable (finish_term inlinelimit l w).2
  = termtable w
      ++ [((current_fieldname l, current_text l),
           (current_weight l, InlineData (pw_as_inline (postwriter w)),
            posttotal (postwriter w)))].
Proof.
  intros Htotal Hblocks. unfold finish_term.
  by rewrite !bool_decide_true.
Qed.

Lemma start_term_spec (f t : string) (l : locals) (w : world) :
  is_Some (schema !! f) →
  ∃ fmt o pw,
    start_term w0 schema f t l w
    = Ok (Locals (Some f) (Some t) (first l) w0 (BlockOffset o) fmt,
          World (termtable w) pw (pw_calls w ++ [CallStart fmt])).
Proof.
  intros [fmt Hfmt]. unfold start_term.
  destruct (py_ne (Some f) (current_fieldname l)) eqn:Hne.
  - rewrite Hfmt. simpl. destruct (pw_start _ _) as [o pw]. by eexists _, _, _.
  - apply py_ne_false in Hne. rewrite Hne. simpl.
    destruct (pw_start _ _) as [o pw]. by eexists _, _, _.
Qed.

(** The first posting opens the first term. *)
Lemma body_first inlinelimit f t d x v (l : locals) (w : world) :
  first l = true → is_Some (schema !! f) →
  ∃ off fmt pw calls,
    body inlinelimit (f, t, d, x, v) l w
    = inl (Locals (Some f) (Some t) false (wadd w0 x) off fmt,
           World (termtable w) pw (pw_calls w ++ calls)).
Proof.
  intros Hfirst Hf. unfold write_postings_body. rewrite Hfirst. simpl.
  destruct (start_term_spec f t
              (Locals (current_fieldname l) (current_text l) false
                      (current_weight l) (offset l) (format l)) w Hf)
    as (fmt & o & pw & ->).
  unfold write_posting, call. simpl.
  eexists _, _, _, [_; _]. by rewrite <-app_assoc.
Qed.

(** A posting that passes the first test closes the current term, whose
    entry goes to the term table, and opens its own. *)
Lemma body_new_term inlinelimit f t d x v (l : locals) (w : world) :
  first l = false →
  py_gt (Some f) (current_fieldname l) || py_gt (Some t) (current_text l) = true →
  is_Some (schema !! f) →
  ∃ off n off' fmt pw calls,
    body inlinelimit (f, t, d, x, v) l w
    = inl (Locals (Some f) (Some t) false (wadd w0 x) off' fmt,
           World (termtable w
                    ++ [((current_fieldname l, current_text l),
                         (current_weight l, off, n))])
                 pw (pw_calls w ++ calls)).
Proof.
  intros Hfirst Hgt Hf. unfold write_postings_body. rewrite Hfirst. simpl.
  rewrite Hgt.
  destruct (finish_term_spec inlinelimit l w) as (off & pw1 & calls1 & ->).
  rewrite Hfirst.
  match goal with |- context [start_term _ _ _ _ ?l1 ?w1] =>
    destruct (start_term_spec f t l1 w1 Hf) as (fmt & o & pw & ->) end.
  unfold write_posting, call. simpl.
  eexists _, _, _, _, _, (calls1 ++ [_; _]). by rewrite <-!app_assoc.
Qed.

(** A posting of the current term is accumulated. *)
Lemma body_same_term inlinelimit f t d x v (l : locals) (w : world) :
  first l = false →
  current_fieldname l = Some f → current_text l = Some t →
  ∃ pw calls,
    body inlinelimit (f, t, d, x, v) l w
    = inl (Locals (Some f) (Some t) false (wadd (current_weight l) x)
                  (offset l) (format l),
           World (termtable w) pw (pw_calls w ++ calls)).
Proof.
  intros Hfirst Hcf Hct. unfold write_postings_body.
  rewrite Hfirst, Hcf, Hct. simpl.
  unfold py_gt, py_lt, py_eq, cmp, option_cmp. rewrite !cmp_refl. simpl.
  unfold write_posting, call. simpl. rewrite Hfirst, Hcf, Hct.
  by eexists _, [_].
Qed.

(** The exception is raised exactly when the posting passes for neither a
    new term nor the current one. *)
Lemma body_raises inlinelimit f t d x v (l : locals) (w : world) e w' :
  is_Some (schema !! f) →
  body inlinelimit (f, t, d, x, v) l w = inr (e, w') ↔
  first l = false
  ∧ py_gt (Some f) (current_fieldname l) = false
  ∧ py_gt (Some t) (current_text l) = false
  ∧ (py_lt (Some f) (current_fieldname l)
     || py_eq (Some f) (current_fieldname l) && py_lt (Some t) (current_text l))
    = true
  ∧ e = OutOfOrder (current_fieldname l) (current_text l) f t ∧ w' = w.
Proof.
  intros Hf. destruct (first l) eqn:Hfirst.
  { destruct (body_first inlinelimit f t d x v l w Hfirst Hf)
      as (? & ? & ? & ? & ->). split; [done|]. by intros [? _]. }
  destruct (py_gt (Some f) (current_fieldname l)
            || py_gt (Some t) (current_text l)) eqn:Hgt.
  { destruct (body_new_term inlinelimit f t d x v l w Hfirst Hgt Hf)
      as (? & ? & ? & ? & ? & ? & ->).
    split; [done|]. intros (_ & Hg1 & Hg2 & _). by rewrite Hg1, Hg2 in Hgt. }
  apply orb_false_iff in Hgt as [Hgf Hgt].
  unfold write_postings_body. rewrite Hfirst, Hgf, Hgt. simpl.
  destruct (py_lt (Some f) (current_fieldname l) || _); split.
  - intros [= <- <-]. done.
  - by intros (_ & _ & _ & _ & -> & ->).
  - done.
  - by intros (_ & _ & _ & ? & _).
Qed.

(** C10.  On an iterator that yields no posting [write_postings] returns
    with the term table and the posting writer as they were: no
    [termtable.add], and no [start], [write] or [finish] on the writer. *)
Theorem write_postings_empty (inlinelimit : Z) (w : world) :
  write_postings w0 wadd schema getlength [] inlinelimit w = (w, None).
Proof. reflexivity. Qed.

(** C4 (what the code does).  When [write_postings] returns from a
    non-empty stream, the last term went through [postwriter.finish()] and
    its entry carries the offset [start] returned: it is never stored
    inline, whatever [posttotal] and [blockcount] are. *)
Theorem write_postings_last_term_not_inline (postiter : list Posting)
    (inlinelimit : Z) (w w' : world) :
  postiter ≠ [] →
  write_postings w0 wadd schema getlength postiter inlinelimit w = (w', None) →
  ∃ tt calls key weight o postcount,
    termtable w' = tt ++ [(key, (weight, BlockOffset o, postcount))]
    ∧ pw_calls w' = calls ++ [CallFinish].
Proof.
  intros Hne. unfold write_postings.
  destruct (loop inlinelimit postiter _ w) as [[l1 w1]|[e w1]] eqn:Hloop; [|done].
  apply loop_in_term in Hloop as [(? & _)|[Hf [o Ho]]]; [done| |by left].
  rewrite Hf. simpl. destruct (pw_finish (postwriter w1)) as [postcount pw].
  intros [= <-]. simpl. rewrite Ho. eauto 10.
Qed.

(** C3 (what the code does).  A posting whose field name is smaller than
    the current one but whose text is greater passes the first test of
    the loop: it opens a new term and no exception is raised, although its
    key [(fieldname, text)] is smaller than the current key. *)
Theorem write_postings_lower_fieldname_accepted
    (f1 t1 f2 t2 : string) (d1 d2 : Z) (x1 x2 : W) (v1 v2 : option string)
    (inlinelimit : Z) (w : world) :
  cmp (f2, t2) (f1, t1) = Lt →
  cmp t2 t1 = Gt →
  is_Some (schema !! f1) → is_Some (schema !! f2) →
  ∃ w' i1 i2,
    write_postings w0 wadd schema getlength
      [(f1, t1, d1, x1, v1); (f2, t2, d2, x2, v2)] inlinelimit w = (w', None)
    ∧ termtable w'
      = termtable w ++ [((Some f1, Some t1), i1); ((Some f2, Some t2), i2)].
Proof.
  intros _ Ht Hf1 Hf2. unfold write_postings. cbn [write_postings_loop].
  edestruct (body_first inlinelimit f1 t1 d1 x1 v1) as (? & ? & ? & ? & ->);
    [done..|].
  edestruct (body_new_term inlinelimit f2 t2 d2 x2 v2) as (? & ? & ? & ? & ? & ? & ->);
    [done| |done|].
  { simpl. unfold py_gt at 2. unfold cmp, option_cmp. rewrite Ht.
    apply orb_true_r. }
  simpl. destruct (pw_finish _) as [n pw]. simpl.
  eexists _, _, _. split; [done|]. simpl. by rewrite <-app_assoc.
Qed.

(** ** Weights per term *)

Definition posting_key (p : Posting (W:=W)) : string * string :=
  (p.1.1.1.1, p.1.1.1.2).
Definition posting_weight (p : Posting (W:=W)) : W := p.1.2.

(** The weights of the postings of a term, in stream order. *)
Definition term_weights (key : string * string) (postiter : list Posting) : list W :=
  posting_weight <$> filter (λ p, posting_key p = key) postiter.

(** The key and the total weight of each entry of a term table. *)
Definition key_weights (tt : list (term_key * term_info (W:=W) (Offset:=Offset) (Inline:=Inline)))
  : list (term_key * W) :=
  (λ e, (e.1, e.2.1.1)) <$> tt.

Definition table_key (key : string * string) : term_key := (Some key.1, Some key.2).

Definition entries_of (key : string * string) (kws : list (term_key * W))
  : list (term_key * W) :=
  filter (λ kw, kw.1 = table_key key) kws.

(** What the entries of [key] must be once the stream [postiter] has been
    consumed, the term [cur] being open with weight [cw] before it. *)
Definition expected (key cur : string * string) (cw : W) (postiter : list Posting)
  : list (term_key * W) :=
  let ws := term_weights key postiter in
  if decide (key = cur) then [(table_key key, fold_left wadd ws cw)]
  else match ws with
       | [] => []
       | _ => [(table_key key, fold_left wadd ws w0)]
       end.

Lemma term_weights_cons_eq key p postiter :
  posting_key p = key →
  term_weights key (p :: postiter) = posting_weight p :: term_weights key postiter.
Proof. intros Hk. unfold term_weights. by rewrite filter_cons_True. Qed.

Lemma term_weights_cons_ne key p postiter :
  posting_key p ≠ key →
  term_weights key (p :: postiter) = term_weights key postiter.
Proof. intros Hk. unfold term_weights. by rewrite filter_cons_False. Qed.

Lemma term_weights_below key postiter :
  Forall (λ p, cmp key (posting_key p) = Lt) postiter →
  term_weights key postiter = [].
Proof.
  induction 1 as [|p postiter Hp _ IH]; [done|].
  rewrite term_weights_cons_ne; [done|].
  intros Hk. by rewrite Hk, cmp_refl in Hp.
Qed.

Lemma entries_of_cons_eq key x kws :
  entries_of key ((table_key key, x) :: kws) = (table_key key, x) :: entries_of key kws.
Proof. unfold entries_of. by rewrite filter_cons_True. Qed.

Lemma entries_of_cons_ne key key' x kws :
  key' ≠ key →
  entries_of key ((table_key key', x) :: kws) = entries_of key kws.
Proof.
  intros Hne. unfold entries_of. rewrite filter_cons_False; [done|].
  simpl. destruct key, key'. unfold table_key. simpl. naive_solver.
Qed.

Lemma key_Lt_py_gt (f t f' t' : string) :
  cmp (f, t) (f', t') = Lt →
  py_gt (Some f') (Some f) || py_gt (Some t') (Some t) = true.
Proof.
  unfold cmp at 1, prod_cmp. simpl. unfold py_gt.
  change (cmp (Some f') (Some f)) with (cmp f' f).
  change (cmp (Some t') (Some t)) with (cmp t' t).
  rewrite (cmp_opp f f'), (cmp_opp t t').
  destruct (cmp f f'); simpl; [|done..]. by intros ->.
Qed.

Lemma sorted_keys_above (key : string * string) (postiter : list Posting) :
  Sorted cle (key :: (posting_key <$> postiter)) →
  Forall (λ p, cle key (posting_key p)) postiter.
Proof.
  intros Hs. apply sorted_head_least in Hs.
  rewrite Forall_fmap in Hs. eapply Forall_impl; [exact Hs|].
  intros p Hp. exact Hp.
Qed.

Lemma loop_weights inlinelimit (postiter : list Posting) (l : locals) (w : world)
    (cur : string * string) :
  first l = false →
  current_fieldname l = Some cur.1 → current_text l = Some cur.2 →
  Sorted cle (cur :: (posting_key <$> postiter)) →
  Forall (λ p, is_Some (schema !! p.1.1.1.1)) postiter →
  ∃ l' w' added last,
    loop inlinelimit postiter l w = inl (l', w')
    ∧ first l' = false
    ∧ termtable w' = termtable w ++ added
    ∧ (current_fieldname l', current_text l') = table_key last
    ∧ ∀ key, entries_of key (key_weights added ++ [(table_key last, current_weight l')])
             = expected key cur (current_weight l) postiter.
Proof.
  revert l w cur.
  induction postiter as [|p postiter IH]; intros l w cur Hfirst Hcf Hct Hs Hschema.
  { exists l, w, [], cur. split_and!; [done|done|by rewrite app_nil_r| |].
    - by rewrite Hcf, Hct.
    - intros key. unfold expected. simpl. case_decide as Hk.
      + subst. by rewrite entries_of_cons_eq.
      + by rewrite entries_of_cons_ne. }
  destruct p as [[[[f t] d] x] v].
  apply Forall_cons in Hschema as [Hf Hschema]. simpl in Hf.
  rewrite fmap_cons in Hs. apply Sorted_inv in Hs as [Hs Hhd].
  apply HdRel_inv in Hhd. change (posting_key _) with (f, t) in Hhd, Hs.
  destruct cur as [cf ct]. simpl in Hcf, Hct.
  cbn [write_postings_loop].
  destruct (cmp (cf, ct) (f, t)) eqn:Hcmp; [| |done].
  - (* the same term *)
    apply cmp_eq in Hcmp as [= <- <-].
    destruct (body_same_term inlinelimit cf ct d x v l w Hfirst Hcf Hct)
      as (pw & calls & ->).
    edestruct (IH (Locals (Some cf) (Some ct) false (wadd (current_weight l) x)
                          (offset l) (format l))
                  (World (termtable w) pw (pw_calls w ++ calls)) (cf, ct))
      as (l' & w' & added & last & -> & Hfirst' & Htt & Hlast & Hkw);
      [done..|].
    exists l', w', added, last. split_and!; [done..|].
    intros key. rewrite Hkw. unfold expected. simpl. case_decide as Hk.
    + subst. by rewrite term_weights_cons_eq.
    + by rewrite term_weights_cons_ne.
  - (* a greater term *)
    edestruct (body_new_term inlinelimit f t d x v l w)
      as (off & n & off' & fmt & pw & calls & ->); [done| |done|].
    { rewrite Hcf, Hct. by apply key_Lt_py_gt. }
    edestruct (IH (Locals (Some f) (Some t) false (wadd w0 x) off' fmt)
                  (World (termtable w ++ [((current_fieldname l, current_text l),
                                              (current_weight l, off, n))])
                           pw (pw_calls w ++ calls)) (f, t))
      as (l' & w' & added & last & -> & Hfirst' & Htt & Hlast & Hkw);
      [done..|].
    eexists l', w', (_ :: added), last. split_and!; [done|done| |done|].
    { rewrite Htt. simpl. by rewrite <-app_assoc. }
    intros key. rewrite Hcf, Hct. simpl. simpl in Hkw.
    change (Some cf, Some ct) with (table_key (cf, ct)).
    assert (term_weights (cf, ct) postiter = []) as Hbelow.
    { apply term_weights_below. apply sorted_keys_above in Hs.
      eapply Forall_impl; [exact Hs|]. intros q Hq. simpl in Hq.
      by eapply Lt_cle_trans. }
    assert ((cf, ct) ≠ (f, t)) as Hne.
    { intros [= <- <-]. by rewrite cmp_refl in Hcmp. }
    assert (posting_key (f, t, d, x, v) ≠ (cf, ct)) as Hne' by (by intros [= <- <-]).
    destruct (decide (key = (cf, ct))) as [->|Hk].
    + rewrite entries_of_cons_eq, Hkw. unfold expected.
      rewrite (decide_True (P:=(cf, ct) = (cf, ct))) by done.
      rewrite (decide_False (P:=(cf, ct) = (f, t))) by done.
      rewrite term_weights_cons_ne by done.
      by rewrite Hbelow.
    + rewrite entries_of_cons_ne by done. rewrite Hkw. unfold expected.
      rewrite (decide_False (P:=key = (cf, ct))) by done.
      case_decide as Hk'.
      * subst. by rewrite term_weights_cons_eq.
      * by rewrite term_weights_cons_ne.
Qed.

(** C9.  On a stream sorted by key, [write_postings] returns, and for
    every term with postings in the stream the entries it adds to the term
    table contain exactly one with that key, whose total weight is
    [0 + w1 + ... + wk] for the weights [w1..wk] of the term's postings. *)
Theorem write_postings_total_weight (postiter : list Posting)
    (inlinelimit : Z) (w : world) :
  Sorted cle (posting_key <$> postiter) →
  Forall (λ p, is_Some (schema !! p.1.1.1.1)) postiter →
  ∃ w' added,
    write_postings w0 wadd schema getlength postiter inlinelimit w = (w', None)
    ∧ termtable w' = termtable w ++ added
    ∧ ∀ key, term_weights key postiter ≠ [] →
        entries_of key (key_weights added)
        = [(table_key key, fold_left wadd (term_weights key postiter) w0)].
Proof.
  intros Hs Hschema. unfold write_postings.
  destruct postiter as [|p postiter].
  { exists w, []. split_and!; [done|by rewrite app_nil_r|done]. }
  destruct p as [[[[f t] d] x] v].
  apply Forall_cons in Hschema as [Hf Hschema]. simpl in Hf.
  cbn [write_postings_loop].
  edestruct (body_first inlinelimit f t d x v) as (off & fmt & pw & calls & ->);
    [done..|].
  edestruct (loop_weights inlinelimit postiter
               (Locals (Some f) (Some t) false (wadd w0 x) off fmt)
               (World (termtable w) pw (pw_calls w ++ calls)) (f, t))
    as (l' & w' & added & last & -> & Hfirst' & Htt & Hlast & Hkw); [done..|].
  rewrite Hfirst'. simpl. destruct (pw_finish (postwriter w')) as [n pw'].
  eexists _, (added ++ [_]). split_and!; [done| |].
  { simpl. rewrite Htt. by rewrite <-app_assoc. }
  intros key Hne. unfold key_weights. rewrite fmap_app. simpl.
  rewrite Hlast. fold (key_weights added). rewrite Hkw.
  unfold expected. simpl. case_decide as Hk.
  - subst. by rewrite term_weights_cons_eq.
  - rewrite term_weights_cons_ne in Hne |- * by done.
    by destruct (term_weights key postiter).
Qed.

End write_postings_facts.

(** * [write_postings]: the streams it accepts and the calls it makes *)

Section write_postings_protocol.
Import Pools.
Context {W : Type} `{Cmp W} (w0 : W) (wadd : W → W → W).
Context {Format Offset Inline PW : Type}.
Context `{!PostingWriter (W:=W) (Format:=Format) (Offset:=Offset) (Inline:=Inline) PW}.
Context (schema : gmap string Format) (getlength : Z → string → Z).

Local Abbreviation Posting := (Posting (W:=W)).
Local Abbreviation world := (world (W:=W) (Format:=Format) (Offset:=Offset) (Inline:=Inline) (PW:=PW)).
Local Abbreviation locals := (locals (W:=W) (Format:=Format) (Offset:=Offset) (Inline:=Inline)).
Local Abbreviation pw_call := (pw_call (W:=W) (Format:=Format)).
Local Abbreviation body := (write_postings_body w0 wadd schema getlength).
Local Abbreviation loop := (write_postings_loop w0 wadd schema getlength).

(** The [write] call a posting gives rise to. *)
Definition write_call (p : Posting) : pw_call :=
  CallWrite p.1.1.2 p.1.2 p.2 (getlength p.1.1.2 p.1.1.1.1).

(** The calls that close a term: [finish()], or [as_inline()] and
    [cancel()]. *)
Definition closing (calls : list pw_call) : Prop :=
  calls = [CallFinish] ∨ calls = [CallAsInline; CallCancel].

(** What one round of the loop that raises nothing does to the writer and
    to the term table. *)
Lemma body_step inlinelimit (p : Posting) (l l' : locals) (w w' : world) :
  body inlinelimit p l w = inl (l', w') →
  first l' = false
  ∧ ((first l = true
      ∧ termtable w' = termtable w
      ∧ ∃ fmt, pw_calls w' = pw_calls w ++ [CallStart fmt; write_call p])
     ∨ (first l = false
        ∧ (∃ e, termtable w' = termtable w ++ [e])
        ∧ ∃ cl fmt, closing cl
            ∧ pw_calls w' = pw_calls w ++ cl ++ [CallStart fmt; write_call p])
     ∨ (first l = false
        ∧ termtable w' = termtable w
        ∧ pw_calls w' = pw_calls w ++ [write_call p])).
Proof.
  destruct p as [[[[f t] d] x] v]. unfold write_postings_body, write_call.
  destruct (first l) eqn:Hfirst; simpl.
  - unfold start_term. simpl.
    destruct (if py_ne _ _ then _ else _) as [[fmt cf]|]; simpl; [|done].
    destruct (pw_start fmt (postwriter w)) as [o pw]. simpl.
    intros [= <- <-]. simpl. split; [done|]. left.
    split_and!; [done..|]. exists fmt. by rewrite <-app_assoc.
  - destruct (py_gt (Some f) (current_fieldname l)
              || py_gt (Some t) (current_text l)); simpl.
    + unfold finish_term, start_term.
      destruct (bool_decide _ && bool_decide _); simpl.
      * destruct (if py_ne _ _ then _ else _) as [[fmt cf]|]; simpl; [|done].
        destruct (pw_start fmt _) as [o pw]. simpl.
        intros [= <- <-]. simpl. split; [done|]. right. left.
        split_and!; [done|by eexists|].
        exists [CallAsInline; CallCancel], fmt. split; [by right|].
        by rewrite <-!app_assoc.
      * destruct (if py_ne _ _ then _ else _) as [[fmt cf]|]; simpl; [|done].
        destruct (pw_start fmt _) as [o pw]. simpl.
        intros [= <- <-]. simpl. split; [done|]. right. left.
        split_and!; [done|by eexists|].
        exists [CallFinish], fmt. split; [by left|].
        by rewrite <-!app_assoc.
    + destruct (py_lt _ _ || _); [done|].
      intros [= <- <-]. simpl. split; [done|]. right. right. done.
Qed.

(** A round that raises has made no [write] call; a term that was open
    may have been closed before the exception. *)
Lemma body_raise inlinelimit (p : Posting) (l : locals) (w w' : world) e :
  body inlinelimit p l w = inr (e, w') →
  ∃ calls, pw_calls w' = pw_calls w ++ calls
           ∧ Forall (λ c, ∀ d x v n, c ≠ CallWrite d x v n) calls.
Proof.
  destruct p as [[[[f t] d] x] v]. unfold write_postings_body.
  destruct (first l || _ || _) eqn:Hnew.
  - destruct (first l) eqn:Hfirst.
    + destruct (start_term _ _ _ _ _ _) as [[l1 w1]|e1]; [done|].
      intros [= <- <-]. exists []. by rewrite app_nil_r.
    + unfold finish_term.
      destruct (bool_decide _ && bool_decide _); simpl;
        (destruct (start_term _ _ _ _ _ _) as [[l1 w1]|e1]; [done|]);
        intros [= <- <-]; simpl.
      * exists [CallAsInline; CallCancel]. rewrite <-app_assoc.
        split; [done|]. by repeat constructor.
      * exists [CallFinish]. split; [done|]. by repeat constructor.
  - destruct (py_lt _ _ || _); [|done].
    intros [= <- <-]. exists []. by rewrite app_nil_r.
Qed.

(** ** The streams [write_postings] accepts *)

(** The test the loop makes on the key of a posting against the key of
    the posting before it: a greater field name, a greater text, or the
    same key. *)
Definition admitted (k k' : string * string) : Prop :=
  cmp k'.1 k.1 = Gt ∨ cmp k'.2 k.2 = Gt ∨ k' = k.

Lemma py_gt_Some (a b : string) : py_gt (Some a) (Some b) = true ↔ cmp a b = Gt.
Proof.
  unfold py_gt. change (cmp (Some a) (Some b)) with (cmp a b).
  by destruct (cmp a b).
Qed.

Lemma py_lt_Some (a b : string) : py_lt (Some a) (Some b) = true ↔ cmp a b = Lt.
Proof.
  unfold py_lt. change (cmp (Some a) (Some b)) with (cmp a b).
  by destruct (cmp a b).
Qed.

Lemma py_eq_Some (a b : string) : py_eq (Some a) (Some b) = true ↔ a = b.
Proof.
  unfold py_eq. change (cmp (Some a) (Some b)) with (cmp a b). split.
  - destruct (cmp a b) eqn:Hc; [|done..]. intros _. by apply cmp_eq.
  - intros ->. by rewrite cmp_refl.
Qed.

(** One round, a term being open: it raises nothing exactly when the key
    is admitted and the field is in the schema. *)
Lemma body_accepts inlinelimit f t d x v (l : locals) (w : world) cf ct :
  first l = false →
  current_fieldname l = Some cf → current_text l = Some ct →
  is_Some (schema !! cf) →
  match body inlinelimit (f, t, d, x, v) l w with
  | inl (l', w') =>
      admitted (cf, ct) (f, t) ∧ is_Some (schema !! f)
      ∧ first l' = false
      ∧ current_fieldname l' = Some f ∧ current_text l' = Some t
  | inr _ => ¬ (admitted (cf, ct) (f, t) ∧ is_Some (schema !! f))
  end.
Proof.
  intros Hfirst Hcf Hct Hschema.
  destruct (py_gt (Some f) (current_fieldname l)
            || py_gt (Some t) (current_text l)) eqn:Hgt.
  - assert (admitted (cf, ct) (f, t)) as Hadm.
    { rewrite Hcf, Hct in Hgt. apply orb_true_iff in Hgt as [Hg|Hg].
      - left. by apply py_gt_Some.
      - right. left. by apply py_gt_Some. }
    destruct (schema !! f) as [fmt|] eqn:Hf.
    + edestruct (body_new_term w0 wadd schema getlength inlinelimit f t d x v l w)
        as (? & ? & ? & ? & ? & ? & ->); [done|done|by rewrite Hf|].
      simpl. split_and!; [done|by eexists|done..].
    + unfold write_postings_body. rewrite Hfirst. simpl. rewrite Hgt.
      assert (py_ne (Some f) (Some cf) = true) as Hne.
      { unfold py_ne. destruct (py_eq (Some f) (Some cf)) eqn:Heq; [|done].
        apply py_eq_Some in Heq as ->. destruct Hschema as [? Hs].
        by rewrite Hs in Hf. }
      unfold finish_term, start_term.
      destruct (bool_decide _ && bool_decide _); simpl;
        rewrite Hcf, Hne, Hf; simpl; by intros [_ [? ?]].
  - apply orb_false_iff in Hgt as [Hgf Hgt].
    unfold write_postings_body. rewrite Hfirst, Hgf, Hgt. simpl.
    rewrite Hcf, Hct in *.
    assert (cmp f cf ≠ Gt) as Hnf.
    { intros Hc. apply py_gt_Some in Hc. by rewrite Hc in Hgf. }
    assert (cmp t ct ≠ Gt) as Hnt.
    { intros Hc. apply py_gt_Some in Hc. by rewrite Hc in Hgt. }
    destruct (py_lt (Some f) (Some cf)
              || py_eq (Some f) (Some cf) && py_lt (Some t) (Some ct)) eqn:Hlt.
    + intros [[Hc|[Hc|[= -> ->]]] _]; simpl in *; [done..|].
      apply orb_true_iff in Hlt as [Hl|Hl].
      * apply py_lt_Some in Hl. by rewrite cmp_refl in Hl.
      * apply andb_true_iff in Hl as [_ Hl].
        apply py_lt_Some in Hl. by rewrite cmp_refl in Hl.
    + apply orb_false_iff in Hlt as [Hlf Hlt].
      assert (f = cf) as ->.
      { apply cmp_eq. destruct (cmp f cf) eqn:Hc; [done| |done].
        apply py_lt_Some in Hc. by rewrite Hc in Hlf. }
      assert (t = ct) as ->.
      { apply cmp_eq. destruct (cmp t ct) eqn:Hc; [done| |done].
        apply py_lt_Some in Hc.
        rewrite Hc, (proj2 (py_eq_Some cf cf) eq_refl) in Hlt. done. }
      unfold write_posting. simpl. split_and!; [by right; right|done..].
Qed.

Lemma loop_accepts inlinelimit (postiter : list Posting) (l : locals) (w : world)
    cf ct :
  first l = false →
  current_fieldname l = Some cf → current_text l = Some ct →
  is_Some (schema !! cf) →
  (∃ l' w', loop inlinelimit postiter l w = inl (l', w'))
  ↔ Forall (λ p, is_Some (schema !! p.1.1.1.1)) postiter
    ∧ Sorted admitted ((cf, ct) :: (posting_key <$> postiter)).
Proof.
  revert l w cf ct.
  induction postiter as [|p postiter IH]; intros l w cf ct Hfirst Hcf Hct Hschema.
  { split; [|by eauto]. intros _. split; [done|]. by repeat constructor. }
  destruct p as [[[[f t] d] x] v]. cbn [write_postings_loop].
  pose proof (body_accepts inlinelimit f t d x v l w cf ct Hfirst Hcf Hct Hschema)
    as Hbody.
  destruct (body inlinelimit (f, t, d, x, v) l w) as [[l1 w1]|[e w1]].
  - destruct Hbody as (Hadm & Hf & Hfirst1 & Hcf1 & Hct1).
    rewrite (IH l1 w1 f t Hfirst1 Hcf1 Hct1 Hf). split.
    + intros [Hall Hs]. split; [by constructor|].
      rewrite fmap_cons. constructor; [done|]. by constructor.
    + intros [Hall Hs]. apply Forall_cons in Hall as [_ Hall].
      rewrite fmap_cons in Hs. by apply Sorted_inv in Hs as [Hs _].
  - split; [by intros (? & ? & ?)|]. intros [Hall Hs]. exfalso. apply Hbody.
    apply Forall_cons in Hall as [Hf _].
    rewrite fmap_cons in Hs. apply Sorted_inv in Hs as [_ Hhd].
    by apply HdRel_inv in Hhd.
Qed.

(** X1.  [write_postings] returns without an exception exactly when every
    posting names a field of the schema and the key of every posting
    after the first passes the test of the loop against the key before it:
    its field name is greater, or its text is greater, or the key is the
    same.  Every other stream ends in an exception. *)
Theorem write_postings_accepts (postiter : list Posting) (inlinelimit : Z)
    (w : world) :
  (write_postings w0 wadd schema getlength postiter inlinelimit w).2 = None
  ↔ Forall (λ p, is_Some (schema !! p.1.1.1.1)) postiter
    ∧ Sorted admitted (posting_key <$> postiter).
Proof.
  unfold write_postings. destruct postiter as [|p postiter].
  { simpl. split; [|done]. intros _. split; constructor. }
  destruct p as [[[[f t] d] x] v]. cbn [write_postings_loop].
  destruct (schema !! f) as [fmt|] eqn:Hf.
  - edestruct (body_first w0 wadd schema getlength inlinelimit f t d x v
                 (Locals None None true w0 NoOffset None) w)
      as (off & fmt' & pw & calls & ->); [done|by rewrite Hf|].
    match goal with |- context [loop inlinelimit postiter ?l1 ?w1] =>
      pose proof (loop_accepts inlinelimit postiter l1 w1 f t eq_refl eq_refl
                    eq_refl ltac:(by rewrite Hf)) as Hloop;
      destruct (loop inlinelimit postiter l1 w1) as [[l2 w2]|[e w2]] eqn:Hl
    end.
    + destruct Hloop as [Hloop _].
      destruct Hloop as [Hall Hs]; [by eauto|].
      split; [intros _|].
      * split; [constructor; [simpl; by rewrite Hf|done]|done].
      * intros _. destruct (negb (first l2)); [|done].
        by destruct (pw_finish (postwriter w2)).
    + split; [done|]. intros [Hall Hs]. exfalso.
      apply Forall_cons in Hall as [_ Hall].
      destruct Hloop as [_ Hloop]. by destruct (Hloop (conj Hall Hs)) as (? & ? & ?).
  - unfold write_postings_body, start_term. simpl. rewrite Hf. simpl.
    split; [done|]. intros [Hall _]. apply Forall_cons in Hall as [[? Hs] _].
    simpl in Hs. by rewrite Hf in Hs.
Qed.

(** ** The calls made on the posting writer *)

Global Instance is_write_dec (c : pw_call) :
  Decision (∃ d x v n, c = CallWrite d x v n).
Proof.
  destruct c; [right|left|right|right|right]; try (by intros (? & ? & ? & ? & ?)).
  by eexists _, _, _, _.
Defined.

(** The [write] calls among the calls made. *)
Definition written (calls : list pw_call) : list pw_call :=
  filter (λ c, ∃ d x v n, c = CallWrite d x v n) calls.

Lemma written_app (calls1 calls2 : list pw_call) :
  written (calls1 ++ calls2) = written calls1 ++ written calls2.
Proof. apply filter_app. Qed.

Lemma written_closing (cl : list pw_call) : closing cl → written cl = [].
Proof. by intros [->| ->]. Qed.

Lemma written_none (calls : list pw_call) :
  Forall (λ c, ∀ d x v n, c ≠ CallWrite d x v n) calls → written calls = [].
Proof.
  induction 1 as [|c calls Hc _ IH]; [done|].
  unfold written. rewrite filter_cons_False; [done|].
  intros (d & x & v & n & ->). by eapply Hc.
Qed.

Lemma loop_written inlinelimit (postiter : list Posting) (l : locals) (w : world) :
  match loop inlinelimit postiter l w with
  | inl (_, w') =>
      written (pw_calls w') = written (pw_calls w) ++ (write_call <$> postiter)
  | inr (_, w') =>
      ∃ k, (k < length postiter)%nat
           ∧ written (pw_calls w')
             = written (pw_calls w) ++ (write_call <$> take k postiter)
  end.
Proof.
  revert l w. induction postiter as [|p postiter IH]; intros l w.
  { simpl. by rewrite app_nil_r. }
  cbn [write_postings_loop].
  destruct (body inlinelimit p l w) as [[l1 w1]|[e w1]] eqn:Hbody.
  - assert (written (pw_calls w1) = written (pw_calls w) ++ [write_call p]) as Hw1.
    { apply body_step in Hbody
        as (_ & [(_ & _ & fmt & ->)|[(_ & _ & cl & fmt & Hcl & ->)|(_ & _ & ->)]]).
      - by rewrite written_app.
      - rewrite !written_app, (written_closing cl Hcl). done.
      - by rewrite written_app. }
    specialize (IH l1 w1).
    destruct (loop inlinelimit postiter l1 w1) as [[l2 w2]|[e w2]].
    + rewrite IH, Hw1, <-app_assoc. done.
    + destruct IH as (k & Hk & ->). exists (S k). split; [simpl; lia|].
      rewrite Hw1, <-app_assoc. done.
  - apply body_raise in Hbody as (calls & -> & Hnone).
    exists 0%nat. split; [simpl; lia|].
    rewrite written_app, (written_none _ Hnone). done.
Qed.


(** The calls of [n] terms, each from its [start] to its closing: one
    [write] or more, then [finish()], or [as_inline()] and [cancel()]. *)
Inductive term_calls : nat → list pw_call → Prop :=
| term_calls_nil : term_calls 0 []
| term_calls_cons n fmt ws cl calls :
    ws ≠ [] →
    Forall (λ c, ∃ d x v n, c = CallWrite d x v n) ws →
    closing cl →
    term_calls n calls →
    term_calls (S n) (CallStart fmt :: ws ++ cl ++ calls).

Lemma term_calls_app n1 n2 (calls1 calls2 : list pw_call) :
  term_calls n1 calls1 → term_calls n2 calls2 →
  term_calls (n1 + n2) (calls1 ++ calls2).
Proof.
  induction 1 as [|n fmt ws cl calls Hne Hws Hcl _ IH]; intros H2; [done|].
  specialize (IH H2). simpl. rewrite <-!app_assoc.
  by constructor.
Qed.

Lemma write_call_is_write (p : Posting) : ∃ d x v n, write_call p = CallWrite d x v n.
Proof. by eexists _, _, _, _. Qed.

Lemma loop_protocol inlinelimit (postiter : list Posting) (l l' : locals)
    (w w' : world) (pre ws : list pw_call) fmt :
  loop inlinelimit postiter l w = inl (l', w') →
  first l = false →
  pw_calls w = pre ++ CallStart fmt :: ws →
  ws ≠ [] → Forall (λ c, ∃ d x v n, c = CallWrite d x v n) ws →
  first l' = false
  ∧ ∃ closed added fmt' ws',
      pw_calls w' = pre ++ closed ++ CallStart fmt' :: ws'
      ∧ termtable w' = termtable w ++ added
      ∧ term_calls (length added) closed
      ∧ ws' ≠ [] ∧ Forall (λ c, ∃ d x v n, c = CallWrite d x v n) ws'.
Proof.
  revert l w pre ws fmt.
  induction postiter as [|p postiter IH]; intros l w pre ws fmt Hloop Hfirst Hpre Hne Hws.
  { simpl in Hloop. injection Hloop as <- <-. split; [done|].
    exists [], [], fmt, ws. rewrite app_nil_r. split_and!; [done..|constructor|done|done]. }
  cbn [write_postings_loop] in Hloop.
  destruct (body inlinelimit p l w) as [[l1 w1]|[e w1]] eqn:Hbody; [|done].
  apply body_step in Hbody
    as (Hfirst1 & [(Ht & _)|[(_ & [e He] & cl & fmt1 & Hcl & Hcalls)|(_ & Htt & Hcalls)]]).
  - by rewrite Hfirst in Ht.
  - destruct (IH l1 w1 (pre ++ CallStart fmt :: ws ++ cl) [write_call p] fmt1 Hloop Hfirst1)
      as (Hfirst' & closed & added & fmt' & ws' & Hcalls' & Htt' & Hterms & Hne' & Hws').
    { rewrite Hcalls, Hpre, <-!app_assoc. simpl. by rewrite <-!app_assoc. }
    { done. }
    { constructor; [apply write_call_is_write|done]. }
    split; [done|].
    exists (CallStart fmt :: ws ++ cl ++ closed), (e :: added), fmt', ws'.
    split_and!; [| |simpl; by constructor|done|done].
    + rewrite Hcalls', <-!app_assoc. simpl. by rewrite <-!app_assoc.
    + rewrite Htt', He, <-app_assoc. done.
  - destruct (IH l1 w1 pre (ws ++ [write_call p]) fmt Hloop Hfirst1)
      as (Hfirst' & closed & added & fmt' & ws' & Hcalls' & Htt' & Hterms & Hne' & Hws').
    { rewrite Hcalls, Hpre, <-app_assoc. done. }
    { by destruct ws. }
    { apply Forall_app. split; [done|].
      constructor; [apply write_call_is_write|done]. }
    split; [done|].
    exists closed, added, fmt', ws'. rewrite <-Htt. done.
Qed.

(** X3.  When [write_postings] returns, the calls it made on the posting
    writer are those of one term after the other: [start], one [write] or
    more, then [finish()], or [as_inline()] followed by [cancel()]; and
    the term table received one [add] for each of these terms.  No
    posting is written outside a term and no term is left open. *)
Theorem write_postings_term_by_term (postiter : list Posting)
    (inlinelimit : Z) (w w' : world) :
  write_postings w0 wadd schema getlength postiter inlinelimit w = (w', None) →
  ∃ calls added,
    pw_calls w' = pw_calls w ++ calls
    ∧ termtable w' = termtable w ++ added
    ∧ term_calls (length added) calls.
Proof.
  unfold write_postings. destruct postiter as [|p postiter].
  { simpl. intros [= <-]. exists [], []. rewrite !app_nil_r.
    split_and!; [done..|constructor]. }
  cbn [write_postings_loop].
  destruct (body inlinelimit p _ w) as [[l1 w1]|[e w1]] eqn:Hbody; [|done].
  apply body_step in Hbody
    as (Hfirst1 & [(_ & Htt & fmt & Hcalls)|[(Hf & _)|(Hf & _)]]); [|done..].
  destruct (loop inlinelimit postiter l1 w1) as [[l2 w2]|[e w2]] eqn:Hloop; [|done].
  destruct (loop_protocol inlinelimit postiter l1 l2 w1 w2 (pw_calls w)
              [write_call p] fmt Hloop Hfirst1 Hcalls)
    as (Hfirst2 & closed & added & fmt' & ws' & Hcalls' & Htt' & Hterms & Hne' & Hws').
  { done. }
  { constructor; [apply write_call_is_write|done]. }
  rewrite Hfirst2. simpl. destruct (pw_finish (postwriter w2)) as [n pw].
  intros [= <-]. simpl.
  exists (closed ++ CallStart fmt' :: ws' ++ [CallFinish] ++ []),
         (added ++ [((current_fieldname l2, current_text l2),
                     (current_weight l2, offset l2, n))]).
  split_and!.
  - rewrite Hcalls', <-!app_assoc. done.
  - rewrite Htt', Htt, <-app_assoc. done.
  - rewrite length_app. simpl. apply term_calls_app; [done|].
    apply (term_calls_cons 0 fmt' ws' [CallFinish] []);
      [done|done|by left|constructor].
Qed.

End write_postings_protocol.

(** * Facts about [TempfilePool] *)

Section pool_facts.
Import Pools.
Context {W : Type} `{CmpOrder W}.
Context (gen_addr : nat → nat).

Local Abbreviation Posting := (Posting (W:=W)).
Local Abbreviation filesystem := (filesystem (W:=W)).
Local Abbreviation TempfilePool := (TempfilePool (W:=W)).

(** ** The file system *)

Lemma file_content_mkdtemp (fn : filename) (fs : filesystem) c :
  file_content fn fs = Some c → file_content fn (mkdtemp fs).2 = Some c.
Proof.
  unfold file_content, mkdtemp, Pools.filesystem in *. simpl. intros Hc.
  destruct (fs !! fn.1) as [files|] eqn:Hd; [|done].
  rewrite lookup_insert_ne; [by rewrite Hd|].
  intros Heq. pose proof (is_fresh (dom fs)) as Hfresh.
  rewrite Heq in Hfresh. apply Hfresh, elem_of_dom. eauto.
Qed.

Lemma mkdtemp_exists (fs : filesystem) d :
  is_Some (fs !! d) → is_Some ((mkdtemp fs).2 !! d).
Proof.
  unfold mkdtemp, Pools.filesystem in *. simpl. intros Hd.
  destruct (decide (fresh (dom fs) = d)) as [->|?].
  - rewrite lookup_insert_eq. eauto.
  - by rewrite lookup_insert_ne.
Qed.

Lemma mkdtemp_new (fs : filesystem) : is_Some ((mkdtemp fs).2 !! (mkdtemp fs).1).
Proof.
  unfold mkdtemp, Pools.filesystem in *. simpl. rewrite lookup_insert_eq. eauto.
Qed.

Lemma mkstemp_write (d : string) (fs : filesystem) (content : list Posting) :
  is_Some (fs !! d) →
  ∃ fn fs1,
    mkstemp d fs = Ok (fn, fs1)
    ∧ file_content fn (write_file fn content fs1) = Some content
    ∧ (∀ fn' c, file_content fn' fs = Some c →
                file_content fn' (write_file fn content fs1) = Some c)
    ∧ (∀ d', is_Some (fs !! d') → is_Some (write_file fn content fs1 !! d')).
Proof.
  unfold mkstemp, write_file, file_content, Pools.filesystem in *.
  intros [files Hd]. rewrite Hd.
  eexists _, _. split; [done|].
  simpl. rewrite lookup_insert_eq.
  rewrite insert_insert_eq. split_and!.
  - rewrite lookup_insert_eq. simpl. by rewrite !lookup_insert_eq.
  - intros [d' n'] c. simpl. destruct (decide (d = d')) as [<-|Hne].
    + rewrite Hd, lookup_insert_eq. simpl. intros Hn'.
      rewrite insert_insert_eq, lookup_insert_ne; [done|].
      intros Heq. pose proof (is_fresh (dom files)) as Hfresh.
      rewrite Heq in Hfresh. apply Hfresh, elem_of_dom. eauto.
    + by rewrite lookup_insert_ne.
  - intros d' Hd'. destruct (decide (d = d')) as [<-|Hne].
    + rewrite lookup_insert_eq. eauto.
    + by rewrite lookup_insert_ne.
Qed.

(** ** The invariant of a pool

    [added] are the postings given to [add_posting] so far: they are the
    postings of the run files together with those still in memory. *)

Definition run_ok (fs : filesystem) (run : filename * nat) (content : list Posting)
  : Prop :=
  file_content run.1 fs = Some content
  ∧ run.2 = length content
  ∧ content ≠ []
  ∧ Sorted cle content.

Definition pool_inv (added : list Posting) (self : TempfilePool) (fs : filesystem)
  : Prop :=
  count self = length (postings self)
  ∧ 0 ≤ size self
  ∧ (size self > 0 ↔ postings self ≠ [])
  ∧ (∀ d, dir self = Some d → is_Some (fs !! d))
  ∧ ∃ contents,
      Forall2 (run_ok fs) (runs self) contents
      ∧ concat contents ++ postings self ≡ₚ added.

Lemma init_inv (limitmb : Z) (d : option string) (fs : filesystem) :
  (∀ d', d = Some d' → is_Some (fs !! d')) →
  pool_inv [] (init limitmb d) fs.
Proof.
  intros Hd. unfold pool_inv, init. simpl. split_and!; [done|done| |done|].
  - split; [lia|done].
  - exists []. split; [constructor|done].
Qed.

Lemma dump_run_inv (added : list Posting) (self : TempfilePool) (fs : filesystem) :
  pool_inv added self fs →
  ∃ self' fs',
    dump_run self fs = Ok (self', fs')
    ∧ pool_inv added self' fs'
    ∧ postings self' = [] ∧ size self' = 0
    ∧ limit self' = limit self
    ∧ (runs self = [] → postings self ≠ [] → runs self' ≠ [])
    ∧ (runs self ≠ [] → runs self' ≠ []).
Proof.
  intros (Hcount & Hsize & Hpost & Hdir & contents & Hruns & Hperm).
  unfold dump_run. case_bool_decide as Hpos; cycle 1.
  { assert (postings self = []) as Hnil.
    { destruct (postings self) eqn:Hp; [done|].
      assert (size self > 0) by (apply Hpost; done). lia. }
    exists self, fs. split_and!; try done; [|lia].
    unfold pool_inv. rewrite Hnil in *. split_and!; try done. eauto. }
  assert (postings self ≠ []) as Hne by (by apply Hpost).
  destruct (make_dir self fs) as [self1 fs1] eqn:Hmk.
  assert (∃ d, dir self1 = Some d ∧ is_Some (fs1 !! d)
          ∧ postings self1 = postings self ∧ runs self1 = runs self
          ∧ count self1 = count self ∧ limit self1 = limit self
          ∧ using_tempdir self1 = using_tempdir self
          ∧ (∀ fn c, file_content fn fs = Some c → file_content fn fs1 = Some c))
    as (d & Hd1 & Hfs1 & Hp1 & Hr1 & Hc1 & Hl1 & Hu1 & Hkeep).
  { unfold make_dir in Hmk. destruct (dir self) as [d|] eqn:Hd.
    - injection Hmk as <- <-. exists d. split_and!; eauto.
    - pose proof (mkdtemp_new fs) as Hnew.
      pose proof (file_content_mkdtemp) as Hkeep.
      destruct (mkdtemp fs) as [d fs2] eqn:Hmkd. injection Hmk as <- <-.
      exists d. split_and!; try done.
      intros fn c Hc. specialize (Hkeep fn fs c Hc). by rewrite Hmkd in Hkeep. }
  rewrite Hd1. simpl.
  destruct (mkstemp_write d fs1 (merge_sort cle (postings self1)) Hfs1)
    as (fn & fs2 & -> & Hnew & Hold & Hdirs).
  simpl. eexists _, _. split; [done|]. simpl.
  split_and!; try done; [|intros _ _; by destruct (runs self1)
                         |intros _; by destruct (runs self1)].
  unfold pool_inv. simpl. split_and!; try done.
  - intros d' [= <-]. apply Hdirs. done.
  - exists (contents ++ [merge_sort cle (postings self1)]). split.
    + rewrite Hr1. apply Forall2_app.
      * eapply Forall2_impl; [done|]. intros run c (Hc & ? & ? & ?).
        split_and!; try done. by apply Hold, Hkeep.
      * constructor; [|constructor]. split_and!; simpl; try done.
        -- rewrite Hc1, Hcount, Hp1.
           apply Permutation_length. symmetry. apply merge_sort_Permutation.
        -- intros Hnil. apply Hne. rewrite <-Hp1.
           pose proof (merge_sort_Permutation cle (postings self1)) as Hms.
           rewrite Hnil in Hms. by apply Permutation_nil_l in Hms.
        -- apply Sorted_merge_sort, _.
    + rewrite app_nil_r, concat_app. simpl.
      rewrite app_nil_r, merge_sort_Permutation, Hp1. done.
Qed.

Lemma add_posting_inv (added : list Posting) (p : Posting)
    (self : TempfilePool) (fs : filesystem) :
  pool_inv added self fs →
  ∃ self' fs',
    add_posting p self fs = Ok (self', fs')
    ∧ pool_inv (added ++ [p]) self' fs'.
Proof.
  intros Hinv. destruct p as [[[[f t] d] x] v]. unfold add_posting.
  assert (∃ self1 fs1,
            (if bool_decide (size self >= limit self)
             then dump_run self fs else Ok (self, fs)) = Ok (self1, fs1)
            ∧ pool_inv added self1 fs1) as (self1 & fs1 & -> & Hinv1).
  { case_bool_decide; [|by eauto].
    destruct (dump_run_inv _ _ _ Hinv) as (? & ? & ? & ? & _). eauto. }
  simpl. eexists _, _. split; [done|].
  destruct Hinv1 as (Hcount & Hsize & Hpost & Hdir & contents & Hruns & Hperm).
  assert (0 ≤ len f ∧ 0 ≤ len t) as [??] by (unfold len; lia).
  assert (0 ≤ len (default ""%string v)) by (unfold len; lia).
  unfold pool_inv. simpl. split_and!.
  - rewrite length_app. simpl. lia.
  - destruct (truthy v); lia.
  - split; [intros _; by destruct (postings self1)|].
    intros _. destruct (truthy v); lia.
  - done.
  - exists contents. split; [done|]. by rewrite app_assoc, Hperm.
Qed.

Lemma add_postings_inv (added ps : list Posting)
    (self : TempfilePool) (fs : filesystem) :
  pool_inv added self fs →
  ∃ self' fs',
    add_postings ps self fs = Ok (self', fs')
    ∧ pool_inv (added ++ ps) self' fs'.
Proof.
  unfold add_postings. revert added self fs.
  induction ps as [|p ps IH]; intros added self fs Hinv; simpl.
  - exists self, fs. by rewrite app_nil_r.
  - destruct (add_posting_inv added p self fs Hinv) as (self1 & fs1 & -> & Hinv1).
    destruct (IH _ _ _ Hinv1) as (self2 & fs2 & Hfold & Hinv2).
    exists self2, fs2. split; [done|]. by rewrite <-app_assoc in Hinv2.
Qed.

Lemma read_runs_ok (i : nat) (runs : list (filename * nat))
    (contents : list (list Posting)) (fs : filesystem) :
  Forall2 (run_ok fs) runs contents →
  ∃ gens,
    read_runs gen_addr i runs fs = Ok gens
    ∧ gen_rest <$> gens = contents.
Proof.
  intros Hruns. revert i.
  induction Hruns as [|[fn c] content runs contents (Hc & Hlen & _ & _) _ IH];
    intros i; simpl.
  - by exists [].
  - unfold read_run. simpl in Hc, Hlen. rewrite Hc. subst c.
    rewrite bool_decide_true by done. rewrite firstn_all. simpl.
    destruct (IH (S i)) as (gens & -> & Hgens). simpl.
    eexists. split; [done|]. rewrite fmap_cons. simpl. by rewrite Hgens.
Qed.

Lemma sorted_perm_merge_sort (l ps : list Posting) :
  Sorted cle l → l ≡ₚ ps → l = merge_sort cle ps.
Proof.
  intros Hs Hp. apply (Sorted_unique cle); [done| |].
  - apply Sorted_merge_sort, _.
  - by rewrite merge_sort_Permutation.
Qed.

(** The branch of [finish] that merges the runs. *)
Lemma finish_merge_runs (added : list Posting)
    (self : TempfilePool) (fs : filesystem) :
  pool_inv added self fs → runs self ≠ [] →
  added ≠ []
  ∧ ∃ self' fs',
      ('(self, fs) ← dump_run self fs;
       gens ← read_runs gen_addr 0 (runs self) fs;
       Ok (Some (imerge gens), self, fs))
      = Ok (Some (merge_sort cle added), self', fs').
Proof.
  intros Hinv Hrs.
  destruct (dump_run_inv _ _ _ Hinv)
    as (self1 & fs1 & -> & Hinv1 & Hp1 & _ & _ & _ & Hr1).
  simpl. specialize (Hr1 Hrs).
  destruct Hinv1 as (_ & _ & _ & _ & contents1 & Hruns1 & Hperm1).
  destruct (read_runs_ok 0 _ _ _ Hruns1) as (gens & -> & Hgens). simpl.
  rewrite Hp1, app_nil_r in Hperm1.
  assert (Forall (Sorted cle) contents1) as Hsorted.
  { eapply Forall2_Forall_r; [done|]. apply Forall_true.
    by intros c run (_ & _ & _ & ?). }
  rewrite <-Hgens, Forall_fmap in Hsorted.
  pose proof (imerge_sorted gens Hsorted) as Hs.
  pose proof (imerge_perm gens) as Hp. rewrite Hgens, Hperm1 in Hp.
  rewrite (sorted_perm_merge_sort _ _ Hs Hp). split; [|eauto].
  intros ->. apply Permutation_nil_r, concat_nil_Forall in Hperm1.
  destruct (runs self1); [done|].
  apply Forall2_cons_inv_l in Hruns1 as (c & ? & (_ & _ & Hne & _) & _ & ->).
  by apply Forall_cons in Hperm1 as [-> _].
Qed.

Lemma finish_postiter_inv (added : list Posting)
    (self : TempfilePool) (fs : filesystem) :
  pool_inv added self fs →
  ∃ self' fs',
    finish_postiter gen_addr self fs
    = Ok (match added with [] => None | _ => Some (merge_sort cle added) end,
          self', fs').
Proof.
  intros Hinv. unfold finish_postiter.
  pose proof Hinv as (Hcount & Hsize & Hpost & Hdir & contents & Hruns & Hperm).
  destruct (postings self) as [|p ps] eqn:Hps;
    destruct (runs self) as [|r rs] eqn:Hrs; simpl.
  - (* nothing was added *)
    apply Forall2_nil_inv_l in Hruns as ->. simpl in Hperm.
    apply Permutation_nil_l in Hperm. subst added. eauto.
  - (* runs only *)
    destruct (finish_merge_runs added self fs Hinv) as (Hne & self' & fs' & ->);
      [by rewrite Hrs|].
    destruct added; [done|eauto].
  - (* postings in memory only: sorted directly *)
    apply Forall2_nil_inv_l in Hruns as ->. simpl in Hperm.
    rewrite (sorted_perm_merge_sort (merge_sort cle (p :: ps)) added).
    + destruct added; [|eauto].
      by apply Permutation_nil_r in Hperm.
    + apply Sorted_merge_sort, _.
    + by rewrite merge_sort_Permutation.
  - (* runs and postings in memory *)
    destruct (finish_merge_runs added self fs Hinv) as (Hne & self' & fs' & ->);
      [by rewrite Hrs|].
    destruct added; [done|eauto].
Qed.

(** C2.  Whatever the postings given to [add_posting] and whatever the
    limit, [finish] passes to [write_postings] the postings sorted as one
    list, [sorted(ps)]: a sorted permutation of them.  The directory given
    to the pool, if one is given, exists.  When no posting was added
    [finish] does not call [write_postings]. *)
Theorem tempfilepool_external_sort (ps : list Posting) (limitmb : Z)
    (d : option string) (fs : filesystem) :
  (∀ d', d = Some d' → is_Some (fs !! d')) →
  ∃ self fs1 self' fs2,
    add_postings ps (init limitmb d) fs = Ok (self, fs1)
    ∧ finish_postiter gen_addr self fs1
      = Ok (match ps with [] => None | _ => Some (merge_sort cle ps) end,
            self', fs2)
    ∧ Sorted cle (merge_sort cle ps)
    ∧ merge_sort cle ps ≡ₚ ps.
Proof.
  intros Hd.
  destruct (add_postings_inv [] ps _ fs (init_inv limitmb d fs Hd))
    as (self & fs1 & Hadd & Hinv).
  destruct (finish_postiter_inv _ _ _ Hinv) as (self' & fs2 & Hfin).
  exists self, fs1, self', fs2. split_and!; [done|done| |].
  - apply Sorted_merge_sort, _.
  - apply merge_sort_Permutation.
Qed.

(** ** Cleaning up *)

Lemma file_content_remove (fn fn' : filename) (fs fs' : filesystem) :
  os_remove fn fs = Ok fs' →
  file_content fn fs' = None
  ∧ (file_content fn' fs = None → file_content fn' fs' = None)
  ∧ dom fs' = dom fs.
Proof.
  unfold os_remove, file_content, Pools.filesystem in *.
  destruct (fs !! fn.1) as [files|] eqn:Hd; [|done].
  case_bool_decide; [|done]. intros [= <-]. split_and!.
  - rewrite lookup_insert_eq. simpl. apply lookup_delete_eq.
  - destruct (decide (fn.1 = fn'.1)) as [Heq|Hne].
    + rewrite <-Heq, Hd, lookup_insert_eq. simpl. intros Hn.
      destruct (decide (fn.2 = fn'.2)) as [<-|?].
      * apply lookup_delete_eq.
      * by rewrite lookup_delete_ne.
    + by rewrite lookup_insert_ne.
  - rewrite dom_insert_L. apply elem_of_dom_2 in Hd.
    apply leibniz_equiv. apply subseteq_union_1. by apply singleton_subseteq_l.
Qed.

Lemma remove_runs_spec (filenames : list filename) (fs fs' : filesystem) :
  remove_runs filenames fs = Ok fs' →
  Forall (λ fn, file_content fn fs' = None) filenames
  ∧ (∀ fn, file_content fn fs = None → file_content fn fs' = None)
  ∧ dom fs' = dom fs.
Proof.
  revert fs. induction filenames as [|fn filenames IH]; intros fs; simpl.
  { intros [= <-]. done. }
  destruct (file_exists fn fs) eqn:Hex.
  - destruct (os_remove fn fs) as [fs1|] eqn:Hrm; [|done]. simpl.
    intros Hrest. destruct (IH _ Hrest) as (Hall & Hkeep & Hdom).
    pose proof (λ fn', file_content_remove fn fn' fs fs1 Hrm) as Hfn.
    split_and!.
    + constructor; [|done]. apply Hkeep. apply (proj1 (Hfn fn)).
    + intros fn' Hnone. apply Hkeep. by apply (proj1 (proj2 (Hfn fn'))).
    + rewrite Hdom. apply (proj2 (proj2 (Hfn fn))).
  - simpl. intros Hrest. destruct (IH _ Hrest) as (Hall & Hkeep & Hdom).
    split_and!; [|done..]. constructor; [|done]. apply Hkeep.
    unfold file_exists in Hex. apply bool_decide_eq_false in Hex.
    by apply eq_None_not_Some.
Qed.

(** What [_clean_temp_dir] does: the directory is removed exactly when
    [_using_tempdir] is set, which [__init__] does for a directory the
    caller supplied, and the directory is there and empty. *)
Lemma clean_temp_dir_spec (self : TempfilePool) (fs : filesystem) :
  clean_temp_dir self fs
  = match dir self ≫= λ d, (d,.) <$> fs !! d with
    | Some (d, files) =>
        if using_tempdir self && bool_decide (d ≠ ""%string)
           && bool_decide (files = ∅)
        then delete d fs else fs
    | None => fs
    end.
Proof.
  unfold clean_temp_dir, dir_exists, os_rmdir, Pools.filesystem in *.
  destruct (dir self) as [d|]; simpl; [|by rewrite andb_false_r].
  destruct (fs !! d) as [files|] eqn:Hd; simpl.
  - destruct (using_tempdir self); simpl; [|done].
    destruct d as [|a d]; simpl; [done|].
    by case_bool_decide.
  - by rewrite andb_false_r.
Qed.

(** A pool made without [dir] never has [_using_tempdir] set. *)
Lemma dump_run_using_tempdir (self self' : TempfilePool) (fs fs' : filesystem) :
  dump_run self fs = Ok (self', fs') → using_tempdir self' = using_tempdir self.
Proof.
  unfold dump_run, make_dir. case_bool_decide; [|by intros [= <- <-]].
  destruct (dir self); simpl.
  - destruct (mkstemp _ _) as [[fn fs1]|]; simpl; [|done]. by intros [= <- <-].
  - destruct (mkstemp _ _) as [[fn fs1]|]; simpl; [|done]. by intros [= <- <-].
Qed.

Lemma add_posting_using_tempdir (p : Posting) (self self' : TempfilePool)
    (fs fs' : filesystem) :
  add_posting p self fs = Ok (self', fs') →
  using_tempdir self' = using_tempdir self.
Proof.
  destruct p as [[[[f t] d] x] v]. unfold add_posting.
  case_bool_decide; simpl.
  - destruct (dump_run self fs) as [[self1 fs1]|] eqn:Hdump; simpl; [|done].
    intros [= <- <-]. simpl. by eapply dump_run_using_tempdir.
  - by intros [= <- <-].
Qed.

Lemma add_postings_using_tempdir (ps : list Posting) (self self' : TempfilePool)
    (fs fs' : filesystem) :
  add_postings ps self fs = Ok (self', fs') →
  using_tempdir self' = using_tempdir self.
Proof.
  unfold add_postings. revert self fs.
  induction ps as [|p ps IH]; intros self fs; simpl; [by intros [= <- <-]|].
  destruct (add_posting p self fs) as [[self1 fs1]|] eqn:Hadd; simpl.
  - intros Hrest. rewrite (IH _ _ Hrest). by eapply add_posting_using_tempdir.
  - intros Hrest. exfalso. clear -Hrest.
    induction ps as [|q ps IHps]; simpl in *; [done|auto].
Qed.

(** The run files are deleted; a pool made without [dir] removes no
    directory, its own included. *)
Lemma cleanup_spec (self : TempfilePool) (fs fs' : filesystem) :
  cleanup self fs = Ok fs' →
  Forall (λ fn, file_content fn fs' = None) (run_filenames self)
  ∧ (using_tempdir self = false → dom fs' = dom fs).
Proof.
  unfold cleanup.
  destruct (remove_runs (run_filenames self) fs) as [fs1|] eqn:Hrm; [|done].
  simpl. intros [= <-].
  destruct (remove_runs_spec _ _ _ Hrm) as (Hall & _ & Hdom).
  rewrite clean_temp_dir_spec. split.
  - eapply Forall_impl; [done|]. intros fn Hfn. simpl in Hfn.
    destruct (dir self ≫= _) as [[d files]|]; [|done].
    destruct (_ && _); [|done].
    unfold file_content, Pools.filesystem in *.
    destruct (decide (d = fn.1)) as [->|?].
    + by rewrite lookup_delete_eq.
    + by rewrite lookup_delete_ne.
  - intros ->. simpl. by destruct (dir self ≫= _) as [[d files]|].
Qed.

End pool_facts.

(** * More about the pools *)

Section pool_more.
Import Pools.
Context {W : Type} `{CmpOrder W}.
Context (gen_addr : nat → nat).

Local Abbreviation Posting := (Posting (W:=W)).
Local Abbreviation filesystem := (filesystem (W:=W)).
Local Abbreviation TempfilePool := (TempfilePool (W:=W)).

(** ** What [cleanup] removes *)

Lemma os_remove_exists (fn : filename) (fs : filesystem) :
  file_exists fn fs = true → ∃ fs', os_remove fn fs = Ok fs'.
Proof.
  unfold file_exists, file_content, os_remove, Pools.filesystem in *.
  intros Hex. apply bool_decide_eq_true in Hex as [c Hc].
  destruct (fs !! fn.1) as [files|]; [|done]. simpl in Hc.
  rewrite bool_decide_true by eauto. eauto.
Qed.

Lemma os_remove_other (fn fn' : filename) (fs fs' : filesystem) :
  os_remove fn fs = Ok fs' → fn' ≠ fn →
  file_content fn' fs' = file_content fn' fs.
Proof.
  unfold file_content, os_remove, Pools.filesystem in *.
  destruct (fs !! fn.1) as [files|] eqn:Hd; [|done].
  case_bool_decide; [|done]. intros [= <-] Hne.
  destruct (decide (fn.1 = fn'.1)) as [Heq|Hd'].
  - rewrite <-Heq, Hd, lookup_insert_eq. simpl.
    rewrite lookup_delete_ne; [done|].
    intros Hn. apply Hne. destruct fn, fn'. simpl in *. by subst.
  - by rewrite lookup_insert_ne.
Qed.

Lemma remove_runs_total (filenames : list filename) (fs : filesystem) :
  ∃ fs',
    remove_runs filenames fs = Ok fs'
    ∧ (∀ fn, fn ∈ filenames → file_content fn fs' = None)
    ∧ (∀ fn, fn ∉ filenames → file_content fn fs' = file_content fn fs)
    ∧ dom fs' = dom fs.
Proof.
  revert fs. induction filenames as [|fn filenames IH]; intros fs; simpl.
  { exists fs. split_and!; [done| |done..]. by intros fn ?%elem_of_nil. }
  assert (∃ fs1, (if file_exists fn fs then os_remove fn fs else Ok fs) = Ok fs1
                 ∧ file_content fn fs1 = None
                 ∧ (∀ fn', fn' ≠ fn → file_content fn' fs1 = file_content fn' fs)
                 ∧ dom fs1 = dom fs) as (fs1 & -> & Hfn & Hother & Hdom).
  { destruct (file_exists fn fs) eqn:Hex.
    - destruct (os_remove_exists fn fs Hex) as [fs1 Hrm]. exists fs1.
      destruct (file_content_remove fn fn fs fs1 Hrm) as (? & _ & ?).
      split_and!; [done..| |done]. intros fn' Hne. by eapply os_remove_other.
    - exists fs. split_and!; [done| |done..].
      unfold file_exists in Hex. apply bool_decide_eq_false in Hex.
      by apply eq_None_not_Some. }
  simpl. destruct (IH fs1) as (fs' & -> & Hin & Hout & Hdom').
  exists fs'. split_and!; [done| | |by rewrite Hdom'].
  - intros fn' [->|Hin']%elem_of_cons; [|by apply Hin].
    destruct (decide (fn ∈ filenames)) as [?|Hnot]; [by apply Hin|].
    by rewrite Hout.
  - intros fn' Hnot%not_elem_of_cons. destruct Hnot as [Hne Hnot].
    rewrite Hout by done. by apply Hother.
Qed.

Lemma clean_temp_dir_files (self : TempfilePool) (fs : filesystem) (fn : filename) :
  file_content fn (clean_temp_dir self fs) = file_content fn fs.
Proof.
  rewrite clean_temp_dir_spec.
  destruct (dir self ≫= _) as [[d files]|] eqn:Hd; [|done].
  destruct (_ && _) eqn:Hc; [|done].
  apply andb_true_iff in Hc as [_ Hempty]. apply bool_decide_eq_true in Hempty.
  subst files. destruct (dir self) as [d'|]; [|done]. simpl in Hd.
  unfold file_content, Pools.filesystem in *.
  destruct (fs !! d') as [files|] eqn:Hfs; [|done]. simpl in Hd.
  injection Hd as -> ->.
  destruct (decide (d = fn.1)) as [->|Hne].
  - by rewrite lookup_delete_eq, Hfs.
  - by rewrite lookup_delete_ne.
Qed.

(** X4.  [TempfilePool.cleanup] (and so [cancel]) raises nothing, and
    afterwards no run file of the pool is left while every other file is
    as it was: a file that is not a run of the pool is never deleted.  A
    directory goes only if it is the pool's [dir], [_using_tempdir] is
    set, and every file it held was a run of the pool. *)
Theorem cleanup_removes_only_run_files (self : TempfilePool) (fs : filesystem) :
  ∃ fs',
    cleanup self fs = Ok fs'
    ∧ cancel self fs = Ok fs'
    ∧ (∀ fn, fn ∈ run_filenames self → file_content fn fs' = None)
    ∧ (∀ fn, fn ∉ run_filenames self → file_content fn fs' = file_content fn fs)
    ∧ (∀ d, is_Some (fs !! d) → fs' !! d = None →
            dir self = Some d ∧ using_tempdir self = true
            ∧ ∀ n, is_Some (file_content (d, n) fs) → (d, n) ∈ run_filenames self).
Proof.
  unfold cancel, cleanup.
  destruct (remove_runs_total (run_filenames self) fs)
    as (fs1 & -> & Hin & Hout & Hdom).
  simpl. eexists. split_and!; [done|done| | |].
  - intros fn Hfn. rewrite clean_temp_dir_files. by apply Hin.
  - intros fn Hfn. rewrite clean_temp_dir_files. by apply Hout.
  - intros d Hd Hgone. rewrite clean_temp_dir_spec in Hgone.
    unfold Pools.filesystem in *.
    assert (is_Some (fs1 !! d)) as [files1 Hd1].
    { apply (elem_of_dom (D:=gset string)). rewrite Hdom.
      by apply (elem_of_dom (D:=gset string)). }
    destruct (dir self) as [d'|] eqn:Hdir; simpl in Hgone;
      [|by rewrite Hgone in Hd1].
    destruct (fs1 !! d') as [files|] eqn:Hfs; simpl in Hgone;
      [|by rewrite Hgone in Hd1].
    destruct (using_tempdir self) eqn:Hu; simpl in Hgone;
      [|by rewrite Hgone in Hd1].
    destruct (bool_decide (d' ≠ ""%string)); simpl in Hgone;
      [|by rewrite Hgone in Hd1].
    case_bool_decide as Hempty; [|by rewrite Hgone in Hd1].
    destruct (decide (d' = d)) as [->|Hne];
      [|by rewrite lookup_delete_ne, Hd1 in Hgone].
    split_and!; [done..|]. intros n [c Hc].
    destruct (decide ((d, n) ∈ run_filenames self)) as [|Hnot]; [done|].
    specialize (Hout _ Hnot). rewrite Hc in Hout.
    unfold file_content, Pools.filesystem in Hout. simpl in Hout.
    rewrite Hfs, Hempty in Hout. simpl in Hout.
    by rewrite lookup_empty in Hout.
Qed.

(** ** What a pool holds *)

(** What [add_posting] adds to [size] for a posting. *)
Definition posting_size (p : Posting) : Z :=
  len p.1.1.1.1 + len p.1.1.1.2 + 18
  + (if truthy p.2 then len (default ""%string p.2) else 0).

Definition size_of (ps : list Posting) : Z :=
  foldr (λ p n, posting_size p + n) 0 ps.

Lemma posting_size_pos (p : Posting) : 18 ≤ posting_size p.
Proof. unfold posting_size, len. destruct (truthy p.2); lia. Qed.

Lemma size_of_app (ps qs : list Posting) :
  size_of (ps ++ qs) = size_of ps + size_of qs.
Proof. induction ps as [|p ps IH]; simpl; [done|]. rewrite IH. lia. Qed.

Lemma size_of_nonneg (ps : list Posting) : 0 ≤ size_of ps.
Proof.
  induction ps as [|p ps IH]; simpl; [done|].
  pose proof (posting_size_pos p). lia.
Qed.

Lemma dump_run_size (self self' : TempfilePool) (fs fs' : filesystem) :
  dump_run self fs = Ok (self', fs') →
  size self = size_of (postings self) → size self' = size_of (postings self').
Proof.
  unfold dump_run. case_bool_decide; [|by intros [= <- <-]].
  destruct (make_dir self fs) as [self1 fs1].
  destruct (mkstemp _ _) as [[fn fs2]|]; simpl; [|done].
  by intros [= <- <-].
Qed.

Lemma add_posting_size (p : Posting) (self self' : TempfilePool)
    (fs fs' : filesystem) :
  add_posting p self fs = Ok (self', fs') →
  size self = size_of (postings self) → size self' = size_of (postings self').
Proof.
  destruct p as [[[[f t] d] x] v]. unfold add_posting. intros Hadd Hsize.
  destruct (if bool_decide (size self >= limit self) then _ else _)
    as [[self1 fs1]|] eqn:Hdump; simpl in Hadd; [|done].
  assert (size self1 = size_of (postings self1)) as Hsize1.
  { case_bool_decide; [by eapply dump_run_size|by injection Hdump as <- <-]. }
  injection Hadd as <- <-. simpl. rewrite size_of_app, Hsize1. simpl.
  unfold posting_size. simpl. destruct (truthy v); lia.
Qed.

Lemma add_postings_Raise (ps : list Posting) e :
  foldl (λ r p, '(self, fs) ← r; add_posting p self fs) (Raise e) ps = Raise e.
Proof. induction ps as [|p ps IH]; simpl; [done|apply IH]. Qed.

Lemma add_postings_size (ps : list Posting) (self self' : TempfilePool)
    (fs fs' : filesystem) :
  add_postings ps self fs = Ok (self', fs') →
  size self = size_of (postings self) → size self' = size_of (postings self').
Proof.
  unfold add_postings. revert self fs.
  induction ps as [|p ps IH]; intros self fs; simpl.
  { by intros [= <- <-]. }
  destruct (add_posting p self fs) as [[self1 fs1]|] eqn:Hadd; simpl.
  - intros Hrest Hsize. apply (IH _ _ Hrest). by eapply add_posting_size.
  - by rewrite add_postings_Raise.
Qed.

(** X5.  Whatever the postings given to [add_posting] and whatever the
    limit, no posting is lost or duplicated: the run files, each sorted
    and as long as the count recorded with its name, hold together
    with the buffer exactly the postings added; [count] is the length of
    the buffer and [size] the sum over the buffer of
    [len(fieldname) + len(text) + 18], plus [len(valuestring)] when there
    is a value.  The directory given to the pool, if one is given,
    exists. *)
Theorem tempfilepool_accounts_for_every_posting (ps : list Posting)
    (limitmb : Z) (d : option string) (fs : filesystem) :
  (∀ d', d = Some d' → is_Some (fs !! d')) →
  ∃ self fs1 contents,
    add_postings ps (init limitmb d) fs = Ok (self, fs1)
    ∧ Forall2 (λ run content,
                 file_content run.1 fs1 = Some content
                 ∧ run.2 = length content ∧ Sorted cle content)
              (runs self) contents
    ∧ concat contents ++ postings self ≡ₚ ps
    ∧ count self = length (postings self)
    ∧ size self = size_of (postings self).
Proof.
  intros Hd.
  destruct (add_postings_inv [] ps _ fs (init_inv limitmb d fs Hd))
    as (self & fs1 & Hadd & Hcount & _ & _ & _ & contents & Hruns & Hperm).
  exists self, fs1, contents. split_and!; [done| |done|done|].
  - eapply Forall2_impl; [done|]. by intros run c (? & ? & _ & ?).
  - by apply (add_postings_size ps _ _ fs fs1 Hadd).
Qed.

(** ** A pool that never spills *)

Lemma add_postings_no_spill (ps : list Posting) (self : TempfilePool)
    (fs : filesystem) :
  size self = size_of (postings self) →
  size_of (postings self ++ removelast ps) < limit self →
  ∃ self',
    add_postings ps self fs = Ok (self', fs)
    ∧ postings self' = postings self ++ ps
    ∧ runs self' = runs self.
Proof.
  revert self. induction ps as [|p ps IH]; intros self Hsize Hlim.
  { exists self. by rewrite app_nil_r. }
  assert (size self < limit self) as Hbelow.
  { rewrite size_of_app in Hlim.
    pose proof (size_of_nonneg (removelast (p :: ps))). lia. }
  unfold add_postings. simpl.
  assert (add_posting p self fs
          = Ok (Pool (dir self) (using_tempdir self) (limit self)
                     (size self + posting_size p) (S (count self))
                     (postings self ++ [p]) (runs self), fs)) as ->.
  { destruct p as [[[[f t] d] x] v]. unfold add_posting.
    rewrite bool_decide_false by lia. simpl. unfold posting_size. simpl.
    do 2 f_equal. destruct (truthy v); f_equal; lia. }
  destruct ps as [|q ps].
  { simpl. eexists. split_and!; done. }
  edestruct (IH (Pool (dir self) (using_tempdir self) (limit self)
                      (size self + posting_size p) (S (count self))
                      (postings self ++ [p]) (runs self)))
    as (self' & Hadd & Hpost & Hruns).
  { simpl. rewrite size_of_app. simpl. lia. }
  { simpl. rewrite <-app_assoc. exact Hlim. }
  exists self'. split_and!; [exact Hadd| |done].
  rewrite Hpost. simpl. by rewrite <-app_assoc.
Qed.

(** X6.  When the sizes of the postings but the last add up to less than
    the limit, the pool never spills: no run is dumped, no directory and
    no file is created, and [finish] sorts the buffer in memory and hands
    it to [write_postings].  The pool looks at the size before it adds a
    posting, so the last posting may take the buffer over the limit.
    Nothing is asked of [dir]: it is never used. *)
Theorem tempfilepool_no_spill_below_limit (ps : list Posting) (limitmb : Z)
    (d : option string) (fs : filesystem) :
  size_of (removelast ps) < limitmb * 1024 * 1024 →
  ∃ self self',
    add_postings ps (init limitmb d) fs = Ok (self, fs)
    ∧ postings self = ps ∧ runs self = []
    ∧ finish_postiter gen_addr self fs
      = Ok (match ps with [] => None | _ => Some (merge_sort cle ps) end,
            self', fs)
    ∧ runs self' = [].
Proof.
  intros Hlim.
  destruct (add_postings_no_spill ps (init limitmb d) fs)
    as (self & Hadd & Hpost & Hruns); [done|done|].
  change (postings self = ps) in Hpost. change (runs self = []) in Hruns.
  destruct ps as [|p ps].
  - exists self, self. split_and!; [done..| |done].
    unfold finish_postiter. by rewrite Hpost, Hruns.
  - exists self, (Pool (dir self) (using_tempdir self) (limit self) (size self)
                       (count self) (merge_sort cle (p :: ps)) (runs self)).
    split_and!; [done..| |done].
    unfold finish_postiter. by rewrite Hpost, Hruns.
Qed.

(** ** A pool that spills at every posting *)

Lemma dump_run_shape (self self' : TempfilePool) (fs fs' : filesystem) :
  dump_run self fs = Ok (self', fs') →
  limit self' = limit self
  ∧ if bool_decide (size self > 0)
    then postings self' = [] ∧ ∃ fn, runs self' = runs self ++ [(fn, count self)]
    else self' = self.
Proof.
  unfold dump_run, make_dir. case_bool_decide; [|by intros [= <- <-]].
  destruct (dir self); simpl.
  - destruct (mkstemp _ _) as [[fn fs1]|]; simpl; [|done].
    intros [= <- <-]. simpl. eauto.
  - destruct (mkstemp _ _) as [[fn fs1]|]; simpl; [|done].
    intros [= <- <-]. simpl. eauto.
Qed.

Lemma add_posting_spill (added : list Posting) (p : Posting)
    (self self' : TempfilePool) (fs fs' : filesystem) :
  pool_inv added self fs → limit self ≤ 0 →
  add_posting p self fs = Ok (self', fs') →
  postings self' = [p] ∧ limit self' = limit self
  ∧ (runs self').*2
    = (runs self).*2 ++ match postings self with [] => [] | _ => [count self] end.
Proof.
  intros (_ & Hsize & Hpost & _) Hlimit.
  destruct p as [[[[f t] d] x] v]. unfold add_posting.
  rewrite bool_decide_true by lia.
  destruct (dump_run self fs) as [[self1 fs1]|] eqn:Hdump; simpl; [|done].
  apply dump_run_shape in Hdump as [Hlim Hshape].
  intros [= <- <-]. simpl. case_bool_decide as Hpos.
  - destruct Hshape as [-> [fn ->]]. rewrite fmap_app. simpl.
    apply Hpost in Hpos. split_and!; [done..|]. by destruct (postings self).
  - subst self1. assert (postings self = []) as ->.
    { destruct (postings self) eqn:Hp; [done|].
      exfalso. apply Hpos, Hpost. done. }
    by rewrite app_nil_r.
Qed.

Lemma add_postings_spill (ps added : list Posting) (self : TempfilePool)
    (fs : filesystem) :
  pool_inv added self fs → limit self ≤ 0 →
  (length (postings self) ≤ 1)%nat →
  ∃ self' fs',
    add_postings ps self fs = Ok (self', fs')
    ∧ postings self'
      = drop (length (postings self ++ ps) - 1) (postings self ++ ps)
    ∧ (runs self').*2
      = (runs self).*2 ++ replicate (length (postings self ++ ps) - 1) 1%nat.
Proof.
  revert added self fs.
  induction ps as [|p ps IH]; intros added self fs Hinv Hlimit Hone.
  { exists self, fs. rewrite !app_nil_r. split; [done|].
    destruct (postings self) as [|q [|??]]; simpl in *; [| |lia];
      by rewrite app_nil_r. }
  destruct (add_posting_inv added p self fs Hinv) as (self1 & fs1 & Hadd & Hinv1).
  destruct (add_posting_spill added p self self1 fs fs1 Hinv Hlimit Hadd)
    as (Hpost1 & Hlim1 & Hruns1).
  destruct (IH _ self1 fs1 Hinv1) as (self' & fs' & Hrest & Hpost' & Hruns');
    [lia|by rewrite Hpost1|].
  exists self', fs'. split; [|split].
  - unfold add_postings in *. simpl. by rewrite Hadd.
  - rewrite Hpost', Hpost1.
    destruct (postings self) as [|q [|??]]; simpl in *; [done| |lia].
    by rewrite Nat.sub_0_r.
  - rewrite Hruns', Hruns1, Hpost1.
    destruct Hinv as (Hcount & _).
    destruct (postings self) as [|q [|??]]; simpl in *; [|rewrite Hcount|lia].
    + by rewrite app_nil_r.
    + rewrite Nat.sub_0_r, <-app_assoc. done.
Qed.

(** X8.  With a limit of zero or less the pool spills at every posting:
    after any [add_posting] calls the buffer holds the last posting alone
    and every posting before it went into a run file of its own, whose
    recorded count is 1.  The directory given to the pool, if one is
    given, exists. *)
Theorem tempfilepool_spills_every_posting (ps : list Posting) (limitmb : Z)
    (d : option string) (fs : filesystem) :
  limitmb ≤ 0 →
  (∀ d', d = Some d' → is_Some (fs !! d')) →
  ∃ self fs1,
    add_postings ps (init limitmb d) fs = Ok (self, fs1)
    ∧ postings self = drop (length ps - 1) ps
    ∧ (runs self).*2 = replicate (length ps - 1) 1%nat.
Proof.
  intros Hlimit Hd.
  destruct (add_postings_spill ps [] (init limitmb d) fs)
    as (self & fs1 & Hadd & Hpost & Hruns);
    [by apply init_inv|simpl; lia|simpl; lia|].
  by exists self, fs1.
Qed.

End pool_more.

(** ** The two pools *)

Section pools_agree.
Import Pools.
Context {W : Type} `{CmpOrder W} (w0 : W) (wadd : W → W → W).
Context {Format Offset Inline PW : Type}.
Context `{!PostingWriter (W:=W) (Format:=Format) (Offset:=Offset) (Inline:=Inline) PW}.
Context (gen_addr : nat → nat).
Context (schema : gmap string Format) (getlength : Z → string → Z).

Local Abbreviation Posting := (Posting (W:=W)).
Local Abbreviation filesystem := (filesystem (W:=W)).
Local Abbreviation world := (world (W:=W) (Format:=Format) (Offset:=Offset) (Inline:=Inline) (PW:=PW)).

Lemma mempool_add_postings (ps : list Posting) (self : MemPool.MemPool) :
  MemPool.postbuf (MemPool.add_postings ps self) = MemPool.postbuf self ++ ps.
Proof.
  unfold MemPool.add_postings. revert self.
  induction ps as [|p ps IH]; intros self; simpl.
  - by rewrite app_nil_r.
  - rewrite IH. simpl. by rewrite <-app_assoc.
Qed.

(** X7.  [TempfilePool] and [MemPool] do the same to the term table and
    the posting writer: whatever the postings and whatever the limit,
    [TempfilePool.finish] leaves them as [MemPool.finish] does after the
    same [add_posting] calls, and raises the exception [MemPool.finish]
    raises if it raises one.  The directory given to the pool, if one is
    given, exists. *)
Theorem tempfilepool_agrees_with_mempool (ps : list Posting) (limitmb : Z)
    (d : option string) (fs : filesystem) (w : world) :
  (∀ d', d = Some d' → is_Some (fs !! d')) →
  ∃ self fs1,
    add_postings ps (init limitmb d) fs = Ok (self, fs1)
    ∧ match (MemPool.finish w0 wadd schema getlength
                (MemPool.add_postings ps MemPool.init) w).2 with
      | (w', None) =>
          ∃ self' fs2,
            finish w0 wadd gen_addr schema getlength self fs1 w = Ok (self', fs2, w')
      | (_, Some e) =>
          finish w0 wadd gen_addr schema getlength self fs1 w = Raise e
      end.
Proof.
  intros Hd.
  destruct (add_postings_inv [] ps _ fs (init_inv limitmb d fs Hd))
    as (self & fs1 & Hadd & Hinv).
  destruct (finish_postiter_inv gen_addr _ _ _ Hinv) as (self' & fs2 & Hfin).
  exists self, fs1. split; [done|].
  unfold MemPool.finish, finish. simpl.
  rewrite mempool_add_postings, Hfin. simpl.
  destruct (remove_runs_total (run_filenames self') fs2) as (fs3 & Hrm & _).
  destruct ps as [|p ps]; simpl.
  - unfold cleanup. rewrite Hrm. simpl. eauto.
  - destruct (write_postings w0 wadd schema getlength (merge_sort cle (p :: ps)) 1 w)
      as [w' [e|]]; simpl; [done|].
    unfold cleanup. rewrite Hrm. simpl. eauto.
Qed.

End pools_agree.

(** * Facts about [MultiReader] *)

Section document_addressing.
Import Reading.

(** The running sums [base] takes in [__init__]. *)
Fixpoint prefix_sums (readers : list IndexReader) (base : Z) : list Z :=
  match readers with
  | [] => []
  | r :: readers' => base :: prefix_sums readers' (base + doc_count_all r)
  end.

Definition doc_count_total (readers : list IndexReader) : Z :=
  foldr Z.add 0 (doc_count_all <$> readers).

Lemma init_offsets_prefix_sums readers doc_offsets base :
  init_offsets readers doc_offsets base = doc_offsets ++ prefix_sums readers base.
Proof.
  revert doc_offsets base.
  induction readers as [|r readers IH]; intros doc_offsets base; simpl.
  - by rewrite app_nil_r.
  - by rewrite IH, <-app_assoc.
Qed.

Lemma doc_count_total_cons r readers :
  doc_count_total (r :: readers) = doc_count_all r + doc_count_total readers.
Proof. reflexivity. Qed.

Lemma prefix_sums_lookup readers base i :
  (i < length readers)%nat →
  prefix_sums readers base !! i = Some (base + doc_count_total (take i readers)).
Proof.
  revert base i. induction readers as [|r readers IH]; intros base i Hi; simpl in *.
  - lia.
  - destruct i as [|i]; simpl.
    + f_equal. change (doc_count_total []) with 0. lia.
    + rewrite IH by lia. f_equal. rewrite doc_count_total_cons. lia.
Qed.

Lemma prefix_sums_above readers base :
  Forall (λ r, 0 ≤ doc_count_all r) readers →
  Forall (Z.le base) (prefix_sums readers base).
Proof.
  revert base. induction readers as [|r readers IH]; intros base Hpos; simpl.
  - constructor.
  - apply Forall_cons in Hpos as [Hr Hpos]. constructor; [lia|].
    eapply Forall_impl; [by apply IH|]. simpl. lia.
Qed.

Lemma prefix_sums_sorted readers base :
  Forall (λ r, 0 ≤ doc_count_all r) readers →
  StronglySorted Z.le (prefix_sums readers base).
Proof.
  revert base. induction readers as [|r readers IH]; intros base Hpos; simpl.
  - constructor.
  - pose proof (prefix_sums_above (r :: readers) base Hpos) as Habove.
    apply Forall_cons in Hpos as [Hr Hpos]. simpl in Habove.
    apply Forall_cons in Habove as [_ Habove].
    constructor; [by apply IH|done].
Qed.

Lemma sorted_lookup_le (a : list Z) (i j : nat) (x y : Z) :
  StronglySorted Z.le a → (i ≤ j)%nat →
  a !! i = Some x → a !! j = Some y → x ≤ y.
Proof.
  intros Hs. revert i j. induction Hs as [|z a Hs IH Hall]; intros i j Hij Hi Hj.
  - done.
  - destruct i as [|i], j as [|j]; simpl in *.
    + injection Hi as <-. injection Hj as <-. lia.
    + injection Hi as <-. rewrite Forall_forall in Hall. apply Hall.
      by eapply list_elem_of_lookup_2.
    + lia.
    + apply (IH i j); [lia|done..].
Qed.

(** ** The binary search *)

Lemma bisect_right_loop_spec (a : list Z) (x : Z) (lo hi : nat) :
  StronglySorted Z.le a →
  (lo ≤ hi ≤ length a)%nat →
  (∀ k y, (k < lo)%nat → a !! k = Some y → y ≤ x) →
  (∀ k y, (hi ≤ k)%nat → a !! k = Some y → x < y) →
  ∃ p, bisect_right_loop a x lo hi = Ok p
       ∧ (lo ≤ p ≤ hi)%nat
       ∧ (∀ k y, (k < p)%nat → a !! k = Some y → y ≤ x)
       ∧ (∀ k y, (p ≤ k)%nat → a !! k = Some y → x < y).
Proof.
  intros Hs. funelim (bisect_right_loop a x lo hi); intros Hrange Hlo Hhi.
  - (* lo >= hi *)
    exists lo. split_and!; [done|lia|lia|done|].
    intros k y Hk. apply Hhi. lia.
  - (* a[mid] is out of range: it is not *)
    apply lookup_ge_None in Heq.
    assert ((lo + hi) / 2 < hi)%nat by (apply Nat.Div0.div_lt_upper_bound; lia).
    lia.
  - (* x < a[mid] *)
    assert (lo ≤ (lo + hi) / 2 < hi)%nat as Hmid
      by (split; [apply Nat.div_le_lower_bound
                 |apply Nat.Div0.div_lt_upper_bound]; lia).
    destruct H as (p & Hp & Hpr & Hbelow & Habove); [done|lia|done| |].
    { intros k z Hk Hz. pose proof (sorted_lookup_le a _ _ _ _ Hs Hk Heq0 Hz). lia. }
    exists p. split_and!; [done|lia|lia|done..].
  - (* a[mid] <= x *)
    assert (lo ≤ (lo + hi) / 2 < hi)%nat as Hmid
      by (split; [apply Nat.div_le_lower_bound
                 |apply Nat.Div0.div_lt_upper_bound]; lia).
    destruct H as (p & Hp & Hpr & Hbelow & Habove); [done|lia| |done|].
    { intros k z Hk Hz.
      assert (k ≤ (lo + hi) / 2)%nat as Hk' by lia.
      pose proof (sorted_lookup_le a _ _ _ _ Hs Hk' Hz Heq0). lia. }
    exists p. split_and!; [done|lia|lia|done..].
Qed.

Lemma bisect_right_spec (a : list Z) (x : Z) :
  StronglySorted Z.le a →
  ∃ p, bisect_right a x = Ok p
       ∧ (p ≤ length a)%nat
       ∧ (∀ k y, (k < p)%nat → a !! k = Some y → y ≤ x)
       ∧ (∀ k y, (p ≤ k)%nat → a !! k = Some y → x < y).
Proof.
  intros Hs. unfold bisect_right.
  destruct (bisect_right_loop_spec a x 0 (length a) Hs) as (p & Hp & ? & ? & ?).
  - lia.
  - intros; lia.
  - intros k y Hk Hy. apply lookup_lt_Some in Hy. lia.
  - exists p. split_and!; [done|lia|done..].
Qed.

(** The offsets [__init__] computes are the prefix sums of the document
    counts. *)
Lemma init_doc_offsets (readers : list IndexReader) :
  doc_offsets (init readers) = prefix_sums readers 0.
Proof. unfold init. simpl. by rewrite init_offsets_prefix_sums. Qed.

(** C7.  With the offsets the prefix sums of the segments' document
    counts, a document number [d] in [0 .. total-1] is mapped to
    [(i, d - doc_offsets[i])] for the rightmost [i] with
    [doc_offsets[i] <= d]; for the counts [3, 5, 2], 7 goes to [(1, 4)],
    0 to [(0, 0)] and 9 to [(2, 1)]. *)
Theorem segment_and_docnum_rightmost :
  (∀ (readers : list IndexReader) (d : Z),
     Forall (λ r, 0 ≤ doc_count_all r) readers →
     0 ≤ d < doc_count_total readers →
     (∀ i, (i < length readers)%nat →
           doc_offsets (init readers) !! i = Some (doc_count_total (take i readers)))
     ∧ ∃ (i : nat) (off : Z),
         segment_and_docnum (init readers) d = Ok (Z.of_nat i, d - off)
         ∧ doc_offsets (init readers) !! i = Some off
         ∧ off ≤ d
         ∧ ∀ j off', doc_offsets (init readers) !! j = Some off' →
                     off' ≤ d → (j ≤ i)%nat)
  ∧ (let readers := [Build_IndexReader 3; Build_IndexReader 5; Build_IndexReader 2] in
     segment_and_docnum (init readers) 7 = Ok (1, 4)
     ∧ segment_and_docnum (init readers) 0 = Ok (0, 0)
     ∧ segment_and_docnum (init readers) 9 = Ok (2, 1)).
Proof.
  split; [|by vm_compute].
  intros readers d Hpos Hd. rewrite init_doc_offsets. split.
  { intros i Hi. by rewrite prefix_sums_lookup. }
  unfold segment_and_docnum, document_segment. rewrite init_doc_offsets.
  pose proof (prefix_sums_sorted readers 0 Hpos) as Hs.
  destruct (bisect_right_spec (prefix_sums readers 0) d Hs)
    as (p & -> & Hlen & Hbelow & Habove).
  simpl.
  assert (0 < p)%nat as Hp.
  { destruct p as [|p]; [|lia]. exfalso.
    destruct readers as [|r readers]; [unfold doc_count_total in Hd; simpl in Hd; lia|].
    specialize (Habove 0%nat 0 ltac:(lia) eq_refl). lia. }
  replace (Z.max 0 (Z.of_nat p - 1)) with (Z.of_nat (p - 1)) by lia.
  rewrite Nat2Z.id.
  destruct (prefix_sums readers 0 !! (p - 1)%nat) as [off|] eqn:Hoff.
  - exists (p - 1)%nat, off. split_and!; [done|done| |].
    + apply (Hbelow (p - 1)%nat); [lia|done].
    + intros j off' Hj Hle. destruct (decide (j ≤ p - 1)%nat); [done|].
      specialize (Habove j off' ltac:(lia) Hj). lia.
  - apply lookup_ge_None in Hoff. lia.
Qed.

Lemma segment_and_docnum_rightmost_witness :
  let readers := [Build_IndexReader 3; Build_IndexReader 5; Build_IndexReader 2] in
  ∃ (i : nat) (off : Z),
    segment_and_docnum (init readers) 7 = Ok (Z.of_nat i, 7 - off)
    ∧ doc_offsets (init readers) !! i = Some off
    ∧ off ≤ 7
    ∧ ∀ j off', doc_offsets (init readers) !! j = Some off' →
                off' ≤ 7 → (j ≤ i)%nat.
Proof.
  simpl.
  apply (proj1 segment_and_docnum_rightmost
           [Build_IndexReader 3; Build_IndexReader 5; Build_IndexReader 2] 7).
  - repeat constructor; simpl; lia.
  - vm_compute. split; [by intros [=]|reflexivity].
Defined.

End document_addressing.

(** ** Merging the term iterators *)

Section merge_iters_facts.
Import Reading.
Context {F : Type} `{CmpPreOrder F}.

Lemma merge_iters_init_stops (iterlist : list (generator (term (F:=F))))
    (current : list entry) (it : generator term) :
  it ∈ iterlist → gen_rest it = [] → merge_iters_init iterlist current = None.
Proof.
  intros Hin Hempty. revert current.
  induction iterlist as [|it' iterlist IH]; intros current; [by inv Hin|].
  simpl. apply elem_of_cons in Hin as [<-|Hin].
  - unfold next. by rewrite Hempty.
  - destruct (next it') as [[[[[fnum text] docfreq] termcount] it'']|]; [|done].
    by apply IH.
Qed.

(** C6 (what the code does).  When one of the term iterators is empty,
    the unguarded [it.next()] that fills the heap ends the merged iterator:
    it yields nothing, whatever the other iterators hold. *)
Theorem merge_iters_empty_iterator_yields_nothing
    (iterlist : list (generator (term (F:=F)))) (it : generator term) :
  it ∈ iterlist → gen_rest it = [] → merge_iters iterlist = ([], None).
Proof.
  intros Hin Hempty. unfold merge_iters.
  by rewrite (merge_iters_init_stops iterlist [] it).
Qed.

End merge_iters_facts.

(** The example of the specification: two segments that both hold the
    term are merged into one record with the sums. *)
Example merge_iters_fox :
  Reading.merge_iters
    [Generator 0 [("title", "fox", 2, 5)]; Generator 1 [("title", "fox", 1, 1)]]%string
  = ([("title", "fox", 3, 6)]%string, None).
Proof. vm_compute. reflexivity. Qed.

Lemma merge_iters_empty_iterator_yields_nothing_witness :
  Reading.merge_iters
    [Generator 0 [("title", "fox", 2, 5)]; Generator 1 []]%string
  = ([], None).
Proof.
  apply (merge_iters_empty_iterator_yields_nothing
           [Generator 0 [("title", "fox", 2, 5)]; Generator 1 []]%string
           (Generator 1 [])).
  - apply elem_of_cons. right. apply elem_of_cons. by left.
  - reflexivity.
Defined.

(** ** What [_merge_iters] yields when no iterator is empty *)

Section merge_iters_aggregation.
Import Reading.
Context {F : Type} `{CmpOrder F}.

Local Abbreviation term := (term (F:=F)).
Local Abbreviation entry := (term * generator term)%type.

Lemma merge_same_stop fnum text docfreq termcount (e : entry) current active :
  py_eq e.1.1.1.1 fnum && py_eq e.1.1.1.2 text = false →
  merge_same fnum text docfreq termcount (e :: current) active
  = (docfreq, termcount, e :: current, active).
Proof.
  destruct e as [[[[fn0 t0] df0] tc0] it]. simpl. intros Heq.
  simp merge_same. by rewrite Heq.
Qed.

Lemma merge_same_next fnum text docfreq termcount (e : entry) current active x it' :
  py_eq e.1.1.1.1 fnum && py_eq e.1.1.1.2 text = true →
  next e.2 = Some (x, it') →
  merge_same fnum text docfreq termcount (e :: current) active
  = merge_same fnum text (docfreq + e.1.1.2) (termcount + e.1.2)
      (heappush current (x, it')) active.
Proof.
  destruct e as [[[[fn0 t0] df0] tc0] it]. simpl. intros Heq Hnext.
  simp merge_same. rewrite Heq. simpl.
  destruct (next it) as [[[[[fn t] df] tc] it'']|] eqn:E; simplify_eq/=. done.
Qed.

Lemma merge_same_exhausted fnum text docfreq termcount (e : entry) current active :
  py_eq e.1.1.1.1 fnum && py_eq e.1.1.1.2 text = true →
  next e.2 = None →
  merge_same fnum text docfreq termcount (e :: current) active
  = merge_same fnum text (docfreq + e.1.1.2) (termcount + e.1.2)
      current (active - 1).
Proof.
  destruct e as [[[[fn0 t0] df0] tc0] it]. simpl. intros Heq Hnext.
  simp merge_same. rewrite Heq. simpl.
  destruct (next it) as [[[[[fn t] df] tc] it'']|] eqn:E; simplify_eq/=. done.
Qed.

Lemma merge_iters_loop_done (current : list entry) active :
  ¬ active > 0 → merge_iters_loop current active = ([], None).
Proof. intros Hle. simp merge_iters_loop. by destruct (decide (active > 0)). Qed.

Lemma merge_iters_loop_step (e : entry) (current : list entry) active :
  active > 0 →
  merge_iters_loop (e :: current) active
  = let r := merge_same e.1.1.1.1 e.1.1.1.2 0 0 (e :: current) active in
    let rest := merge_iters_loop r.1.2 r.2 in
    ((e.1.1.1.1, e.1.1.1.2, r.1.1.1, r.1.1.2) :: rest.1, rest.2).
Proof.
  intros Hpos. destruct e as [[[[fnum text] df0] tc0] it].
  simp merge_iters_loop. destruct (decide (active > 0)); [|done]. simpl.
  by destruct (merge_same fnum text 0 0 _ active) as [[[df tc] cur1] a1] eqn:E.
Qed.

(** The key of a term, and the terms in strictly ascending key order. *)
Definition key_of (x : term) : F * string := x.1.1.
Definition key_lt (x y : term) : Prop := cmp (key_of x) (key_of y) = Lt.

#[local] Instance key_eq_dec : EqDecision (F * string).
Proof.
  intros a b. destruct (cmp a b) eqn:E.
  - left. by apply cmp_eq.
  - right. intros ->. by rewrite cmp_refl in E.
  - right. intros ->. by rewrite cmp_refl in E.
Defined.

#[local] Instance key_lt_trans : Transitive key_lt.
Proof.
  intros x y z Hxy Hyz. unfold key_lt in *.
  eapply Lt_cle_trans; [done|]. by apply cmp_Lt_cle.
Qed.

Definition sumZ (l : list Z) : Z := foldr Z.add 0 l.

(** The sums of [docfreq] and of [termcount] over the terms with key [k]. *)
Definition sum_docfreq (k : F * string) (xs : list term) : Z :=
  sumZ ((λ x : term, x.1.2) <$> filter (λ x, key_of x = k) xs).
Definition sum_termcount (k : F * string) (xs : list term) : Z :=
  sumZ ((λ x : term, x.2) <$> filter (λ x, key_of x = k) xs).

(** The one record the merge yields for the key [k]. *)
Definition aggregated (k : F * string) (xs : list term) : term :=
  (k, sum_docfreq k xs, sum_termcount k xs).

(** [out] is the aggregation of [xs]: strictly ascending keys, and the
    records of [out] are the aggregated records of the keys of [xs]. *)
Definition aggregation (out xs : list term) : Prop :=
  Sorted key_lt out
  ∧ ∀ x, x ∈ out ↔ ∃ y, y ∈ xs ∧ x = aggregated (key_of y) xs.

Definition chain_strict (e : entry) : Prop := Sorted key_lt (e.1 :: gen_rest e.2).

Lemma sumZ_perm (l1 l2 : list Z) : l1 ≡ₚ l2 → sumZ l1 = sumZ l2.
Proof. unfold sumZ. induction 1; simpl; lia. Qed.

Lemma sum_docfreq_perm k (xs ys : list term) :
  xs ≡ₚ ys → sum_docfreq k xs = sum_docfreq k ys.
Proof. intros Hp. unfold sum_docfreq. apply sumZ_perm. by rewrite Hp. Qed.

Lemma sum_termcount_perm k (xs ys : list term) :
  xs ≡ₚ ys → sum_termcount k xs = sum_termcount k ys.
Proof. intros Hp. unfold sum_termcount. apply sumZ_perm. by rewrite Hp. Qed.

Lemma aggregated_perm k (xs ys : list term) :
  xs ≡ₚ ys → aggregated k xs = aggregated k ys.
Proof.
  intros Hp. unfold aggregated.
  by rewrite (sum_docfreq_perm k xs ys Hp), (sum_termcount_perm k xs ys Hp).
Qed.

Lemma aggregation_perm (out xs ys : list term) :
  xs ≡ₚ ys → aggregation out xs → aggregation out ys.
Proof.
  intros Hp [Hs Hout]. split; [done|]. intros x. rewrite Hout.
  split; intros (y & Hy & ->); exists y.
  - split; [by rewrite <-Hp|by apply aggregated_perm].
  - split; [by rewrite Hp|symmetry; by apply aggregated_perm].
Qed.

(** Dropping the terms of another key changes nothing for the key [k]. *)
Lemma filter_other_key k k' (xs : list term) :
  k ≠ k' →
  filter (λ x, key_of x = k) (filter (λ x, key_of x ≠ k') xs)
  = filter (λ x, key_of x = k) xs.
Proof.
  intros Hne. induction xs as [|x xs IH]; [done|].
  destruct (decide (key_of x = k')) as [Hx|Hx].
  - rewrite (filter_cons_False (λ x, key_of x ≠ k')) by (by intros ?).
    rewrite IH, (filter_cons_False (λ x, key_of x = k)); [done|]. congruence.
  - rewrite (filter_cons_True (λ x, key_of x ≠ k')) by done.
    destruct (decide (key_of x = k)).
    + rewrite !(filter_cons_True (λ x, key_of x = k)) by done. by rewrite IH.
    + rewrite !(filter_cons_False (λ x, key_of x = k)) by done. by rewrite IH.
Qed.

Lemma aggregated_other_key k k' (xs : list term) :
  k ≠ k' → aggregated k (filter (λ x, key_of x ≠ k') xs) = aggregated k xs.
Proof.
  intros Hne. unfold aggregated, sum_docfreq, sum_termcount.
  by rewrite filter_other_key.
Qed.

Lemma filter_key_above k (xs : list term) :
  Forall (λ x, cmp k (key_of x) = Lt) xs →
  filter (λ x, key_of x = k) xs = [] ∧ filter (λ x, key_of x ≠ k) xs = xs.
Proof.
  induction 1 as [|x xs Hx _ [IH1 IH2]]; [done|].
  assert (key_of x ≠ k) by (intros Hk; by rewrite Hk, cmp_refl in Hx).
  rewrite filter_cons_False, filter_cons_True by (done || by intros ?).
  by rewrite IH1, IH2.
Qed.

Lemma py_eq_key (x : term) (k : F * string) :
  py_eq x.1.1.1 k.1 && py_eq x.1.1.2 k.2 = bool_decide (key_of x = k).
Proof.
  destruct x as [[[fn t] df] tc], k as [fnum text]. unfold key_of, py_eq. simpl.
  destruct (cmp fn fnum) eqn:Hf; simpl.
  - apply cmp_eq in Hf as ->. destruct (cmp t text) eqn:Ht.
    + apply cmp_eq in Ht as ->. by rewrite bool_decide_true.
    + rewrite bool_decide_false; [done|]. intros [= ->]. by rewrite cmp_refl in Ht.
    + rewrite bool_decide_false; [done|]. intros [= ->]. by rewrite cmp_refl in Ht.
  - rewrite bool_decide_false; [done|]. intros [= -> ->]. by rewrite cmp_refl in Hf.
  - rewrite bool_decide_false; [done|]. intros [= -> ->]. by rewrite cmp_refl in Hf.
Qed.

Lemma prod_cle_fst {A B} `{Cmp A, Cmp B} (p q : A * B) : cle p q → cle p.1 q.1.
Proof.
  unfold cle. intros Hpq Hgt. apply Hpq.
  unfold cmp at 1, prod_cmp. by rewrite Hgt.
Qed.

Lemma entry_cle_key (e1 e2 : entry) : cle e1 e2 → cle (key_of e1.1) (key_of e2.1).
Proof. intros He. unfold key_of. by do 3 apply prod_cle_fst. Qed.

Lemma chain_strict_above (e : entry) :
  chain_strict e → Forall (λ x, cle (key_of e.1) (key_of x)) (e.1 :: gen_rest e.2).
Proof.
  intros Hc. constructor; [apply cle_Reflexive|].
  apply Sorted_StronglySorted in Hc; [|apply _].
  apply StronglySorted_inv in Hc as [_ Hall].
  eapply Forall_impl; [done|]. intros x Hx. by apply cmp_Lt_cle.
Qed.

Lemma heap_keys_above (e : entry) (current : list entry) :
  Sorted cle (e :: current) → Forall chain_strict (e :: current) →
  Forall (λ x, cle (key_of e.1) (key_of x)) (items_of (e :: current)).
Proof.
  intros Hs Hc. pose proof (sorted_head_least _ _ Hs) as Hleast.
  assert (Forall (λ e', cle (key_of e.1) (key_of e'.1)) (e :: current)) as Hheads.
  { constructor; [apply cle_Reflexive|].
    eapply Forall_impl; [done|]. intros e' He'. by apply entry_cle_key. }
  clear Hs Hleast. unfold items_of.
  induction Hc as [|e' es He' _ IH]; simpl; [done|].
  apply Forall_cons in Hheads as [Hhead Hheads].
  apply (Forall_app _ (e'.1 :: gen_rest e'.2)). split; [|by apply IH].
  eapply Forall_impl; [by apply chain_strict_above|].
  intros x Hx. simpl in Hx. by etrans.
Qed.

Lemma sum_docfreq_cons k (x : term) xs :
  sum_docfreq k (x :: xs)
  = (if decide (key_of x = k) then x.1.2 else 0) + sum_docfreq k xs.
Proof.
  unfold sum_docfreq. case_decide.
  - by rewrite filter_cons_True.
  - by rewrite filter_cons_False.
Qed.

Lemma sum_termcount_cons k (x : term) xs :
  sum_termcount k (x :: xs)
  = (if decide (key_of x = k) then x.2 else 0) + sum_termcount k xs.
Proof.
  unfold sum_termcount. case_decide.
  - by rewrite filter_cons_True.
  - by rewrite filter_cons_False.
Qed.

Lemma items_of_cons (e : entry) (current : list entry) :
  items_of (e :: current) = e.1 :: gen_rest e.2 ++ items_of current.
Proof. reflexivity. Qed.

Local Ltac tuple_lia :=
  repeat match goal with |- (_, _) = (_, _) => f_equal end; try done;
  unfold Reading.entry, Reading.term in *; lia.

(** The inner loop: it adds up the terms of key [k], all at the top of the
    heap, and leaves the terms of greater keys. *)
Lemma merge_same_spec (k : F * string) (n : nat) :
  ∀ (current : list entry) (docfreq termcount active : Z),
    (pending current < n)%nat →
    Sorted cle current → Forall chain_strict current →
    Forall (λ x, cle k (key_of x)) (items_of current) →
    ∃ current1,
      merge_same k.1 k.2 docfreq termcount current active
      = (docfreq + sum_docfreq k (items_of current),
         termcount + sum_termcount k (items_of current),
         current1,
         active - (Z.of_nat (length current) - Z.of_nat (length current1)))
      ∧ Sorted cle current1 ∧ Forall chain_strict current1
      ∧ items_of current1 ≡ₚ filter (λ x, key_of x ≠ k) (items_of current)
      ∧ Forall (λ x, cmp k (key_of x) = Lt) (items_of current1).
Proof.
  induction n as [|n IH]; intros current docfreq termcount active Hn Hs Hc Hk;
    [lia|].
  destruct current as [|e current].
  { exists []. simp merge_same. split_and!; try done.
    unfold sum_docfreq, sum_termcount. simpl. tuple_lia. }
  pose proof (py_eq_key e.1 k) as Hpy.
  pose proof Hk as Hk'. rewrite items_of_cons in Hk'.
  apply Forall_cons in Hk' as [Hhead Hrest].
  apply Forall_cons in Hc as [Hce Hcs].
  pose proof Hs as Hs'. apply Sorted_inv in Hs' as [Hs' _].
  case_bool_decide as Hkey.
  - (* the top of the heap has the key *)
    assert (filter (λ x, key_of x ≠ k) (items_of (e :: current))
            = filter (λ x, key_of x ≠ k) (gen_rest e.2 ++ items_of current))
      as Hfilter.
    { rewrite items_of_cons, filter_cons_False; [done|]. by intros ?. }
    destruct (next e.2) as [[x it']|] eqn:Hnext.
    + apply next_Some in Hnext as Hit. destruct Hit as [Hit _].
      rewrite (merge_same_next _ _ _ _ e current active x it' Hpy Hnext).
      assert (items_of (heappush current (x, it'))
              ≡ₚ gen_rest e.2 ++ items_of current) as Hitems.
      { rewrite (items_of_perm _ _ (heappush_perm _ _)), items_of_cons.
        simpl. by rewrite Hit. }
      destruct (IH (heappush current (x, it')) (docfreq + e.1.1.2)
                  (termcount + e.1.2) active) as (current1 & -> & ? & ? & Hp & ?).
      * pose proof (entries_pending_heappush current (x, it')) as Hpush.
        unfold pending, Reading.entry, Reading.term in *. simpl in *.
        rewrite Hit in Hn. simpl in Hn. lia.
      * by apply heappush_sorted.
      * rewrite heappush_perm. constructor; [|done].
        unfold chain_strict in *. simpl. rewrite Hit in Hce.
        by apply Sorted_inv in Hce as [? _].
      * by rewrite Hitems.
      * exists current1. split_and!; try done; [|by rewrite Hp, Hitems, Hfilter].
        rewrite (sum_docfreq_perm _ _ _ Hitems), (sum_termcount_perm _ _ _ Hitems).
        rewrite items_of_cons, sum_docfreq_cons, sum_termcount_cons.
        rewrite !decide_True by done.
        rewrite (Permutation_length (heappush_perm current (x, it'))).
        simpl. tuple_lia.
    + apply next_None in Hnext as Hit.
      rewrite (merge_same_exhausted _ _ _ _ e current active Hpy Hnext).
      rewrite Hit in Hrest, Hfilter. simpl in Hrest, Hfilter.
      destruct (IH current (docfreq + e.1.1.2) (termcount + e.1.2) (active - 1))
        as (current1 & -> & ? & ? & Hp & ?); [|done..|].
      * unfold pending in *. simpl in *. lia.
      * exists current1. split_and!; try done; [|by rewrite Hp, Hfilter].
        rewrite items_of_cons, sum_docfreq_cons, sum_termcount_cons, Hit.
        rewrite !decide_True by done. simpl. tuple_lia.
  - (* the top of the heap has a greater key: so has everything else *)
    rewrite (merge_same_stop _ _ _ _ e current active Hpy).
    assert (cmp k (key_of e.1) = Lt) as Hlt.
    { destruct (cmp k (key_of e.1)) eqn:E; [|done|done].
      apply cmp_eq in E. by subst. }
    assert (Forall (λ x, cmp k (key_of x) = Lt) (items_of (e :: current))) as Habove.
    { eapply Forall_impl; [apply heap_keys_above; [done|by constructor]|].
      intros x Hx. simpl in Hx. by eapply Lt_cle_trans. }
    destruct (filter_key_above k _ Habove) as [Hnone Hall].
    exists (e :: current). split_and!; try done; [|by constructor|by rewrite Hall].
    unfold sum_docfreq, sum_termcount, sumZ. rewrite Hnone. simpl.
    tuple_lia.
Qed.

End merge_iters_aggregation.

Section merge_iters_outer.
Import Reading.
Context {F : Type} `{CmpOrder F}.

Local Abbreviation term := (term (F:=F)).
Local Abbreviation entry := (term * generator term)%type.
#[local] Existing Instance key_eq_dec.
#[local] Existing Instance key_lt_trans.

Lemma aggregation_nil : aggregation (F:=F) [] [].
Proof.
  split; [constructor|]. intros x. split.
  - by intros ?%elem_of_nil.
  - by intros (y & ?%elem_of_nil & _).
Qed.

(** One round of the outer loop: the record of the least key [k], then
    the aggregation of the terms of the other keys, all greater. *)
Lemma aggregation_cons (k : F * string) (out1 xs xs1 : list term) :
  (∃ y, y ∈ xs ∧ key_of y = k) →
  xs1 ≡ₚ filter (λ x, key_of x ≠ k) xs →
  Forall (λ x, cmp k (key_of x) = Lt) xs1 →
  aggregation out1 xs1 →
  aggregation (aggregated k xs :: out1) xs.
Proof.
  intros (y0 & Hy0 & Hk0) Hp Habove [Hs Hout].
  assert (∀ y, y ∈ xs1 → aggregated (key_of y) xs1 = aggregated (key_of y) xs)
    as Hsame.
  { intros y Hy. rewrite (aggregated_perm _ _ _ Hp).
    apply aggregated_other_key. intros Hk.
    rewrite Forall_forall in Habove. specialize (Habove y Hy).
    by rewrite Hk, cmp_refl in Habove. }
  split.
  - constructor; [done|]. destruct out1 as [|x out1]; constructor.
    destruct (proj1 (Hout x) ltac:(by left)) as (y & Hy & ->).
    rewrite Forall_forall in Habove. exact (Habove y Hy).
  - intros x. rewrite elem_of_cons, Hout. split.
    + intros [->|(y & Hy & ->)].
      * exists y0. by rewrite Hk0.
      * exists y. split; [|by apply Hsame].
        rewrite Hp in Hy. by apply list_elem_of_filter in Hy as [_ ?].
    + intros (y & Hy & ->). destruct (decide (key_of y = k)) as [->|Hne].
      * by left.
      * right. assert (y ∈ xs1) as Hy1.
        { rewrite Hp. by apply list_elem_of_filter. }
        exists y. split; [done|]. symmetry. by apply Hsame.
Qed.

Lemma merge_iters_loop_spec (n : nat) :
  ∀ current : list entry,
    (pending current < n)%nat →
    Sorted cle current → Forall chain_strict current →
    ∃ out,
      merge_iters_loop current (Z.of_nat (length current)) = (out, None)
      ∧ aggregation out (items_of current).
Proof.
  induction n as [|n IH]; intros current Hn Hs Hc; [lia|].
  destruct current as [|e current].
  { exists []. rewrite merge_iters_loop_done by (simpl; lia).
    split; [done|apply aggregation_nil]. }
  rewrite merge_iters_loop_step by (simpl; lia).
  destruct (merge_same_spec (key_of e.1) (S (pending (e :: current)))
              (e :: current) 0 0 (Z.of_nat (length (e :: current))))
    as (current1 & Hsame & Hs1 & Hc1 & Hp1 & Habove1);
    [lia|done|done|by apply heap_keys_above|].
  assert (py_eq e.1.1.1.1 (key_of e.1).1 && py_eq e.1.1.1.2 (key_of e.1).2 = true)
    as Hpy by (by rewrite py_eq_key, bool_decide_true).
  pose proof (merge_same_progress (key_of e.1).1 (key_of e.1).2 0 0 e current
                (Z.of_nat (length (e :: current))) Hpy) as Hless.
  change (key_of e.1).1 with e.1.1.1.1 in Hsame, Hless.
  change (key_of e.1).2 with e.1.1.1.2 in Hsame, Hless.
  assert (pending current1 < pending (e :: current))%nat as Hless1.
  { pose proof (f_equal (λ r : Z * Z * list entry * Z, r.1.2) Hsame) as Hcur.
    simpl in Hcur. rewrite <-Hcur. exact Hless. }
  clear Hless. rewrite Hsame. simpl.
  destruct (IH current1) as (out1 & Hloop1 & Hagg1); [lia|done..|].
  match goal with |- context [merge_iters_loop current1 ?a] =>
    replace a with (Z.of_nat (length current1))
      by (unfold Reading.entry, Reading.term in *; lia)
  end.
  match goal with |- context [merge_iters_loop current1 ?a] =>
    assert (merge_iters_loop current1 a = (out1, None)) as -> by exact Hloop1
  end.
  simpl. eexists. split; [done|].
  destruct e as [[[[fnum text] df0] tc0] it].
  apply (aggregation_cons (fnum, text) out1 _ (items_of current1));
    [|done..].
  exists (fnum, text, df0, tc0). split; [|done]. rewrite items_of_cons. by left.
Qed.

Lemma merge_iters_init_spec (iterlist : list (generator term))
    (current : list entry) :
  Forall (λ it, gen_rest it ≠ [] ∧ Sorted key_lt (gen_rest it)) iterlist →
  Forall chain_strict current →
  ∃ current',
    merge_iters_init iterlist current = Some current'
    ∧ items_of current' = items_of current ++ concat (gen_rest <$> iterlist)
    ∧ Forall chain_strict current'.
Proof.
  intros Hits. revert current.
  induction Hits as [|it iterlist [Hne Hsorted] _ IH]; intros current Hc; simpl.
  { exists current. by rewrite app_nil_r. }
  destruct (next it) as [[x it']|] eqn:Hnext;
    [|apply next_None in Hnext; done].
  apply next_Some in Hnext as [Hrest _].
  destruct x as [[[fnum text] docfreq] termcount].
  destruct (IH (current ++ [(fnum, text, docfreq, termcount, it')]))
    as (current' & Hinit & Hitems & Hc').
  { apply Forall_app. split; [done|]. constructor; [|done].
    unfold chain_strict. simpl. by rewrite <-Hrest. }
  exists current'. split_and!; [exact Hinit| |done].
  rewrite Hitems, items_of_app, Hrest, <-app_assoc. unfold items_of at 2. simpl.
  by rewrite app_nil_r.
Qed.

(** X29.  When no iterator is empty and each yields its terms in strictly
    ascending key order, [_merge_iters] yields one record for every key
    present in some iterator, in ascending key order, with the sums of
    [docfreq] and of [termcount] over the iterators that hold the key. *)
Theorem merge_iters_aggregates (iterlist : list (generator term)) :
  Forall (λ it, gen_rest it ≠ [] ∧ Sorted key_lt (gen_rest it)) iterlist →
  ∃ out,
    merge_iters iterlist = (out, None)
    ∧ aggregation out (concat (gen_rest <$> iterlist)).
Proof.
  intros Hits. unfold merge_iters.
  destruct (merge_iters_init_spec iterlist [] Hits)
    as (current & Hinit & Hitems & Hc); [done|].
  match goal with |- context [merge_iters_init ?a ?b] =>
    replace (merge_iters_init a b) with (Some current) by (symmetry; exact Hinit)
  end.
  destruct (merge_iters_loop_spec (S (pending (heapify current))) (heapify current))
    as (out & Hloop & Hagg).
  - lia.
  - apply heapify_sorted.
  - by rewrite heapify_perm.
  - exists out. split; [done|].
    eapply aggregation_perm; [|done].
    by rewrite (items_of_perm _ _ (heapify_perm current)), Hitems.
Qed.

End merge_iters_outer.

(** * Facts about the posting formats *)

Section fields_facts.
Import Fields.
Context {Float : Type} (of_int : Z → Float) (fadd fmul : Float → Float → Float)
        (quantize : Float → Float) (field_boost : Float).

Local Abbreviation pyval := (pyval (Float:=Float)).
Local Abbreviation stream := (stream (Float:=Float)).
Local Abbreviation round_trip := (round_trip of_int fadd quantize).
Local Abbreviation round_trip_ok := (round_trip_ok of_int fadd fmul quantize field_boost).
Local Abbreviation data_to := (data_to of_int fadd fmul field_boost).

(** ** The formats whose round trip works *)

Lemma existance_round_trip (data : pyval) : round_trip_ok Existance data.
Proof. exists PNone. split; [done|]. by intros []. Qed.

Lemma frequency_round_trip (n : Z) :
  0 ≤ n → round_trip_ok Frequency (PInt n).
Proof.
  intros Hn. exists (PInt n). split; [|done].
  unfold Fields.round_trip. simpl. by rewrite bool_decide_true.
Qed.

(** The boost comes back as one byte made it; the weight is the same when
    the byte holds the boost exactly. *)
Lemma docboosts_round_trip (n : Z) (boost : Float) :
  0 ≤ n → quantize boost = boost →
  round_trip_ok DocBoosts (PTuple [PInt n; PFloat boost]).
Proof.
  intros Hn Hq. exists (PTuple [PInt n; PFloat boost]). split; [|done].
  unfold Fields.round_trip. simpl. rewrite bool_decide_true by done. simpl.
  by rewrite Hq.
Qed.

(** The gaps [Positions.write_postvalue] writes. *)
Fixpoint gaps (pos_base : Z) (ps : list Z) : list (stream_item (Float:=Float)) :=
  match ps with
  | [] => []
  | p :: ps' => Varint (p - pos_base) :: gaps p ps'
  end.

Lemma positions_write_loop_gaps (ps : list Z) (pos_base : Z) (s : stream) :
  Sorted Z.le (pos_base :: ps) →
  positions_write_loop (PInt <$> ps) (PInt pos_base) s = Ok (s ++ gaps pos_base ps).
Proof.
  revert pos_base s. induction ps as [|p ps IH]; intros pos_base s Hs; simpl.
  - by rewrite app_nil_r.
  - apply Sorted_inv in Hs as [Hs Hhd]. apply HdRel_inv in Hhd.
    rewrite bool_decide_true by lia. simpl.
    rewrite IH by done. by rewrite <-app_assoc.
Qed.

Lemma positions_read_loop_gaps (ps : list Z) (pos_base : Z)
    (pos_list : list pyval) (rest : stream) :
  positions_read_loop of_int fadd (length ps) (PInt pos_base) pos_list
    (gaps pos_base ps ++ rest)
  = Ok (pos_list ++ (PInt <$> ps), rest).
Proof.
  revert pos_base pos_list. induction ps as [|p ps IH]; intros pos_base pos_list; simpl.
  - by rewrite app_nil_r.
  - replace (pos_base + (p - pos_base)) with p by lia.
    rewrite IH. by rewrite <-app_assoc.
Qed.

(** Ascending positions come back as they were. *)
Lemma positions_round_trip (ps : list Z) :
  Sorted Z.le (0 :: ps) → round_trip_ok Positions (PList (PInt <$> ps)).
Proof.
  intros Hs. exists (PList (PInt <$> ps)). split; [|done].
  unfold Fields.round_trip. simpl.
  rewrite bool_decide_true by lia. simpl.
  rewrite positions_write_loop_gaps by done. simpl.
  rewrite length_fmap, Nat2Z.id.
  rewrite <-(app_nil_r (gaps 0 ps)), positions_read_loop_gaps. done.
Qed.

(** ** The formats whose round trip fails *)

Lemma write_varint_Ok (v : pyval) (s s' : stream) :
  write_varint v s = Ok s' → ∃ n, v = PInt n ∧ 0 ≤ n ∧ s' = s ++ [Varint n].
Proof.
  unfold write_varint. destruct v as [|n| | |]; try done.
  case_bool_decide; [|done]. intros [= <-]. eauto.
Qed.

Lemma characters_write_loop_app (items : list pyval) (pos_base char_base : pyval)
    (s s' : stream) :
  characters_write_loop items pos_base char_base s = Ok s' → ∃ t, s' = s ++ t.
Proof.
  revert pos_base char_base s. induction items as [|item items IH];
    intros pos_base char_base s; simpl.
  - intros [= <-]. exists []. by rewrite app_nil_r.
  - destruct (unpack3 item) as [[[pos sc] ec]|]; simpl; [|done].
    destruct (py_sub pos pos_base) as [d1|]; simpl; [|done].
    destruct (write_varint d1 s) as [s1|] eqn:H1; simpl; [|done].
    destruct (py_sub sc char_base) as [d2|]; simpl; [|done].
    destruct (write_varint d2 s1) as [s2|] eqn:H2; simpl; [|done].
    destruct (py_sub ec sc) as [d3|]; simpl; [|done].
    destruct (write_varint d3 s2) as [s3|] eqn:H3; simpl; [|done].
    intros Hrest. apply IH in Hrest as [t ->].
    apply write_varint_Ok in H1 as (? & _ & _ & ->).
    apply write_varint_Ok in H2 as (? & _ & _ & ->).
    apply write_varint_Ok in H3 as (? & _ & _ & ->).
    eexists. by rewrite <-!app_assoc.
Qed.

(** Whatever [Characters.write_postvalue] wrote for a payload that is not
    empty, [Characters.read_postvalue] raises [TypeError] on it. *)
Lemma characters_round_trip_raises (data : pyval) (item : pyval)
    (items : list pyval) (s : stream) (n : pyval) :
  py_iter data = Ok (item :: items) →
  write_postvalue of_int quantize Characters [] data = Ok (s, n) →
  round_trip Characters data = Raise TypeError.
Proof.
  intros Hiter. unfold Fields.round_trip. intros Hwrite. rewrite Hwrite. simpl.
  revert Hwrite. simpl. unfold py_len. rewrite Hiter. simpl.
  destruct (unpack3 item) as [[[pos sc] ec]|]; simpl; [|done].
  destruct (py_sub pos (PInt 0)) as [d1|]; simpl; [|done].
  destruct (write_varint d1 _) as [s1|] eqn:H1; simpl; [|done].
  destruct (py_sub sc (PInt 0)) as [d2|]; simpl; [|done].
  destruct (write_varint d2 s1) as [s2|] eqn:H2; simpl; [|done].
  destruct (py_sub ec sc) as [d3|]; simpl; [|done].
  destruct (write_varint d3 s2) as [s3|] eqn:H3; simpl; [|done].
  destruct (characters_write_loop items pos ec s3) as [s4|] eqn:Hloop; simpl; [|done].
  intros [= <- <-].
  apply characters_write_loop_app in Hloop as [t ->].
  apply write_varint_Ok in H1 as (n1 & -> & _ & ->).
  apply write_varint_Ok in H2 as (n2 & -> & _ & ->).
  apply write_varint_Ok in H3 as (n3 & -> & _ & ->).
  simpl. destruct (Z.to_nat _) eqn:Hrounds; [lia|]. done.
Qed.

(** What [PositionBoosts.read_postvalue] returns is the pair
    [(freq, pos_list)], whose length is 2 whatever was written. *)
Lemma position_boosts_frequency_after_round_trip (data data' : pyval) :
  round_trip PositionBoosts data = Ok data' →
  data_to_frequency PositionBoosts data' = Ok (PInt 2).
Proof.
  unfold Fields.round_trip.
  destruct (write_postvalue _ _ _ _ _) as [[s n]|]; simpl; [|done].
  destruct (read_varint s) as [[freq s1]|]; simpl; [|done].
  destruct (xrange freq) as [rounds|]; simpl; [|done].
  destruct (position_boosts_read_loop _ _ _ _ _ _) as [[pos_list s2]|]; simpl; [|done].
  by intros [= <-].
Qed.

(** C1 (what the code does).  The round trip fails for two formats.
    [Characters.read_postvalue] raises [TypeError] on the encoding of the
    payload [[(0, 0, 5)]]; [PositionBoosts.read_postvalue] gives the empty
    payload [[]] back as [(0, [])], on which [data_to_frequency] is 2 where
    it was 0, [data_to_position_boosts] is not the payload, and
    [data_to_positions] raises [TypeError]. *)
Theorem round_trip_fails_for_characters_and_position_boosts :
  round_trip Characters (PList [PTuple [PInt 0; PInt 0; PInt 5]]) = Raise TypeError
  ∧ round_trip PositionBoosts (PList []) = Ok (PTuple [PInt 0; PList []])
  ∧ data_to PositionBoosts (PList []) frequency = Ok (PInt 0)
  ∧ data_to PositionBoosts (PTuple [PInt 0; PList []]) frequency = Ok (PInt 2)
  ∧ data_to PositionBoosts (PList []) position_boosts = Ok (PList [])
  ∧ data_to PositionBoosts (PTuple [PInt 0; PList []]) position_boosts
    = Ok (PTuple [PInt 0; PList []])
  ∧ data_to PositionBoosts (PList []) positions = Ok (PList [])
  ∧ data_to PositionBoosts (PTuple [PInt 0; PList []]) positions = Raise TypeError
  ∧ ¬ round_trip_ok Characters (PList [PTuple [PInt 0; PInt 0; PInt 5]])
  ∧ ¬ round_trip_ok PositionBoosts (PList []).
Proof.
  split_and!; try reflexivity.
  - intros (data' & Hrt & _). discriminate Hrt.
  - intros (data' & Hrt & Hsame). injection Hrt as <-.
    specialize (Hsame frequency eq_refl). discriminate Hsame.
Qed.

End fields_facts.

(** * The code on concrete inputs *)

Section examples.
Import Pools.

Lemma write_postings_lower_fieldname_accepted_witness :
  cmp ("a", "b")%string ("b", "a")%string = Lt
  ∧ ∃ w' i1 i2,
      SampleWriter.write_postings
        [("b", "a", 0, 1, None); ("a", "b", 0, 1, None)]%string = (w', None)
      ∧ termtable w'
        = [((Some "b", Some "a"), i1); ((Some "a", Some "b"), i2)]%string.
Proof.
  split; [reflexivity|].
  apply (write_postings_lower_fieldname_accepted 0 Z.add SampleWriter.schema
           SampleWriter.getlength "b" "a" "a" "b" 0 0 1 1 None None 1
           SampleWriter.world0)%string.
  - reflexivity.
  - reflexivity.
  - eexists. vm_compute. reflexivity.
  - eexists. vm_compute. reflexivity.
Defined.

Lemma write_postings_last_term_not_inline_witness :
  let postiter := [("content", "apple", 0, 1, None)]%string in
  let w' := (SampleWriter.write_postings postiter).1 in
  ∃ tt calls key weight o postcount,
    termtable w' = tt ++ [(key, (weight, BlockOffset o, postcount))]
    ∧ pw_calls w' = calls ++ [CallFinish].
Proof.
  simpl.
  eapply (write_postings_last_term_not_inline 0 Z.add SampleWriter.schema
            SampleWriter.getlength [("content", "apple", 0, 1, None)]%string
            1 SampleWriter.world0).
  - by intros [=].
  - vm_compute. reflexivity.
Defined.

(** The same single posting is stored inline when another term follows
    it, and in a block when it is the last of the stream. *)
Example single_posting_inline_unless_last :
  termtable (SampleWriter.write_postings
               [("content", "apple", 0, 1, None);
                ("content", "pear", 0, 1, None)]%string).1
  = [((Some "content", Some "apple"),
      (1, InlineData [SampleWriter.Post 0 1 None 0], 1));
     ((Some "content", Some "pear"), (1, BlockOffset 0%nat, 1))]%string
  ∧ termtable (SampleWriter.write_postings
                 [("content", "apple", 0, 1, None)]%string).1
    = [((Some "content", Some "apple"), (1, BlockOffset 0%nat, 1))]%string.
Proof. split; vm_compute; reflexivity. Qed.

Lemma write_postings_total_weight_witness :
  let postiter :=
    [("content", "apple", 0, 2, None); ("content", "apple", 1, 3, None);
     ("content", "pear", 1, 1, None)]%string in
  ∃ w' added,
    SampleWriter.write_postings postiter = (w', None)
    ∧ termtable w' = added
    ∧ entries_of ("content", "apple")%string (key_weights added)
      = [(table_key ("content", "apple")%string, 5)].
Proof.
  simpl.
  destruct (write_postings_total_weight 0 Z.add SampleWriter.schema
              SampleWriter.getlength
              [("content", "apple", 0, 2, None); ("content", "apple", 1, 3, None);
               ("content", "pear", 1, 1, None)]%string
              1 SampleWriter.world0)
    as (w' & added & Hw & Htt & Hkeys).
  - repeat constructor; done.
  - repeat constructor; eexists; vm_compute; reflexivity.
  - exists w', added. split_and!; [exact Hw|exact Htt|].
    apply (Hkeys ("content", "apple")%string). vm_compute. by intros [=].
Defined.

Lemma tempfilepool_external_sort_witness :
  let ps : list (Posting (W:=Z)) :=
    [("b", "a", 0, 1, None); ("a", "b", 0, 1, Some "xx");
     ("a", "a", 3, 1, None); ("a", "b", 0, 1, None)]%string in
  ∃ self fs1 self' fs2,
    add_postings ps (init 0 None) ∅ = Ok (self, fs1)
    ∧ finish_postiter id self fs1 = Ok (Some (merge_sort cle ps), self', fs2)
    ∧ Sorted cle (merge_sort cle ps)
    ∧ merge_sort cle ps ≡ₚ ps.
Proof.
  simpl.
  apply (tempfilepool_external_sort (W:=Z) id
           [("b", "a", 0, 1, None); ("a", "b", 0, 1, Some "xx");
            ("a", "a", 3, 1, None); ("a", "b", 0, 1, None)]%string
           0 None ∅).
  intros d' Hd'. discriminate Hd'.
Defined.

(** C8 (what the code does).  A pool made without [dir] that spilled a
    run leaves the directory it created behind, empty, after [finish] and
    after [cancel]; a pool made with [dir="d"] removes the caller's
    directory [d] when it is empty, even if nothing was spilled, and
    leaves it when it holds another file. *)
Theorem cleanup_removes_the_wrong_directory :
  let ps : list (Posting (W:=Z)) :=
    [("b", "a", 0, 1, None); ("a", "b", 0, 1, Some "xx")]%string in
  SampleWriter.index 0 None ∅ ps = Ok {[ "0"%string := ∅ ]}
  ∧ SampleWriter.index_cancel 0 None ∅ ps = Ok {[ "0"%string := ∅ ]}
  ∧ SampleWriter.index 0 (Some "d"%string) {[ "d"%string := ∅ ]} ps = Ok ∅
  ∧ SampleWriter.index 32 (Some "d"%string) {[ "d"%string := ∅ ]} ps = Ok ∅
  ∧ SampleWriter.index_cancel 0 (Some "d"%string) {[ "d"%string := ∅ ]} ps = Ok ∅
  ∧ SampleWriter.index 0 (Some "d"%string)
      {[ "d"%string := {[ "other"%string := [] ]} ]} ps
    = Ok {[ "d"%string := {[ "other"%string := [] ]} ]}.
Proof. vm_compute. repeat split; reflexivity. Qed.

End examples.

(** * Facts about the schema *)

Lemma list_index_Ok {A} (l : list A) (i : Z) (x : A) :
  list_index l i = Ok x
  ↔ ∃ k : nat, l !! k = Some x
               ∧ (i = Z.of_nat k ∨ i = Z.of_nat k - Z.of_nat (length l)).
Proof.
  unfold list_index. split.
  - destruct (decide (i < 0)) as [Hneg|Hneg].
    + rewrite (bool_decide_true (i < 0)) by done.
      destruct (decide (i + Z.of_nat (length l) < 0)) as [Hneg'|Hneg'].
      { by rewrite (bool_decide_true (i + _ < 0)) by done. }
      rewrite (bool_decide_false (i + _ < 0)) by done.
      destruct (l !! Z.to_nat (i + Z.of_nat (length l))) as [y|] eqn:Hl; [|done].
      intros [= ->]. exists (Z.to_nat (i + Z.of_nat (length l))).
      split; [done|]. right. lia.
    + rewrite !(bool_decide_false (i < 0)) by done.
      destruct (l !! Z.to_nat i) as [y|] eqn:Hl; [|done].
      intros [= ->]. exists (Z.to_nat i). split; [done|]. left. lia.
  - intros (k & Hk & [->| ->]).
    + rewrite !(bool_decide_false (Z.of_nat k < 0)) by lia.
      by rewrite Nat2Z.id, Hk.
    + apply lookup_lt_Some in Hk as Hlt.
      rewrite (bool_decide_true (_ - _ < 0)) by lia.
      rewrite (bool_decide_false (_ - _ + _ < 0)) by lia.
      replace (Z.to_nat (Z.of_nat k - Z.of_nat (length l) + Z.of_nat (length l)))
        with k by lia.
      by rewrite Hk.
Qed.

Lemma list_index_from_0 {A} (l : list A) (i : Z) :
  0 ≤ i →
  list_index l i
  = match l !! Z.to_nat i with Some x => Ok x | None => Raise IndexError end.
Proof.
  intros Hi. unfold list_index. by rewrite !(bool_decide_false (i < 0)) by lia.
Qed.

Lemma list_index_nonneg {A} (l : list A) (i : Z) (x : A) :
  0 ≤ i → list_index l i = Ok x ↔ l !! Z.to_nat i = Some x.
Proof.
  intros Hi. rewrite list_index_from_0 by done.
  destruct (l !! Z.to_nat i) as [y|]; [|done].
  split; by intros [= ->].
Qed.

Lemma elem_of_omap_enumerate {A} (f : Z * A → option Z) (l : list A) (i : Z) :
  i ∈ omap f (enumerate l)
  ↔ ∃ (k : nat) (x : A), l !! k = Some x ∧ f (Z.of_nat k, x) = Some i.
Proof.
  rewrite list_elem_of_omap. unfold enumerate. split.
  - intros ([j x] & Hin & Hf). apply elem_of_lookup_imap in Hin as (k & y & Heq & Hk).
    injection Heq as -> ->. eauto.
  - intros (k & x & Hk & Hf). exists (Z.of_nat k, x). split; [|done].
    apply elem_of_lookup_imap. eauto.
Qed.

Section schema_facts.
Import Schema.
Context {Fmt : Type}.

Local Abbreviation Schema := (Schema (Fmt:=Fmt)).
Local Abbreviation FieldType := (FieldType (Fmt:=Fmt)).
Local Abbreviation fieldtype_arg := (fieldtype_arg (Fmt:=Fmt)).

(** ** The invariant of a schema

    The four attributes tell the same story: the names are distinct, the
    number of a name is its place in [_names], and the field of a name is
    the field at that place in [_by_number]. *)
Definition wf (s : Schema) : Prop :=
  length (_by_number s) = length (_names s)
  ∧ NoDup (_names s)
  ∧ (∀ name i, _numbers s !! name = Some i
               ↔ ∃ k : nat, i = Z.of_nat k ∧ _names s !! k = Some name)
  ∧ (∀ name ft, _by_name s !! name = Some ft
                ↔ ∃ k : nat, _names s !! k = Some name ∧ _by_number s !! k = Some ft).

Lemma wf_empty : wf empty.
Proof.
  split_and!; [done|constructor| |].
  - intros name i. simpl. rewrite lookup_empty. split; [done|].
    by intros (k & _ & ?).
  - intros name ft. simpl. rewrite lookup_empty. split; [done|].
    by intros (k & ? & _).
Qed.

Lemma wf_name_in (s : Schema) (name : string) :
  wf s → is_Some (_by_name s !! name) ↔ name ∈ _names s.
Proof.
  intros (Hlen & _ & _ & Hby). split.
  - intros [ft Hft]. apply Hby in Hft as (k & Hk & _).
    by eapply list_elem_of_lookup_2.
  - intros (k & Hk)%list_elem_of_lookup.
    destruct (lookup_lt_is_Some_2 (_by_number s) k) as [ft Hft].
    { rewrite Hlen. by eapply lookup_lt_Some. }
    exists ft. apply Hby. eauto.
Qed.

(** What a successful [add] does. *)
Lemma add_inl (name : string) (arg : fieldtype_arg) (s s' : Schema) :
  add name arg s = inl s' →
  String.prefix "_" name = false
  ∧ _by_name s !! name = None
  ∧ ∃ ft,
      (arg = AFieldType ft ∨ arg = ACallable (Ok (Some ft)))
      ∧ s' = {| _numbers := <[name := Z.of_nat (length (_by_number s))]> (_numbers s);
                _by_number := _by_number s ++ [ft];
                _names := _names s ++ [name];
                _by_name := <[name := ft]> (_by_name s) |}.
Proof.
  unfold add. destruct (String.prefix "_" name); [done|].
  case_bool_decide as Hin; [done|].
  apply eq_None_not_Some in Hin.
  destruct arg as [ft|[[ft|]|e]|]; try done.
  - intros [= <-]. split_and!; [done..|]. exists ft. split; [by left|done].
  - intros [= <-]. split_and!; [done..|]. exists ft. split; [by right|done].
Qed.

Lemma add_wf (name : string) (arg : fieldtype_arg) (s s' : Schema) :
  wf s → add name arg s = inl s' → wf s'.
Proof.
  intros Hwf Hadd. apply add_inl in Hadd as (_ & Hnew & ft & _ & ->).
  assert (name ∉ _names s) as Hnot.
  { intros Hin. apply (wf_name_in s name Hwf) in Hin as [? Hin].
    by rewrite Hnew in Hin. }
  destruct Hwf as (Hlen & Hnodup & Hnum & Hby).
  split_and!; simpl.
  - rewrite !length_app. simpl. lia.
  - apply NoDup_app. split_and!; [done| |apply NoDup_singleton].
    intros x Hx ->%list_elem_of_singleton. done.
  - intros n i. destruct (decide (n = name)) as [->|Hne].
    + rewrite lookup_insert_eq. split.
      * intros [= <-]. exists (length (_by_number s)). split; [done|].
        rewrite Hlen. by rewrite lookup_app_r, Nat.sub_diag by lia.
      * intros (k & -> & Hk). f_equal. f_equal.
        apply lookup_app_Some in Hk as [Hk|[Hge Hk]].
        -- exfalso. apply Hnot. by eapply list_elem_of_lookup_2.
        -- apply list_lookup_singleton_Some in Hk as [Hk _]. lia.
    + rewrite lookup_insert_ne by done. rewrite Hnum. split.
      * intros (k & -> & Hk). exists k. split; [done|].
        by apply lookup_app_l_Some.
      * intros (k & -> & Hk). exists k. split; [done|].
        apply lookup_app_Some in Hk as [Hk|[_ Hk]]; [done|].
        apply list_lookup_singleton_Some in Hk as [_ Hk]. by subst.
  - intros n ft'. destruct (decide (n = name)) as [->|Hne].
    + rewrite lookup_insert_eq. split.
      * intros [= <-]. exists (length (_names s)). split.
        -- by rewrite lookup_app_r, Nat.sub_diag by lia.
        -- rewrite <-Hlen. by rewrite lookup_app_r, Nat.sub_diag by lia.
      * intros (k & Hk & Hft). f_equal.
        apply lookup_app_Some in Hk as [Hk|[Hge Hk]].
        { exfalso. apply Hnot. by eapply list_elem_of_lookup_2. }
        apply list_lookup_singleton_Some in Hk as [Hk _].
        assert (k = length (_by_number s)) as -> by lia.
        rewrite lookup_app_r, Nat.sub_diag in Hft by lia. by injection Hft.
    + rewrite lookup_insert_ne by done. rewrite Hby. split.
      * intros (k & Hk & Hft). exists k.
        split; by apply lookup_app_l_Some.
      * intros (k & Hk & Hft). exists k.
        apply lookup_app_Some in Hk as [Hk|[_ Hk]].
        -- split; [done|]. apply lookup_lt_Some in Hk as Hlt.
           by rewrite lookup_app_l in Hft by lia.
        -- apply list_lookup_singleton_Some in Hk as [_ Hk]. by subst.
Qed.

Lemma add_all_wf (fields : list (string * fieldtype_arg)) (s s' : Schema) :
  wf s → add_all fields s = inl s' → wf s'.
Proof.
  revert s. induction fields as [|[name arg] fields IH]; intros s Hwf; simpl.
  { by intros [= <-]. }
  destruct (add name arg s) as [s1|e] eqn:Hadd; [|done].
  apply IH. by eapply add_wf.
Qed.

Lemma init_wf (fields : gmap string fieldtype_arg) (s : Schema) :
  init fields = inl s → wf s.
Proof. apply add_all_wf, wf_empty. Qed.

(** X9.  In a schema made by [Schema(...)] and any [add] calls after it,
    names and numbers correspond: [number_to_name] gives back the name
    whose number [name_to_number] gave, and [name_to_number] gives back
    the number [number_to_name] was given, counted from the front: a
    negative number [i] is read from the end, so it comes back as
    [i + len(schema)]. *)
Theorem schema_names_and_numbers_correspond
    (fields : gmap string fieldtype_arg) (more : list (string * fieldtype_arg))
    (s0 s : Schema) :
  init fields = inl s0 → add_all more s0 = inl s →
  (∀ name i, name_to_number name s = Ok i → number_to_name i s = Ok name)
  ∧ (∀ i name, number_to_name i s = Ok name →
       name_to_number name s = Ok (if bool_decide (i < 0) then i + len s else i)).
Proof.
  intros Hinit Hmore.
  assert (wf s) as (Hlen & Hnodup & Hnum & Hby).
  { eapply add_all_wf; [|done]. by eapply init_wf. }
  unfold name_to_number, number_to_name, dict_index, len. split.
  - intros name i. destruct (_numbers s !! name) as [j|] eqn:Hj; [|done].
    intros [= ->]. apply Hnum in Hj as (k & -> & Hk).
    apply list_index_Ok. eauto.
  - intros i name (k & Hk & Hi)%list_index_Ok.
    assert (_numbers s !! name = Some (Z.of_nat k)) as -> by (apply Hnum; eauto).
    apply lookup_lt_Some in Hk. f_equal. case_bool_decide; lia.
Qed.

(** X10.  In a schema made by [Schema(...)] and any [add] calls after
    it, a successful [add(name, fieldtype)] gives the new field the next
    number, [len(schema)], and makes it the field of [name]; the field and
    the number of every other name, and the field and the name of every
    number from 0, stay as they were. *)
Theorem schema_add_keeps_other_fields
    (fields : gmap string fieldtype_arg) (more : list (string * fieldtype_arg))
    (name : string) (arg : fieldtype_arg) (s0 s s' : Schema) :
  init fields = inl s0 → add_all more s0 = inl s →
  add name arg s = inl s' →
  len s' = len s + 1
  ∧ name_to_number name s' = Ok (len s)
  ∧ number_to_name (len s) s' = Ok name
  ∧ (∃ ft, getitem (inl name) s' = Ok ft ∧ getitem (inr (len s)) s' = Ok ft)
  ∧ (∀ other, other ≠ name →
       getitem (inl other) s' = getitem (inl other) s
       ∧ name_to_number other s' = name_to_number other s)
  ∧ (∀ i, 0 ≤ i < len s →
       getitem (inr i) s' = getitem (inr i) s
       ∧ number_to_name i s' = number_to_name i s).
Proof.
  intros Hinit Hmore Hadd.
  assert (wf s) as (Hlen & _).
  { eapply add_all_wf; [|done]. by eapply init_wf. }
  apply add_inl in Hadd as (_ & _ & ft & _ & ->).
  unfold len, name_to_number, number_to_name, getitem, dict_index. simpl.
  split_and!.
  - rewrite length_app. simpl. lia.
  - by rewrite lookup_insert_eq.
  - apply list_index_nonneg; [lia|].
    by rewrite Nat2Z.id, Hlen, lookup_app_r, Nat.sub_diag by lia.
  - exists ft. rewrite lookup_insert_eq. split; [done|].
    apply list_index_nonneg; [lia|].
    by rewrite Nat2Z.id, lookup_app_r, Nat.sub_diag by lia.
  - intros other Hne. by rewrite !lookup_insert_ne by done.
  - intros i Hi. rewrite !list_index_from_0 by lia.
    rewrite !lookup_app_l by lia. done.
Qed.

(** X11.  In such a schema a field is found the same by its name and by
    its number: [schema[name]] is [schema[name_to_number(name)]], and a
    name is in the schema exactly when it has a number. *)
Theorem schema_getitem_by_name_and_number
    (fields : gmap string fieldtype_arg) (more : list (string * fieldtype_arg))
    (s0 s : Schema) (name : string) :
  init fields = inl s0 → add_all more s0 = inl s →
  match name_to_number name s with
  | Ok i =>
      contains name s = true
      ∧ ∃ ft, getitem (inl name) s = Ok ft ∧ getitem (inr i) s = Ok ft
              ∧ field_by_name name s = Ok ft ∧ field_by_number i s = Ok ft
  | Raise e =>
      e = KeyError name ∧ contains name s = false
      ∧ getitem (inl name) s = Raise (KeyError name)
  end.
Proof.
  intros Hinit Hmore.
  assert (wf s) as Hwf.
  { eapply add_all_wf; [|done]. by eapply init_wf. }
  pose proof (wf_name_in s name Hwf) as Hin.
  destruct Hwf as (Hlen & Hnodup & Hnum & Hby).
  unfold name_to_number, contains, getitem, field_by_name, field_by_number,
    dict_index.
  destruct (_numbers s !! name) as [i|] eqn:Hi.
  - apply Hnum in Hi as (k & -> & Hk).
    assert (is_Some (_by_name s !! name)) as [ft Hft].
    { apply Hin. by eapply list_elem_of_lookup_2. }
    rewrite Hft. rewrite bool_decide_true by eauto. split; [done|].
    exists ft. split_and!; try done.
    + apply list_index_nonneg; [lia|]. rewrite Nat2Z.id.
      apply Hby in Hft as (k' & Hk' & Hft).
      by rewrite (NoDup_lookup _ _ _ _ Hnodup Hk Hk').
    + apply list_index_nonneg; [lia|]. rewrite Nat2Z.id.
      apply Hby in Hft as (k' & Hk' & Hft).
      by rewrite (NoDup_lookup _ _ _ _ Hnodup Hk Hk').
  - assert (_by_name s !! name = None) as Hnone.
    { apply eq_None_not_Some. intros Hsome. apply Hin in Hsome.
      apply list_elem_of_lookup in Hsome as [k Hk].
      assert (_numbers s !! name = Some (Z.of_nat k)) as Hn by (apply Hnum; eauto).
      by rewrite Hn in Hi. }
    rewrite Hnone. split_and!; [done| |done].
    apply bool_decide_eq_false. by intros [? ?].
Qed.

(** ** [Schema(...)] *)

Lemma add_all_names (l : list (string * fieldtype_arg)) (s s' : Schema) :
  add_all l s = inl s' → _names s' = _names s ++ l.*1.
Proof.
  revert s. induction l as [|[name arg] l IH]; intros s; simpl.
  { intros [= <-]. by rewrite app_nil_r. }
  destruct (add name arg s) as [s1|e] eqn:Hadd; [|done].
  intros Hrest. rewrite (IH _ Hrest).
  apply add_inl in Hadd as (_ & _ & ft & _ & ->). simpl.
  by rewrite <-app_assoc.
Qed.

(** The keyword arguments in the order [__init__] adds them. *)
Definition sorted_fields (fields : gmap string fieldtype_arg)
  : list (string * fieldtype_arg) :=
  omap (λ name, (name,.) <$> fields !! name)
       (merge_sort cle (elements (dom fields))).

Lemma sorted_fields_names (fields : gmap string fieldtype_arg) :
  (sorted_fields fields).*1 = merge_sort cle (elements (dom fields)).
Proof.
  unfold sorted_fields.
  assert (Forall (λ name, is_Some (fields !! name))
                 (merge_sort cle (elements (dom fields)))) as Hall.
  { apply Forall_forall. intros name Hin.
    rewrite merge_sort_Permutation in Hin.
    by apply elem_of_elements, elem_of_dom in Hin. }
  induction Hall as [|name names [arg Harg] _ IH]; [done|].
  simpl. rewrite Harg. simpl. f_equal. exact IH.
Qed.

Lemma elem_of_sorted_fields (fields : gmap string fieldtype_arg) name arg :
  (name, arg) ∈ sorted_fields fields ↔ fields !! name = Some arg.
Proof.
  unfold sorted_fields. rewrite list_elem_of_omap. split.
  - intros (n & _ & Hn). destruct (fields !! n) as [a|] eqn:Ha; [|done].
    simpl in Hn. by injection Hn as -> ->.
  - intros Harg. exists name. rewrite Harg. split; [|done].
    rewrite merge_sort_Permutation. apply elem_of_elements, elem_of_dom. eauto.
Qed.

Lemma sorted_fields_NoDup (fields : gmap string fieldtype_arg) :
  NoDup (sorted_fields fields).*1.
Proof.
  rewrite sorted_fields_names, merge_sort_Permutation. apply NoDup_elements.
Qed.

(** What [add] takes for a field type. *)
Definition is_fieldtype (arg : fieldtype_arg) : Prop :=
  ∃ ft, arg = AFieldType ft ∨ arg = ACallable (Ok (Some ft)).

Lemma add_succeeds (name : string) (arg : fieldtype_arg) (s : Schema) :
  _by_name s !! name = None →
  (∃ s', add name arg s = inl s')
  ↔ String.prefix "_" name = false ∧ is_fieldtype arg.
Proof.
  intros Hnew. split.
  - intros [s' Hadd]. apply add_inl in Hadd as (? & _ & ft & ? & _).
    split; [done|by exists ft].
  - intros [Hprefix [ft Harg]]. unfold add. rewrite Hprefix, Hnew.
    rewrite bool_decide_false by (by intros [? ?]).
    destruct Harg as [->| ->]; eauto.
Qed.

Lemma add_all_succeeds (l : list (string * fieldtype_arg)) (s : Schema) :
  wf s → NoDup l.*1 → (∀ name, name ∈ l.*1 → name ∉ _names s) →
  (∃ s', add_all l s = inl s')
  ↔ Forall (λ f, String.prefix "_" f.1 = false ∧ is_fieldtype f.2) l.
Proof.
  revert s. induction l as [|[name arg] l IH]; intros s Hwf Hnodup Hfresh.
  { split; [by constructor|by eauto]. }
  simpl in *. apply NoDup_cons in Hnodup as [Hname Hnodup].
  assert (_by_name s !! name = None) as Hnew.
  { apply eq_None_not_Some. rewrite (wf_name_in s name Hwf).
    apply Hfresh. by left. }
  pose proof (add_succeeds name arg s Hnew) as Hadd.
  destruct (add name arg s) as [s1|e] eqn:Hs1.
  - rewrite (IH s1); [| |done|].
    + split; [intros Hall|by intros [_ ?]%Forall_cons].
      constructor; [|done]. apply Hadd. eauto.
    + by eapply add_wf.
    + intros n Hn. apply add_inl in Hs1 as (_ & _ & ft & _ & ->). simpl.
      rewrite elem_of_app, list_elem_of_singleton. intros [Hin| ->].
      * by apply (Hfresh n); [right|].
      * done.
  - split; [by intros [? ?]|]. intros [Hok _]%Forall_cons.
    apply Hadd in Hok as [? ?]. done.
Qed.

(** X13.  [Schema(...)] returns a schema exactly when no name given
    starts with an underscore and every value given is a [FieldType]
    object or a callable that returns one; the names being the keys of a
    dictionary, no two are the same, and the complaint that the schema
    already has the field is never made. *)
Theorem schema_init_succeeds (fields : gmap string fieldtype_arg) :
  ((∃ s, init fields = inl s)
   ↔ ∀ name arg, fields !! name = Some arg →
       String.prefix "_" name = false ∧ is_fieldtype arg)
  ∧ ∀ name, init fields ≠ inr (FieldConfigurationError (AlreadyHasField name)).
Proof.
  split.
  - unfold init. fold (sorted_fields fields).
    rewrite (add_all_succeeds (sorted_fields fields) empty wf_empty
               (sorted_fields_NoDup fields)) by (intros ? _ ?%elem_of_nil; done).
    rewrite Forall_forall. split.
    + intros Hall name arg Harg.
      apply (Hall (name, arg)). by apply elem_of_sorted_fields.
    + intros Hall [name arg] Hin. apply Hall. by apply elem_of_sorted_fields.
  - intros name. unfold init. fold (sorted_fields fields).
    pose proof (sorted_fields_NoDup fields) as Hnodup.
    assert (∀ n, n ∈ (sorted_fields fields).*1 → n ∉ _names (empty (Fmt:=Fmt)))
      as Hfresh by (intros ? _ ?%elem_of_nil; done).
    pose proof (wf_empty) as Hwf.
    revert Hnodup Hfresh Hwf. generalize (empty (Fmt:=Fmt)).
    induction (sorted_fields fields) as [|[n arg] l IH];
      intros s Hnodup Hfresh Hwf; [done|].
    simpl in *. apply NoDup_cons in Hnodup as [Hn Hnodup].
    assert (_by_name s !! n = None) as Hnew.
    { apply eq_None_not_Some. rewrite (wf_name_in s n Hwf).
      apply Hfresh. by left. }
    destruct (add n arg s) as [s1|e] eqn:Hs1.
    + apply IH; [done| |by eapply add_wf].
      intros n' Hn'. apply add_inl in Hs1 as (_ & _ & ft & _ & ->). simpl.
      rewrite elem_of_app, list_elem_of_singleton. intros [Hin| ->].
      * by apply (Hfresh n'); [right|].
      * done.
    + intros [= ->]. unfold add in Hs1.
      destruct (String.prefix "_" n); [done|].
      rewrite Hnew in Hs1. rewrite bool_decide_false in Hs1 by (by intros [? ?]).
      by destruct arg as [?|[[?|]|?]|].
Qed.

Lemma StronglySorted_lookup_lt {A} (R : relation A) (l : list A) i j x y :
  StronglySorted R l → l !! i = Some x → l !! j = Some y → (i < j)%nat → R x y.
Proof.
  intros Hs. revert i j. induction Hs as [|a l Hs IH Hall]; intros i j; [done|].
  destruct i as [|i], j as [|j]; simpl; try lia.
  - intros [= ->] Hy _. rewrite Forall_forall in Hall.
    apply Hall. by eapply list_elem_of_lookup_2.
  - intros Hx Hy Hlt. apply (IH i j); [done..|lia].
Qed.

(** X14.  [Schema(...)] numbers the fields in the sorted order of their
    names: the names of the schema are the names given, and of two of
    them the one that sorts first has the smaller number. *)
Theorem schema_init_numbers_follow_names (fields : gmap string fieldtype_arg)
    (s : Schema) :
  init fields = inl s →
  (∀ name, contains name s = true ↔ is_Some (fields !! name))
  ∧ Sorted cle (field_names s)
  ∧ ∀ a b i j,
      name_to_number a s = Ok i → name_to_number b s = Ok j →
      (i < j ↔ cmp a b = Lt).
Proof.
  intros Hinit. pose proof (init_wf fields s Hinit) as Hwf.
  assert (_names s = merge_sort cle (elements (dom fields))) as Hnames.
  { unfold init in Hinit. fold (sorted_fields fields) in Hinit.
    apply add_all_names in Hinit. by rewrite Hinit, sorted_fields_names. }
  assert (Sorted cle (_names s)) as Hsorted.
  { rewrite Hnames. apply Sorted_merge_sort, _. }
  split_and!; [|done|].
  - intros name. unfold contains. rewrite bool_decide_eq_true.
    rewrite (wf_name_in s name Hwf), Hnames, merge_sort_Permutation.
    by rewrite elem_of_elements, elem_of_dom.
  - destruct Hwf as (_ & Hnodup & Hnum & _).
    apply Sorted_StronglySorted in Hsorted; [|apply _].
    unfold name_to_number, dict_index. intros a b i j.
    destruct (_numbers s !! a) as [i'|] eqn:Ha; [|done].
    destruct (_numbers s !! b) as [j'|] eqn:Hb; [|done].
    intros [= ->] [= ->].
    apply Hnum in Ha as (ka & -> & Hka). apply Hnum in Hb as (kb & -> & Hkb).
    split.
    + intros Hlt.
      assert (cle a b) as Hle
        by (apply (StronglySorted_lookup_lt cle _ ka kb a b Hsorted Hka Hkb); lia).
      destruct (cmp a b) eqn:Hc; [|done|done].
      apply cmp_eq in Hc as ->.
      pose proof (NoDup_lookup _ _ _ _ Hnodup Hka Hkb). lia.
    + intros Hc. destruct (decide (ka < kb)%nat) as [|Hge]; [lia|].
      exfalso. destruct (decide (ka = kb)) as [->|Hne].
      * rewrite Hka in Hkb. injection Hkb as ->. by rewrite cmp_refl in Hc.
      * assert (cle b a) as Hle
          by (apply (StronglySorted_lookup_lt cle _ kb ka b a Hsorted Hkb Hka); lia).
        apply Hle. by apply cmp_Gt_Lt.
Qed.

(** X12.  [vectored_fields] lists, in ascending order of the numbers from
    0, the fields for which [is_vectored] is true, and
    [has_vectored_fields] says whether there is one; [scorable_fields]
    lists the fields whose [scorable] attribute is [True]. *)
Theorem schema_vectored_and_scorable_fields (s : Schema) :
  (∀ i, i ∈ vectored_fields s ↔ 0 ≤ i ∧ is_vectored i s = Ok true)
  ∧ (has_vectored_fields s = true ↔ vectored_fields s ≠ [])
  ∧ (∀ i, i ∈ scorable_fields s ↔ 0 ≤ i ∧ is_scorable i s = Ok (Some true)).
Proof.
  unfold vectored_fields, scorable_fields, is_vectored, is_scorable,
    has_vectored_fields.
  assert (∀ i, i ∈ omap (λ '(i, ftype), if format_truth (vector ftype)
                                          then Some i else None)
                        (enumerate (_by_number s))
               ↔ 0 ≤ i ∧ (ft ← list_index (_by_number s) i;
                          Ok (bool_decide (vector ft ≠ None))) = Ok true) as Hvec.
  { intros i. rewrite elem_of_omap_enumerate. split.
    - intros (k & ft & Hk & Hf).
      destruct (vector ft) as [v|] eqn:Hv; simpl in Hf; [|done].
      injection Hf as <-. split; [lia|].
      rewrite (proj2 (list_index_nonneg _ (Z.of_nat k) ft ltac:(lia)))
        by (by rewrite Nat2Z.id).
      simpl. by rewrite Hv.
    - intros [Hi Hft].
      destruct (list_index (_by_number s) i) as [ft|] eqn:Hl; [|done].
      apply list_index_nonneg in Hl; [|done]. simpl in Hft.
      injection Hft as Hv. apply bool_decide_eq_true in Hv.
      exists (Z.to_nat i), ft. split; [done|].
      destruct (vector ft); [|done]. simpl. f_equal. lia. }
  split_and!.
  - exact Hvec.
  - rewrite existsb_exists. split.
    + intros (ft & Hin & Hv) Hnil. apply list_elem_of_In in Hin.
      apply list_elem_of_lookup in Hin as [k Hk].
      assert (Z.of_nat k ∈ omap (λ '(i, ftype), if format_truth (vector ftype)
                                                 then Some i else None)
                               (enumerate (_by_number s))) as Hin.
      { apply elem_of_omap_enumerate. exists k, ft. by rewrite Hv. }
      rewrite Hnil in Hin. by apply elem_of_nil in Hin.
    + intros Hne.
      destruct (omap _ (enumerate (_by_number s))) as [|i l] eqn:Hl; [done|].
      assert (i ∈ omap (λ '(i, ftype), if format_truth (vector ftype)
                                        then Some i else None)
                       (enumerate (_by_number s))) as Hin
        by (rewrite Hl; by left).
      apply elem_of_omap_enumerate in Hin as (k & ft & Hk & Hf).
      exists ft. split.
      * apply list_elem_of_In. by eapply list_elem_of_lookup_2.
      * by destruct (format_truth (vector ft)).
  - intros i. rewrite elem_of_omap_enumerate. split.
    + intros (k & ft & Hk & Hf).
      destruct (scorable ft) as [[|]|] eqn:Hv; simpl in Hf; try done.
      injection Hf as <-. split; [lia|].
      rewrite (proj2 (list_index_nonneg _ (Z.of_nat k) ft ltac:(lia)))
        by (by rewrite Nat2Z.id).
      simpl. by rewrite Hv.
    + intros [Hi Hft].
      destruct (list_index (_by_number s) i) as [ft|] eqn:Hl; [|done].
      apply list_index_nonneg in Hl; [|done]. simpl in Hft.
      injection Hft as Hv.
      exists (Z.to_nat i), ft. split; [done|].
      rewrite Hv. simpl. f_equal. lia.
Qed.

End schema_facts.

(** * Facts about the field lengths *)

Lemma filter_none {A} (P : A → Prop) `{!∀ x, Decision (P x)} (l : list A) :
  Forall (λ x, ¬ P x) l → filter P l = [].
Proof.
  induction 1 as [|x l Hx _ IH]; [done|]. by rewrite filter_cons_False.
Qed.

Section poolbase_facts.
Import PoolBase.
Context (length_to_byte : Z → Byte.byte).

Local Abbreviation add_field_length := (add_field_length length_to_byte).
Local Abbreviation add_field_lengths := (add_field_lengths length_to_byte).

(** The lengths given for a field, in the order of the calls
    [(docnum, fieldname, length)]. *)
Definition lengths_of (f : string) (calls : list (Z * string * Z)) : list Z :=
  (λ c, c.2) <$> filter (λ c, c.1.2 = f) calls.

Lemma append_zeros_app (n : nat) (arry : list Byte.byte) :
  append_zeros n arry = arry ++ replicate n Byte.x00.
Proof.
  revert arry. induction n as [|n IH]; intros arry; simpl.
  - by rewrite app_nil_r.
  - by rewrite IH, <-app_assoc.
Qed.

(** With a document number from 0, [add_field_length] raises nothing:
    the array is made long enough before it is written. *)
Lemma add_field_length_from_0 (docnum : Z) (f : string) (n : Z) (self : PoolBase) :
  0 ≤ docnum →
  let arry := default [] (length_arrays self !! f) in
  let padded := arry ++ replicate (Z.to_nat (docnum + 1) - length arry) Byte.x00 in
  add_field_length docnum f n self
  = ({| length_arrays :=
          <[f := <[Z.to_nat docnum := length_to_byte n]> padded]> (length_arrays self);
        _fieldlength_totals :=
          <[f := default 0 (_fieldlength_totals self !! f) + n]>
            (_fieldlength_totals self);
        _fieldlength_maxes :=
          if bool_decide (n > default 0 (_fieldlength_maxes self !! f))
          then <[f := n]> (_fieldlength_maxes self)
          else _fieldlength_maxes self |}, None).
Proof.
  intros Hd. simpl. unfold PoolBase.add_field_length.
  set (arrays := if bool_decide (length_arrays self !! f = None)
                 then <[f := []]> (length_arrays self) else length_arrays self).
  assert (default [] (arrays !! f) = default [] (length_arrays self !! f)) as Harry.
  { unfold arrays. case_bool_decide as Hnone; [|done].
    by rewrite lookup_insert_eq, Hnone. }
  rewrite Harry. set (arry := default [] (length_arrays self !! f)).
  set (padded := if bool_decide (Z.of_nat (length arry) ≤ docnum)
                 then append_zeros (Z.to_nat (docnum - Z.of_nat (length arry) + 1)) arry
                 else arry).
  assert (padded = arry ++ replicate (Z.to_nat (docnum + 1) - length arry) Byte.x00)
    as Hpadded.
  { unfold padded. case_bool_decide.
    - rewrite append_zeros_app. do 2 f_equal. lia.
    - replace (Z.to_nat (docnum + 1) - length arry)%nat with 0%nat by lia.
      by rewrite app_nil_r. }
  rewrite Hpadded. unfold array_set.
  rewrite (bool_decide_false (docnum < 0)) by lia.
  rewrite bool_decide_true
    by (rewrite length_app, length_replicate; lia).
  f_equal. f_equal. rewrite insert_insert_eq.
  unfold arrays. case_bool_decide; [|done]. by rewrite insert_insert_eq.
Qed.

Lemma add_field_lengths_snoc calls c (self : PoolBase) :
  add_field_lengths (calls ++ [c]) self
  = match add_field_lengths calls self with
    | (self, None) => add_field_length c.1.1 c.1.2 c.2 self
    | (self, Some e) => (self, Some e)
    end.
Proof. unfold PoolBase.add_field_lengths. by rewrite foldl_app. Qed.

Lemma lengths_of_snoc f calls c :
  lengths_of f (calls ++ [c])
  = lengths_of f calls ++ (if decide (c.1.2 = f) then [c.2] else []).
Proof.
  unfold lengths_of. rewrite filter_app, fmap_app. f_equal.
  rewrite filter_cons, filter_nil. by destruct (decide _).
Qed.

Lemma foldr_add_app (l1 l2 : list Z) :
  foldr Z.add 0 (l1 ++ l2) = foldr Z.add 0 l1 + foldr Z.add 0 l2.
Proof. induction l1 as [|x l1 IH]; simpl; lia. Qed.

Lemma foldr_max_nonneg (l : list Z) : 0 ≤ foldr Z.max 0 l.
Proof. induction l as [|x l IH]; simpl; lia. Qed.

Lemma foldr_max_app (l1 l2 : list Z) :
  foldr Z.max 0 (l1 ++ l2) = Z.max (foldr Z.max 0 l1) (foldr Z.max 0 l2).
Proof.
  pose proof (foldr_max_nonneg l2).
  induction l1 as [|x l1 IH]; simpl; lia.
Qed.


(** ** The length arrays *)

(** The byte a length array holds for a document: that of the last length
    given for the document and the field, zero when none was given. *)
Definition byte_at (calls : list (Z * string * Z)) (f : string) (d : nat)
  : Byte.byte :=
  match last (filter (λ c, c.1.2 = f ∧ c.1.1 = Z.of_nat d) calls) with
  | Some c => length_to_byte c.2
  | None => Byte.x00
  end.

Lemma byte_at_snoc calls c f d :
  byte_at (calls ++ [c]) f d
  = if decide (c.1.2 = f ∧ c.1.1 = Z.of_nat d) then length_to_byte c.2
    else byte_at calls f d.
Proof.
  unfold byte_at. rewrite filter_app, filter_cons, filter_nil.
  destruct (decide _); [by rewrite last_snoc|by rewrite app_nil_r].
Qed.

(** What the arrays hold after the calls [calls]. *)
Definition arrays_inv (calls : list (Z * string * Z)) (self : PoolBase) : Prop :=
  ∀ f,
    match length_arrays self !! f with
    | None => Forall (λ c, c.1.2 ≠ f) calls
    | Some arry =>
        Exists (λ c, c.1.2 = f) calls
        ∧ Forall (λ c, c.1.2 = f → c.1.1 < Z.of_nat (length arry)) calls
        ∧ ∀ d, (d < length arry)%nat → arry !! d = Some (byte_at calls f d)
    end.

Lemma add_field_lengths_arrays (calls : list (Z * string * Z)) :
  Forall (λ c, 0 ≤ c.1.1) calls →
  ∃ self, add_field_lengths calls init = (self, None) ∧ arrays_inv calls self.
Proof.
  induction calls as [|c calls IH] using rev_ind; intros Hall.
  { exists init. split; [done|]. intros f. simpl. by rewrite lookup_empty. }
  apply Forall_app in Hall as [Hall Hc]. apply Forall_cons in Hc as [Hc _].
  destruct (IH Hall) as (self & Hself & Hinv).
  rewrite add_field_lengths_snoc, Hself.
  rewrite add_field_length_from_0 by done. cbv zeta.
  eexists. split; [done|]. intros f. simpl. specialize (Hinv f).
  destruct (decide (c.1.2 = f)) as [<-|Hne].
  - rewrite lookup_insert_eq.
    set (arry := default [] (length_arrays self !! c.1.2)).
    set (padded := arry ++ replicate (Z.to_nat (c.1.1 + 1) - length arry) Byte.x00).
    assert (length padded = Nat.max (length arry) (Z.to_nat (c.1.1 + 1))) as Hlen.
    { unfold padded. rewrite length_app, length_replicate. lia. }
    assert (Forall (λ c', c'.1.2 = c.1.2 → c'.1.1 < Z.of_nat (length arry)) calls
            ∧ ∀ d, (d < length arry)%nat → arry !! d = Some (byte_at calls c.1.2 d))
      as [Hbound Hold].
    { unfold arry. destruct (length_arrays self !! c.1.2) as [a|]; simpl.
      - by destruct Hinv as (_ & ? & ?).
      - split; [|intros d; simpl; lia].
        eapply Forall_impl; [exact Hinv|]. by intros c' Hc' ?. }
    rewrite length_insert. split_and!.
    + apply Exists_app. right. by left.
    + apply Forall_app. split.
      * eapply Forall_impl; [exact Hbound|]. intros c' Hc' Heq.
        specialize (Hc' Heq). lia.
      * constructor; [|done]. intros _. lia.
    + intros d Hd. rewrite byte_at_snoc.
      destruct (decide (Z.to_nat c.1.1 = d)) as [<-|Hdne].
      * rewrite list_lookup_insert_eq by lia.
        rewrite decide_True by (split; [done|lia]). done.
      * rewrite list_lookup_insert_ne by done.
        rewrite decide_False by (intros [_ ?]; lia).
        unfold padded. destruct (decide (d < length arry)%nat) as [Hlt|Hge].
        -- rewrite lookup_app_l by done. by apply Hold.
        -- rewrite lookup_app_r by lia.
           rewrite lookup_replicate_2 by lia. f_equal.
           unfold byte_at.
           assert (filter (λ c', c'.1.2 = c.1.2 ∧ c'.1.1 = Z.of_nat d) calls = [])
             as ->; [|done].
           apply filter_none. rewrite Forall_forall in Hbound |- *.
           intros c' Hin [Hf Hd']. specialize (Hbound c' Hin Hf). lia.
  - rewrite lookup_insert_ne by done.
    destruct (length_arrays self !! f) as [arry|].
    + destruct Hinv as (Hex & Hbound & Hold). split_and!.
      * apply Exists_app. by left.
      * apply Forall_app. split; [done|]. constructor; [|done]. by intros ?.
      * intros d Hd. rewrite byte_at_snoc.
        rewrite decide_False by (by intros [? _]). by apply Hold.
    + apply Forall_app. split; [done|]. by constructor.
Qed.


End poolbase_facts.

(** ** [add_content] on a [TempfilePool] *)

Section add_content_facts.
Context {W : Type} `{CmpOrder W} (length_to_byte : Z → Byte.byte).

Local Abbreviation Posting := (Pools.Posting (W:=W)).

(** [TempfilePool.add_posting] as the method [add_content] calls: the
    state of the subclass is the pool and the file system. *)
Definition tempfile_add_posting (p : Posting)
    (state : Pools.TempfilePool (W:=W) * Pools.filesystem (W:=W))
  : result (Pools.TempfilePool (W:=W) * Pools.filesystem (W:=W)) :=
  Pools.add_posting p state.1 state.2.

(** The posting [add_content] makes of a tuple of [field.index(value)]. *)
Definition posting_of (docnum : Z) (fieldname : string)
    (t : string * Z * W * option string) : Posting :=
  (fieldname, t.1.1.1, docnum, t.1.2, t.2).

Lemma add_postings_cons (p : Posting) (ps : list Posting) pool fs :
  Pools.add_postings (p :: ps) pool fs
  = state ← Pools.add_posting p pool fs; Pools.add_postings ps state.1 state.2.
Proof.
  unfold Pools.add_postings. cbn [foldl].
  change (Ok (pool, fs) ≫= λ '(self, fs0), Pools.add_posting p self fs0)
    with (Pools.add_posting p pool fs).
  destruct (Pools.add_posting p pool fs) as [[pool1 fs1]|e].
  - done.
  - apply add_postings_Raise.
Qed.

Lemma add_content_loop_spec docnum fieldname
    (index : list (string * Z * W * option string)) termcount pool fs :
  PoolBase.add_content_loop tempfile_add_posting docnum fieldname index
    termcount (pool, fs)
  = state ← Pools.add_postings (posting_of docnum fieldname <$> index) pool fs;
    Ok (termcount + foldr Z.add 0 (index.*1.*1.*2), state).
Proof.
  revert termcount pool fs.
  induction index as [|[[[w freq] weight] v] index IH]; intros termcount pool fs.
  { cbn. do 2 f_equal. lia. }
  cbn [PoolBase.add_content_loop]. rewrite !fmap_cons, add_postings_cons.
  change (tempfile_add_posting (fieldname, w, docnum, weight, v) (pool, fs))
    with (Pools.add_posting (fieldname, w, docnum, weight, v) pool fs).
  change (posting_of docnum fieldname (w, freq, weight, v))
    with (fieldname, w, docnum, weight, v).
  destruct (Pools.add_posting (fieldname, w, docnum, weight, v) pool fs)
    as [[pool1 fs1]|e]; [|done].
  cbn [mbind result_bind fst snd]. rewrite IH.
  destruct (Pools.add_postings _ pool1 fs1) as [state|]; [|done].
  cbn. do 2 f_equal. lia.
Qed.


End add_content_facts.

(** * Facts about the term iterators of [IndexReader] *)

(** Between a string and a string that starts with it, in the order of
    strings, every string starts with it. *)
Lemma prefix_between (p s t : string) :
  String.prefix p t = true → cle p s → cle s t → String.prefix p s = true.
Proof.
  revert s t. induction p as [|a p IH]; intros s t; [by destruct s|].
  destruct t as [|b t]; [done|]. simpl.
  destruct (ascii_dec a b) as [<-|]; [|done]. intros Hp.
  destruct s as [|c s]; [by intros Hps|].
  unfold cle, cmp, string_cmp. simpl.
  pose proof (Ascii.compare_antisym a c) as Hanti.
  destruct (Ascii.compare a c) eqn:Hac.
  - apply Ascii.compare_eq_iff in Hac as <-.
    assert (Ascii.compare a a = Eq) as ->.
    { pose proof (Ascii.compare_antisym a a) as Haa.
      by destruct (Ascii.compare a a). }
    destruct (ascii_dec a a); [|done]. by apply IH.
  - by destruct (Ascii.compare c a).
  - done.
Qed.

Section terms_facts.
Import Terms.
Context {F : Type} `{CmpPreOrder F}.

Local Abbreviation term := (Reading.term (F:=F)).

(** The key of a term, and the terms of a field whose text starts with a
    prefix. *)
Definition term_key (x : term) : F * string := x.1.1.
Definition of_field (fieldid : F) (x : term) : bool := py_eq x.1.1.1 fieldid.
Definition with_prefix (fieldid : F) (prefix : string) (x : term) : bool :=
  py_eq x.1.1.1 fieldid && String.prefix prefix x.1.1.2.

Lemma term_keys_sorted (x : term) (terms : list term) :
  Sorted cle (term_key <$> x :: terms) →
  Sorted cle (term_key <$> terms)
  ∧ Forall (λ y, cle (term_key x) (term_key y)) terms.
Proof.
  intros Hs. split.
  - rewrite fmap_cons in Hs. by apply Sorted_inv in Hs as [? _].
  - rewrite fmap_cons in Hs. apply sorted_head_least in Hs.
    by rewrite Forall_fmap in Hs.
Qed.

(** A term of another field at or after [(fieldid, prefix)] has only
    terms of other fields after it. *)
Lemma other_field_after (fieldid : F) (prefix : string) (x : term)
    (terms : list term) :
  cle (fieldid, prefix) (term_key x) → of_field fieldid x = false →
  Forall (λ y, cle (term_key x) (term_key y)) terms →
  Forall (λ y, ¬ of_field fieldid y) terms.
Proof.
  intros Hx Hne Hafter. eapply Forall_impl; [exact Hafter|].
  intros y Hy Hyf. apply prod_cle_fst in Hx, Hy.
  change (cle fieldid x.1.1.1) in Hx. change (cle x.1.1.1 y.1.1.1) in Hy.
  unfold of_field, py_eq in *.
  assert (cmp fieldid x.1.1.1 = Lt) as Hlt.
  { destruct (cmp fieldid x.1.1.1) eqn:Hc; [|done|done].
    apply cmp_Eq_sym in Hc. by rewrite Hc in Hne. }
  pose proof (Lt_cle_trans _ _ _ Hlt Hy) as Hlt'.
  destruct (cmp y.1.1.1 fieldid) eqn:Hc; try done.
  apply cmp_Eq_sym in Hc. by rewrite Hc in Hlt'.
Qed.

(** A term of the field at or after [(fieldid, prefix)] whose text does
    not start with the prefix has no term after it that does. *)
Lemma other_prefix_after (fieldid : F) (prefix : string) (x : term)
    (terms : list term) :
  cle (fieldid, prefix) (term_key x) →
  of_field fieldid x = true → String.prefix prefix x.1.1.2 = false →
  Forall (λ y, cle (term_key x) (term_key y)) terms →
  Forall (λ y, ¬ with_prefix fieldid prefix y) terms.
Proof.
  intros Hx Hf Hp Hafter. eapply Forall_impl; [exact Hafter|].
  intros y Hy Hyp. unfold with_prefix, of_field, py_eq in *.
  apply andb_prop_elim in Hyp as [Hyf Hyp]. apply Is_true_true in Hyp.
  assert (cmp x.1.1.1 fieldid = Eq) as Hxe by (by destruct (cmp x.1.1.1 fieldid)).
  assert (cmp y.1.1.1 fieldid = Eq) as Hye by (by destruct (cmp y.1.1.1 fieldid)).
  assert (cle prefix x.1.1.2) as Hpx.
  { unfold cle, cmp, prod_cmp, term_key in Hx. simpl in Hx.
    by rewrite (cmp_Eq_sym _ _ Hxe) in Hx. }
  assert (cle x.1.1.2 y.1.1.2) as Hxy.
  { unfold cle, cmp, prod_cmp, term_key in Hy. simpl in Hy.
    by rewrite (cmp_Eq_trans _ _ _ Hxe (cmp_Eq_sym _ _ Hye)) in Hy. }
  by rewrite (prefix_between prefix x.1.1.2 y.1.1.2 Hyp Hpx Hxy) in Hp.
Qed.

Lemma py_ne_of_field (fieldid : F) (x : term) :
  py_ne x.1.1.1 fieldid = negb (of_field fieldid x).
Proof. done. Qed.

(** X18.  When [iter_from(fieldid, prefix)] yields the terms at or after
    [(fieldid, prefix)] in ascending order of their keys, [iter_prefix]
    and [expand_prefix] miss nothing by stopping at the first term that
    does not match: they yield every term it yields that is of the field
    and whose text starts with the prefix, and only those. *)
Theorem prefix_iterators_find_every_term (fieldid : F) (prefix : string)
    (terms : list term) :
  Sorted cle (term_key <$> terms) →
  Forall (λ x, cle (fieldid, prefix) (term_key x)) terms →
  iter_prefix fieldid prefix terms
  = (λ x : term, (x.1.1.2, x.1.2, x.2)) <$> filter (with_prefix fieldid prefix) terms
  ∧ expand_prefix fieldid prefix terms
    = (λ x : term, x.1.1.2) <$> filter (with_prefix fieldid prefix) terms.
Proof.
  induction terms as [|x terms IH]; intros Hs Hfrom; [done|].
  apply term_keys_sorted in Hs as [Hs Hafter].
  apply Forall_cons in Hfrom as [Hx Hfrom].
  destruct (IH Hs Hfrom) as [IH1 IH2].
  destruct x as [[[fn t] df] cf]. cbn [iter_prefix expand_prefix].
  change (py_ne fn fieldid) with (negb (of_field fieldid (fn, t, df, cf))).
  assert (with_prefix fieldid prefix (fn, t, df, cf)
          = of_field fieldid (fn, t, df, cf) && String.prefix prefix t) as Hwp
    by reflexivity.
  destruct (of_field fieldid (fn, t, df, cf)) eqn:Hf;
    [destruct (String.prefix prefix t) eqn:Hp|]; simpl.
  - rewrite filter_cons_True by (rewrite Hwp; exact I).
    rewrite !fmap_cons, IH1, IH2. done.
  - rewrite filter_cons_False by (rewrite Hwp; simpl; intros []).
    rewrite filter_none; [done|].
    by apply (other_prefix_after fieldid prefix (fn, t, df, cf)).
  - rewrite filter_cons_False by (rewrite Hwp; simpl; intros []).
    rewrite filter_none; [done|].
    eapply Forall_impl;
      [by apply (other_field_after fieldid prefix (fn, t, df, cf))|].
    intros y Hy Hyp. apply Hy. unfold with_prefix in Hyp.
    by apply andb_prop_elim in Hyp as [? _].
Qed.

(** X19.  Under the same condition [iter_field] yields every term of the
    field that [iter_from] yields, and [lexicon] their texts: stopping at
    the first term of another field loses none. *)
Theorem field_iterators_find_every_term (fieldid : F) (prefix : string)
    (terms : list term) :
  Sorted cle (term_key <$> terms) →
  Forall (λ x, cle (fieldid, prefix) (term_key x)) terms →
  iter_field fieldid terms
  = (λ x : term, (x.1.1.2, x.1.2, x.2)) <$> filter (of_field fieldid) terms
  ∧ lexicon fieldid terms
    = (λ x : term, x.1.1.2) <$> filter (of_field fieldid) terms.
Proof.
  intros Hs Hfrom.
  assert (iter_field fieldid terms
          = (λ x : term, (x.1.1.2, x.1.2, x.2)) <$> filter (of_field fieldid) terms)
    as Hfield.
  { induction terms as [|x terms IH]; [done|].
    apply term_keys_sorted in Hs as [Hs Hafter].
    apply Forall_cons in Hfrom as [Hx Hfrom].
    specialize (IH Hs Hfrom).
    destruct x as [[[fn t] df] cf]. cbn [iter_field].
    change (py_ne fn fieldid) with (negb (of_field fieldid (fn, t, df, cf))).
    destruct (of_field fieldid (fn, t, df, cf)) eqn:Hf; simpl.
    - rewrite filter_cons_True by (rewrite Hf; exact I).
      by rewrite fmap_cons, IH.
    - rewrite filter_cons_False by (rewrite Hf; simpl; intros []).
      rewrite filter_none; [done|].
      by apply (other_field_after fieldid prefix (fn, t, df, cf)). }
  split; [done|]. unfold lexicon. rewrite Hfield, <-list_fmap_compose. done.
Qed.

End terms_facts.

(** * More about [MultiReader] *)

Section multireader_facts.
Import Reading.

Lemma scorable_field_names_set (readers : list (list string)) (s : gset string) :
  foldl (λ s names, let _ := s ∪ list_to_set names in s) s readers = s.
Proof. induction readers as [|names readers IH]; simpl; [done|apply IH]. Qed.

(** X20.  [MultiReader.scorable_field_names()] returns the empty list
    whatever the readers report: [s.union(...)] leaves the set [s] empty,
    so no name ever reaches the result. *)
Theorem multireader_scorable_field_names_empty (readers : list (list string)) :
  MultiReaders.scorable_field_names readers = [].
Proof.
  unfold MultiReaders.scorable_field_names.
  rewrite scorable_field_names_set, elements_empty. reflexivity.
Qed.

Lemma doc_count_total_take_le (readers : list IndexReader) (i : nat) :
  Forall (λ r, 0 ≤ doc_count_all r) readers →
  0 ≤ doc_count_total (take i readers) ≤ doc_count_total readers.
Proof.
  intros Hpos. revert i. induction Hpos as [|r readers Hr _ IH]; intros i.
  - rewrite take_nil. unfold doc_count_total. simpl. lia.
  - destruct i as [|i]; simpl.
    + specialize (IH 0%nat). rewrite take_0 in IH.
      rewrite doc_count_total_cons. unfold doc_count_total in *. simpl in *. lia.
    + rewrite !doc_count_total_cons. specialize (IH i). lia.
Qed.

(** X21.  [_segment_and_docnum] rejects no document number.  Over no
    reader it raises [IndexError]; over readers whose document counts
    are not negative it returns a segment that exists and the document
    number less that segment's offset, also for a number out of range: a
    negative number goes to segment 0 unchanged, and a number at or above
    the total goes to the last segment. *)
Theorem segment_and_docnum_out_of_range (readers : list IndexReader) (d : Z) :
  Forall (λ r, 0 ≤ doc_count_all r) readers →
  match readers with
  | [] => segment_and_docnum (init readers) d = Raise IndexError
  | _ =>
      ∃ (i : nat) (off : Z),
        segment_and_docnum (init readers) d = Ok (Z.of_nat i, d - off)
        ∧ doc_offsets (init readers) !! i = Some off
        ∧ (d < 0 → i = 0%nat ∧ off = 0)
        ∧ (doc_count_total readers ≤ d → i = (length readers - 1)%nat)
  end.
Proof.
  intros Hpos. destruct readers as [|r0 readers0]; [done|].
  assert (0 < length (r0 :: readers0))%nat as Hne by (simpl; lia).
  remember (r0 :: readers0) as readers eqn:Hreaders. clear Hreaders r0 readers0.
  unfold segment_and_docnum, document_segment. rewrite init_doc_offsets.
  pose proof (prefix_sums_sorted readers 0 Hpos) as Hs.
  destruct (bisect_right_spec (prefix_sums readers 0) d Hs)
    as (p & -> & Hlen & Hbelow & Habove).
  simpl.
  assert (length (prefix_sums readers 0) = length readers) as Hlength.
  { clear. generalize 0. induction readers as [|r readers IH]; intros b; simpl;
      [done|by rewrite IH]. }
  rewrite Hlength in Hlen.
  replace (Z.max 0 (Z.of_nat p - 1)) with (Z.of_nat (p - 1)) by lia.
  rewrite Nat2Z.id.
  rewrite (prefix_sums_lookup readers 0 (p - 1)) by lia.
  exists (p - 1)%nat, (0 + doc_count_total (take (p - 1) readers)).
  split_and!; [done|by rewrite prefix_sums_lookup by lia| |].
  - intros Hd. assert (p = 0%nat) as ->.
    { destruct p as [|p]; [done|]. exfalso.
      pose proof (prefix_sums_lookup readers 0 0 Hne) as H0.
      specialize (Hbelow 0%nat _ ltac:(lia) H0).
      rewrite take_0 in Hbelow. unfold doc_count_total in Hbelow.
      simpl in Hbelow. lia. }
    split; [done|]. simpl. rewrite take_0. unfold doc_count_total. simpl. lia.
  - intros Hd. assert (p = length readers) as ->; [|done].
    destruct (decide (p = length readers)) as [|Hp]; [done|]. exfalso.
    assert (p < length readers)%nat as Hlt by lia.
    pose proof (prefix_sums_lookup readers 0 p Hlt) as Hp'.
    specialize (Habove p _ ltac:(lia) Hp').
    pose proof (doc_count_total_take_le readers p Hpos). lia.
Qed.

End multireader_facts.

(** * Facts about [word_datas] *)

Section word_datas_facts.
Import WordDatas.
Context {Float : Type}.

Local Abbreviation token := (token (Float:=Float)).
Local Abbreviation pyval := (Fields.pyval (Float:=Float)).

(** The tokens of a word, in the order of the analyzer. *)
Definition tokens_of (w : string) (tokens : list token) : list token :=
  filter (λ t, text t = w) tokens.

Lemma tokens_of_snoc w (tokens : list token) t :
  tokens_of w (tokens ++ [t])
  = tokens_of w tokens ++ (if decide (text t = w) then [t] else []).
Proof.
  unfold tokens_of. by rewrite filter_app.
Qed.

(** ** [Frequency.word_datas] *)

Lemma frequency_seen_snoc (tokens : list token) t :
  frequency_seen (tokens ++ [t])
  = <[text t := default 0 (frequency_seen tokens !! text t) + 1]>
      (frequency_seen tokens).
Proof. unfold frequency_seen. by rewrite foldl_app. Qed.

Lemma frequency_seen_lookup (tokens : list token) (w : string) :
  frequency_seen tokens !! w
  = match tokens_of w tokens with
    | [] => None
    | ts => Some (Z.of_nat (length ts))
    end.
Proof.
  induction tokens as [|t tokens IH] using rev_ind; [done|].
  rewrite frequency_seen_snoc, tokens_of_snoc.
  destruct (decide (text t = w)) as [<-|Hne].
  - rewrite lookup_insert_eq, IH.
    destruct (tokens_of (text t) tokens) as [|t' ts] eqn:Hts; simpl; [done|].
    f_equal. rewrite length_app. simpl. lia.
  - rewrite lookup_insert_ne by done. rewrite IH, app_nil_r. done.
Qed.

Lemma sumZ_insert (m : gmap string Z) (k : string) (v : Z) :
  sumZ (map_to_list (<[k := v]> m)).*2
  = sumZ (map_to_list m).*2 - default 0 (m !! k) + v.
Proof.
  destruct (m !! k) as [v0|] eqn:Hk; simpl.
  - rewrite <-(insert_delete_eq m k v).
    rewrite (sumZ_perm _ _ (fmap_Permutation snd _ _
               (map_to_list_insert (delete k m) k v (lookup_delete_eq m k)))).
    rewrite <-(insert_delete_id m k v0 Hk) at 2.
    rewrite (sumZ_perm _ _ (fmap_Permutation snd _ _
               (map_to_list_insert (delete k m) k v0 (lookup_delete_eq m k)))).
    rewrite !fmap_cons. unfold sumZ. cbn [foldr snd]. lia.
  - rewrite (sumZ_perm _ _ (fmap_Permutation snd _ _
               (map_to_list_insert m k v Hk))).
    rewrite fmap_cons. unfold sumZ. cbn [foldr snd]. lia.
Qed.

(** X22.  [Frequency.word_datas] yields each word of the tokens once,
    with the number of tokens that have it as the frequency and as the
    data; the frequencies add up to the number of tokens. *)
Theorem frequency_word_datas_counts (tokens : list token) :
  NoDup (frequency_word_datas tokens).*1.*1
  ∧ (∀ w freq data,
       (w, freq, data) ∈ frequency_word_datas tokens
       ↔ tokens_of w tokens ≠ []
         ∧ freq = Z.of_nat (length (tokens_of w tokens))
         ∧ data = Fields.PInt freq)
  ∧ sumZ (frequency_word_datas tokens).*1.*2 = Z.of_nat (length tokens).
Proof.
  unfold frequency_word_datas. split_and!.
  - rewrite <-!list_fmap_compose.
    apply (NoDup_fst_map_to_list (frequency_seen tokens)).
  - intros w freq data. rewrite list_elem_of_fmap. split.
    + intros ([w' freq'] & [= -> -> ->] & Hin). simpl.
      apply elem_of_map_to_list in Hin. rewrite frequency_seen_lookup in Hin.
      destruct (tokens_of w' tokens) as [|t ts]; [done|].
      injection Hin as <-. done.
    + intros (Hne & -> & ->). exists (w, Z.of_nat (length (tokens_of w tokens))).
      split; [done|]. apply elem_of_map_to_list. rewrite frequency_seen_lookup.
      by destruct (tokens_of w tokens).
  - rewrite <-!list_fmap_compose.
    change (sumZ (map_to_list (frequency_seen tokens)).*2
            = Z.of_nat (length tokens)).
    induction tokens as [|t tokens IH] using rev_ind.
    { unfold frequency_seen. simpl. by rewrite map_to_list_empty. }
    rewrite frequency_seen_snoc, sumZ_insert, IH, length_app. simpl.
    destruct (frequency_seen tokens !! text t); simpl; lia.
Qed.

(** ** [Positions.word_datas] *)

Lemma positions_seen_snoc start_pos (tokens : list token) t :
  positions_seen start_pos (tokens ++ [t])
  = <[text t := default [] (positions_seen start_pos tokens !! text t)
                ++ [start_pos + pos t]]>
      (positions_seen start_pos tokens).
Proof. unfold positions_seen. by rewrite foldl_app. Qed.

(** The positions recorded for a word. *)
Definition positions_of (start_pos : Z) (w : string) (tokens : list token)
  : list Z :=
  (λ t, start_pos + pos t) <$> tokens_of w tokens.

Lemma positions_seen_lookup start_pos (tokens : list token) (w : string) :
  positions_seen start_pos tokens !! w
  = match tokens_of w tokens with
    | [] => None
    | _ => Some (positions_of start_pos w tokens)
    end.
Proof.
  induction tokens as [|t tokens IH] using rev_ind; [done|].
  rewrite positions_seen_snoc. unfold positions_of. rewrite tokens_of_snoc.
  destruct (decide (text t = w)) as [<-|Hne].
  - rewrite lookup_insert_eq, IH. unfold positions_of.
    destruct (tokens_of (text t) tokens) as [|t' ts] eqn:Hts; simpl; [done|].
    by rewrite fmap_app.
  - rewrite lookup_insert_ne by done. rewrite IH, app_nil_r. done.
Qed.

Lemma elem_of_positions_word_datas (start_pos : Z) (tokens : list token)
    w freq data :
  (w, freq, data) ∈ positions_word_datas start_pos tokens
  ↔ tokens_of w tokens ≠ []
    ∧ freq = Z.of_nat (length (tokens_of w tokens))
    ∧ data = Fields.PList (Fields.PInt <$> positions_of start_pos w tokens).
Proof.
  unfold positions_word_datas. rewrite list_elem_of_fmap. split.
  - intros ([w' ps] & [= -> -> ->] & Hin). simpl.
    apply elem_of_map_to_list in Hin. rewrite positions_seen_lookup in Hin.
    destruct (tokens_of w' tokens) as [|t ts] eqn:Hts; [done|].
    injection Hin as <-. unfold positions_of. rewrite Hts, length_fmap. done.
  - intros (Hne & -> & ->). exists (w, positions_of start_pos w tokens).
    split.
    + unfold positions_of. simpl. by rewrite length_fmap.
    + apply elem_of_map_to_list. rewrite positions_seen_lookup.
      by destruct (tokens_of w tokens).
Qed.

(** X23.  [Positions.word_datas] yields each word of the tokens once,
    with the positions of its tokens, each added to [start_pos], in the
    order of the tokens as the data, and their number as the
    frequency. *)
Theorem positions_word_datas_lists_positions (start_pos : Z)
    (tokens : list token) :
  NoDup (positions_word_datas start_pos tokens).*1.*1
  ∧ ∀ w freq data,
      (w, freq, data) ∈ positions_word_datas start_pos tokens
      ↔ tokens_of w tokens ≠ []
        ∧ freq = Z.of_nat (length (tokens_of w tokens))
        ∧ data = Fields.PList (Fields.PInt <$> positions_of start_pos w tokens).
Proof.
  split.
  - unfold positions_word_datas. rewrite <-!list_fmap_compose.
    apply (NoDup_fst_map_to_list (positions_seen start_pos tokens)).
  - apply elem_of_positions_word_datas.
Qed.

(** ** [PositionBoosts.word_datas] *)

(** X24.  [PositionBoosts.word_datas] raises [TypeError] at the first
    token, whatever the tokens: its dictionary is a [defaultdict(iter)],
    which cannot make the entry of a word it has not seen, and it has seen
    none.  Only for no token at all does it return, with nothing to
    yield. *)
Theorem position_boosts_word_datas_raises (tokens : list token) :
  position_boosts_word_datas tokens
  = match tokens with
    | [] => inl []
    | _ => inr TypeError_iter
    end.
Proof.
  unfold position_boosts_word_datas. destruct tokens as [|t tokens]; simpl.
  - by rewrite map_to_list_empty.
  - by rewrite lookup_empty.
Qed.

End word_datas_facts.

(** * More about the posting formats *)

Lemma StronglySorted_fmap_filter {A} (f : A → Z) (P : A → Prop)
    `{!∀ x, Decision (P x)} (l : list A) :
  StronglySorted Z.le (f <$> l) → StronglySorted Z.le (f <$> filter P l).
Proof.
  induction l as [|x l IH]; [done|]. rewrite fmap_cons.
  intros [Hs Hall]%StronglySorted_inv. rewrite filter_cons.
  destruct (decide (P x)); [|by apply IH].
  rewrite fmap_cons. constructor; [by apply IH|].
  rewrite Forall_fmap in Hall |- *. rewrite Forall_forall in Hall |- *.
  intros y [_ Hy]%list_elem_of_filter. by apply Hall.
Qed.

Section codec_more.
Import Fields.
Context {Float : Type} (of_int : Z → Float) (fadd fmul : Float → Float → Float)
        (quantize : Float → Float).

Local Abbreviation pyval := (pyval (Float:=Float)).
Local Abbreviation stream := (stream (Float:=Float)).
Local Abbreviation write_postvalue := (write_postvalue of_int quantize).
Local Abbreviation read_postvalue := (read_postvalue of_int fadd).

(** ** [Positions] *)

Lemma positions_framed (ps : list Z) (s rest : stream) :
  Sorted Z.le (0 :: ps) →
  write_postvalue Positions s (PList (PInt <$> ps))
  = Ok (s ++ Varint (Z.of_nat (length ps)) :: gaps 0 ps,
        PInt (Z.of_nat (length ps)))
  ∧ read_postvalue Positions (Varint (Z.of_nat (length ps)) :: gaps 0 ps ++ rest)
    = Ok (PList (PInt <$> ps), rest).
Proof.
  intros Hs. split.
  - simpl. rewrite length_fmap. rewrite bool_decide_true by lia. simpl.
    rewrite positions_write_loop_gaps by done. simpl.
    by rewrite <-app_assoc.
  - simpl. rewrite Nat2Z.id.
    by rewrite (positions_read_loop_gaps of_int fadd ps 0 [] rest).
Qed.

(** X25.  [Positions]: a list of positions that do not descend, the
    first not negative, is written as its length and the gaps between
    the positions, after whatever the stream holds; [write_postvalue]
    returns the length; and [read_postvalue] reads the list back from
    the front of a stream, leaving what follows it in the stream
    unread. *)
Theorem positions_postvalue_round_trip (ps : list Z) (s rest : stream) :
  Sorted Z.le (0 :: ps) →
  ∃ enc,
    write_postvalue Positions s (PList (PInt <$> ps))
    = Ok (s ++ enc, PInt (Z.of_nat (length ps)))
    ∧ read_postvalue Positions (enc ++ rest) = Ok (PList (PInt <$> ps), rest).
Proof.
  intros Hs. destruct (positions_framed ps s rest Hs) as [Hw Hr].
  exists (Varint (Z.of_nat (length ps)) :: gaps 0 ps). done.
Qed.

(** X26.  What [Positions.word_datas] yields can be stored: when the
    positions of the tokens, each added to [start_pos], do not descend
    and the first is not negative, [write_postvalue] accepts the data of
    every word and returns the frequency [word_datas] gave the word, and
    [read_postvalue] gives the data back. *)
Theorem positions_word_datas_round_trip (start_pos : Z)
    (tokens : list (WordDatas.token (Float:=Float))) w freq data
    (s rest : stream) :
  Sorted Z.le (0 :: ((λ t, start_pos + WordDatas.pos t) <$> tokens)) →
  (w, freq, data) ∈ WordDatas.positions_word_datas start_pos tokens →
  ∃ enc,
    write_postvalue Positions s data = Ok (s ++ enc, PInt freq)
    ∧ read_postvalue Positions (enc ++ rest) = Ok (data, rest).
Proof.
  intros Hs (Hne & -> & ->)%elem_of_positions_word_datas.
  assert (Sorted Z.le (0 :: positions_of start_pos w tokens)) as Hs'.
  { apply Sorted_StronglySorted in Hs; [|intros ???; lia].
    apply StronglySorted_inv in Hs as [Hs Hall].
    apply StronglySorted_Sorted. constructor.
    - by apply StronglySorted_fmap_filter.
    - unfold positions_of, tokens_of.
      rewrite Forall_fmap in Hall |- *. rewrite Forall_forall in Hall |- *.
      intros t [_ Ht]%list_elem_of_filter. by apply Hall. }
  destruct (positions_framed (positions_of start_pos w tokens) s rest Hs')
    as [Hw Hr].
  unfold positions_of in Hw, Hr. rewrite length_fmap in Hw, Hr.
  eexists. split; [exact Hw|exact Hr].
Qed.

(** ** [PositionBoosts] *)

(** What [PositionBoosts.write_postvalue] writes after the length. *)
Fixpoint boost_gaps (pos_base : Z) (pbs : list (Z * Float))
  : list (stream_item (Float:=Float)) :=
  match pbs with
  | [] => []
  | (p, b) :: pbs' => Varint (p - pos_base) :: Float8 (quantize b) :: boost_gaps p pbs'
  end.

Definition boost_pair (pb : Z * Float) : pyval := PTuple [PInt pb.1; PFloat pb.2].

Lemma position_boosts_write_loop_gaps (pbs : list (Z * Float)) (pos_base count : Z)
    (s : stream) :
  Sorted Z.le (pos_base :: pbs.*1) →
  position_boosts_write_loop of_int quantize (boost_pair <$> pbs) (PInt pos_base)
    count s
  = Ok (count + Z.of_nat (length pbs), s ++ boost_gaps pos_base pbs).
Proof.
  revert pos_base count s.
  induction pbs as [|[p b] pbs IH]; intros pos_base count s Hs; simpl.
  - rewrite app_nil_r. do 2 f_equal. lia.
  - rewrite fmap_cons in Hs. simpl in Hs.
    apply Sorted_inv in Hs as [Hs Hhd]. apply HdRel_inv in Hhd.
    rewrite bool_decide_true by lia. simpl.
    fold (fmap (M:=list) boost_pair pbs).
    rewrite IH by done. rewrite <-!app_assoc. simpl. do 2 f_equal. lia.
Qed.

Lemma position_boosts_read_loop_gaps (pbs : list (Z * Float)) (pos_base : Z)
    (pos_list : list pyval) (rest : stream) :
  position_boosts_read_loop of_int fadd (length pbs) (PInt pos_base) pos_list
    (boost_gaps pos_base pbs ++ rest)
  = Ok (pos_list ++ (boost_pair <$> ((λ pb, (pb.1, quantize pb.2)) <$> pbs)), rest).
Proof.
  revert pos_base pos_list.
  induction pbs as [|[p b] pbs IH]; intros pos_base pos_list; simpl.
  - by rewrite app_nil_r.
  - replace (pos_base + (p - pos_base)) with p by lia.
    rewrite IH. by rewrite <-app_assoc.
Qed.

(** X27.  [PositionBoosts]: for positions that do not descend, the first
    not negative, [write_postvalue] writes the number of pairs and, for
    each pair, the gap and the boost in one byte, and returns the number
    of pairs; [read_postvalue] reads this back from the front of a
    stream as the pair of that number and the list, each boost as its
    byte left it: the list written is the second component of what is
    read, not what is read. *)
Theorem position_boosts_postvalue_read_back (pbs : list (Z * Float))
    (s rest : stream) :
  Sorted Z.le (0 :: pbs.*1) →
  ∃ enc,
    write_postvalue PositionBoosts s (PList (boost_pair <$> pbs))
    = Ok (s ++ enc, PInt (Z.of_nat (length pbs)))
    ∧ read_postvalue PositionBoosts (enc ++ rest)
      = Ok (PTuple [PInt (Z.of_nat (length pbs));
                    PList (boost_pair <$> ((λ pb, (pb.1, quantize pb.2)) <$> pbs))],
            rest).
Proof.
  intros Hs. exists (Varint (Z.of_nat (length pbs)) :: boost_gaps 0 pbs). split.
  - simpl. rewrite length_fmap. rewrite bool_decide_true by lia. simpl.
    rewrite position_boosts_write_loop_gaps by done. simpl.
    by rewrite <-app_assoc.
  - simpl. rewrite Nat2Z.id.
    by rewrite (position_boosts_read_loop_gaps pbs 0 [] rest).
Qed.

(** ** The value [write_postvalue] returns *)

Lemma position_boosts_write_loop_count (items : list pyval) (pos_base : pyval)
    (count count' : Z) (s s' : stream) :
  position_boosts_write_loop of_int quantize items pos_base count s
  = Ok (count', s') →
  count' = count + Z.of_nat (length items).
Proof.
  revert pos_base count s. induction items as [|item items IH];
    intros pos_base count s; simpl.
  - intros [= <- <-]. lia.
  - destruct (unpack2 item) as [[pos boost]|]; simpl; [|done].
    destruct (py_sub pos pos_base) as [delta|]; simpl; [|done].
    destruct (write_varint delta s) as [s1|]; simpl; [|done].
    destruct (write_8bitfloat of_int quantize boost s1) as [s2|]; simpl; [|done].
    intros Hrest. apply IH in Hrest. lia.
Qed.

(** X28.  The value [write_postvalue] returns is the frequency
    [data_to_frequency] finds in the data written, for every format but
    [Existance], which returns 0 where the frequency is 1. *)
Theorem write_postvalue_returns_frequency (fmt : Format) (s s' : stream)
    (data n : pyval) :
  write_postvalue fmt s data = Ok (s', n) →
  data_to_frequency fmt data = Ok (if fmt is Existance then PInt 1 else n).
Proof.
  destruct fmt; simpl.
  - done.
  - destruct (write_varint data s) as [s1|]; simpl; [|done]. by intros [= <- <-].
  - destruct (py_index data 0) as [freq|]; simpl; [|done].
    destruct (write_varint freq s) as [s1|]; simpl; [|done].
    destruct (py_index data 1) as [boost|]; simpl; [|done].
    destruct (write_8bitfloat of_int quantize boost s1) as [s2|]; simpl; [|done].
    by intros [= <- <-].
  - destruct (py_len data) as [len|]; simpl; [|done].
    destruct (write_varint len s) as [s1|]; simpl; [|done].
    destruct (py_iter data) as [items|]; simpl; [|done].
    destruct (positions_write_loop items (PInt 0) s1) as [s2|]; simpl; [|done].
    by intros [= <- <-].
  - destruct (py_len data) as [len|]; simpl; [|done].
    destruct (write_varint len s) as [s1|]; simpl; [|done].
    destruct (py_iter data) as [items|]; simpl; [|done].
    destruct (characters_write_loop items (PInt 0) (PInt 0) s1) as [s2|]; simpl;
      [|done].
    by intros [= <- <-].
  - unfold py_len. destruct (py_iter data) as [items|]; simpl; [|done].
    rewrite bool_decide_true by lia. simpl.
    destruct (position_boosts_write_loop of_int quantize items (PInt 0) 0 _)
      as [[count s2]|] eqn:Hloop; simpl; [|done].
    intros [= <- <-]. apply position_boosts_write_loop_count in Hloop.
    do 2 f_equal. lia.
Qed.

End codec_more.

(** * More of the code on concrete inputs *)

Section more_examples.
Import Pools.

Lemma write_postings_term_by_term_witness :
  let postiter :=
    [("content", "apple", 0, 1, None); ("content", "apple", 1, 1, None);
     ("content", "pear", 0, 1, None)]%string in
  let w' := (SampleWriter.write_postings postiter).1 in
  ∃ calls added,
    pw_calls w' = pw_calls SampleWriter.world0 ++ calls
    ∧ termtable w' = termtable SampleWriter.world0 ++ added
    ∧ term_calls (length added) calls.
Proof.
  simpl.
  apply (write_postings_term_by_term 0 Z.add SampleWriter.schema
           SampleWriter.getlength
           [("content", "apple", 0, 1, None); ("content", "apple", 1, 1, None);
            ("content", "pear", 0, 1, None)]%string 1 SampleWriter.world0).
  vm_compute. reflexivity.
Defined.

Lemma tempfilepool_accounts_for_every_posting_witness :
  let ps : list (Posting (W:=Z)) :=
    [("b", "a", 0, 1, None); ("a", "b", 0, 1, Some "xx");
     ("a", "a", 3, 1, None)]%string in
  ∃ self fs1 contents,
    add_postings ps (init 0 None) ∅ = Ok (self, fs1)
    ∧ Forall2 (λ run content,
                 file_content run.1 fs1 = Some content
                 ∧ run.2 = length content ∧ Sorted cle content)
              (runs self) contents
    ∧ concat contents ++ postings self ≡ₚ ps
    ∧ count self = length (postings self)
    ∧ size self = size_of (postings self).
Proof.
  simpl.
  apply (tempfilepool_accounts_for_every_posting
           [("b", "a", 0, 1, None); ("a", "b", 0, 1, Some "xx");
            ("a", "a", 3, 1, None)]%string 0 None ∅).
  intros d' Hd'. discriminate Hd'.
Defined.

Lemma tempfilepool_no_spill_below_limit_witness :
  let ps : list (Posting (W:=Z)) :=
    [("b", "a", 0, 1, None); ("a", "b", 0, 1, Some "xx")]%string in
  ∃ self self',
    add_postings ps (init 32 (Some "nowhere"%string)) ∅ = Ok (self, ∅)
    ∧ postings self = ps ∧ runs self = []
    ∧ finish_postiter id self ∅ = Ok (Some (merge_sort cle ps), self', ∅)
    ∧ runs self' = [].
Proof.
  simpl.
  apply (tempfilepool_no_spill_below_limit id
           [("b", "a", 0, 1, None); ("a", "b", 0, 1, Some "xx")]%string
           32 (Some "nowhere"%string) ∅).
  vm_compute. reflexivity.
Defined.

Lemma tempfilepool_spills_every_posting_witness :
  let ps : list (Posting (W:=Z)) :=
    [("b", "a", 0, 1, None); ("a", "b", 0, 1, Some "xx");
     ("a", "a", 3, 1, None)]%string in
  ∃ self fs1,
    add_postings ps (init 0 None) ∅ = Ok (self, fs1)
    ∧ postings self = [("a", "a", 3, 1, None)]%string
    ∧ (runs self).*2 = [1; 1]%nat.
Proof.
  simpl.
  apply (tempfilepool_spills_every_posting
           [("b", "a", 0, 1, None); ("a", "b", 0, 1, Some "xx");
            ("a", "a", 3, 1, None)]%string 0 None ∅).
  - lia.
  - intros d' Hd'. discriminate Hd'.
Defined.

Lemma tempfilepool_agrees_with_mempool_witness :
  let ps : list (Posting (W:=Z)) :=
    [("b", "a", 0, 1, None); ("a", "b", 0, 1, Some "xx");
     ("a", "a", 3, 1, None)]%string in
  ∃ self fs1,
    add_postings ps (init 0 None) ∅ = Ok (self, fs1)
    ∧ ∃ self' fs2,
        finish 0 Z.add id SampleWriter.schema SampleWriter.getlength self fs1
          SampleWriter.world0
        = Ok (self', fs2,
              (MemPool.finish 0 Z.add SampleWriter.schema SampleWriter.getlength
                 (MemPool.add_postings ps MemPool.init) SampleWriter.world0).2.1).
Proof.
  simpl.
  exact (tempfilepool_agrees_with_mempool 0 Z.add id SampleWriter.schema
           SampleWriter.getlength
           [("b", "a", 0, 1, None); ("a", "b", 0, 1, Some "xx");
            ("a", "a", 3, 1, None)]%string 0 None ∅ SampleWriter.world0
           ltac:(intros d' Hd'; discriminate Hd')).
Defined.

End more_examples.

Section schema_examples.
Import Schema.

(** A schema of three fields, and a fourth added to it. *)
Definition sample_fieldtype (vectored scored : bool) : FieldType (Fmt:=string) :=
  {| format := Some "Frequency"%string;
     vector := if vectored then Some "Positions"%string else None;
     scorable := Some scored;
     stored := None |}.

Definition sample_fields : gmap string (fieldtype_arg (Fmt:=string)) :=
  {[ "title" := AFieldType (sample_fieldtype false true);
     "content" := ACallable (Ok (Some (sample_fieldtype true true)));
     "path" := AFieldType (sample_fieldtype false false) ]}%string.

Definition sample_schema0 : Schema (Fmt:=string) :=
  match init sample_fields with inl s => s | inr _ => empty end.

Definition sample_more : list (string * fieldtype_arg (Fmt:=string)) :=
  [("tags"%string, AFieldType (sample_fieldtype false false))].

Definition sample_schema : Schema (Fmt:=string) :=
  match add_all sample_more sample_schema0 with inl s => s | inr _ => empty end.

Lemma schema_names_and_numbers_correspond_witness :
  (∀ name i, name_to_number name sample_schema = Ok i →
             number_to_name i sample_schema = Ok name)
  ∧ (∀ i name, number_to_name i sample_schema = Ok name →
       name_to_number name sample_schema
       = Ok (if bool_decide (i < 0) then i + len sample_schema else i)).
Proof.
  apply (schema_names_and_numbers_correspond sample_fields sample_more
           sample_schema0 sample_schema).
  - vm_compute. reflexivity.
  - vm_compute. reflexivity.
Defined.

Lemma schema_add_keeps_other_fields_witness :
  let s' :=
    match add "date" (AFieldType (sample_fieldtype false false)) sample_schema
    with inl s => s | inr _ => empty end in
  len s' = len sample_schema + 1
  ∧ name_to_number "date" s' = Ok (len sample_schema)
  ∧ number_to_name (len sample_schema) s' = Ok "date"%string
  ∧ (∃ ft, getitem (inl "date"%string) s' = Ok ft
           ∧ getitem (inr (len sample_schema)) s' = Ok ft)
  ∧ (∀ other, other ≠ "date"%string →
       getitem (inl other) s' = getitem (inl other) sample_schema
       ∧ name_to_number other s' = name_to_number other sample_schema)
  ∧ (∀ i, 0 ≤ i < len sample_schema →
       getitem (inr i) s' = getitem (inr i) sample_schema
       ∧ number_to_name i s' = number_to_name i sample_schema).
Proof.
  cbv zeta.
  apply (schema_add_keeps_other_fields sample_fields sample_more "date"
           (AFieldType (sample_fieldtype false false)) sample_schema0 sample_schema).
  - vm_compute. reflexivity.
  - vm_compute. reflexivity.
  - vm_compute. reflexivity.
Defined.

Lemma schema_getitem_by_name_and_number_witness :
  match name_to_number "title" sample_schema with
  | Ok i =>
      contains "title" sample_schema = true
      ∧ ∃ ft, getitem (inl "title"%string) sample_schema = Ok ft
              ∧ getitem (inr i) sample_schema = Ok ft
              ∧ field_by_name "title" sample_schema = Ok ft
              ∧ field_by_number i sample_schema = Ok ft
  | Raise e =>
      e = KeyError "title"
      ∧ contains "title" sample_schema = false
      ∧ getitem (inl "title"%string) sample_schema = Raise (KeyError "title")
  end.
Proof.
  apply (schema_getitem_by_name_and_number sample_fields sample_more
           sample_schema0 sample_schema "title").
  - vm_compute. reflexivity.
  - vm_compute. reflexivity.
Defined.

Lemma schema_init_numbers_follow_names_witness :
  (∀ name, contains name sample_schema0 = true ↔ is_Some (sample_fields !! name))
  ∧ Sorted cle (field_names sample_schema0)
  ∧ ∀ a b i j,
      name_to_number a sample_schema0 = Ok i →
      name_to_number b sample_schema0 = Ok j →
      (i < j ↔ cmp a b = Lt).
Proof.
  apply (schema_init_numbers_follow_names sample_fields sample_schema0).
  vm_compute. reflexivity.
Defined.

End schema_examples.

Section lengths_examples.
Import PoolBase.

(** A stand-in for [length_to_byte]. *)
Definition sample_length_to_byte (n : Z) : Byte.byte :=
  if bool_decide (n = 0) then Byte.x00
  else if bool_decide (n < 4) then Byte.x01 else Byte.x02.

Definition sample_calls : list (Z * string * Z) :=
  [(0, "title", 3); (2, "title", 5); (0, "content", 1); (2, "title", 2)]%string.




End lengths_examples.

Section reader_examples.
Import Terms Reading.

Definition sample_terms : list (term (F:=string)) :=
  [("title", "fox", 1, 1); ("title", "foxes", 2, 3); ("title", "goat", 1, 1);
   ("url", "fox", 1, 1)]%string.

Lemma sample_terms_sorted :
  Sorted cle (term_key <$> sample_terms)
  ∧ Forall (λ x, cle ("title", "fo")%string (term_key x)) sample_terms.
Proof. split; repeat constructor; by vm_compute. Defined.

Lemma prefix_iterators_find_every_term_witness :
  iter_prefix "title" "fo" sample_terms
  = [("fox", 1, 1); ("foxes", 2, 3)]%string
  ∧ expand_prefix "title" "fo" sample_terms = ["fox"; "foxes"]%string.
Proof.
  exact (prefix_iterators_find_every_term "title" "fo" sample_terms
           (proj1 sample_terms_sorted) (proj2 sample_terms_sorted)).
Defined.

Lemma field_iterators_find_every_term_witness :
  iter_field "title" sample_terms
  = [("fox", 1, 1); ("foxes", 2, 3); ("goat", 1, 1)]%string
  ∧ lexicon "title" sample_terms = ["fox"; "foxes"; "goat"]%string.
Proof.
  exact (field_iterators_find_every_term "title" "fo" sample_terms
           (proj1 sample_terms_sorted) (proj2 sample_terms_sorted)).
Defined.

Lemma segment_and_docnum_out_of_range_witness :
  let readers := [Build_IndexReader 3; Build_IndexReader 5; Build_IndexReader 2] in
  ∃ (i : nat) (off : Z),
    segment_and_docnum (init readers) 12 = Ok (Z.of_nat i, 12 - off)
    ∧ doc_offsets (init readers) !! i = Some off
    ∧ (12 < 0 → i = 0%nat ∧ off = 0)
    ∧ (doc_count_total readers ≤ 12 → i = (length readers - 1)%nat).
Proof.
  simpl.
  apply (segment_and_docnum_out_of_range
           [Build_IndexReader 3; Build_IndexReader 5; Build_IndexReader 2] 12).
  repeat constructor; simpl; lia.
Defined.

Lemma merge_iters_aggregates_witness :
  let iterlist : list (generator (term (F:=string))) :=
    [Generator 0 [("title", "fox", 2, 5); ("title", "goat", 1, 1)]%string;
     Generator 1 [("title", "fox", 1, 1)]%string] in
  ∃ out,
    merge_iters iterlist = (out, None)
    ∧ aggregation out (concat (gen_rest <$> iterlist)).
Proof.
  simpl.
  apply (merge_iters_aggregates
           [Generator 0 [("title", "fox", 2, 5); ("title", "goat", 1, 1)]%string;
            Generator 1 [("title", "fox", 1, 1)]%string]).
  repeat constructor; try done; by vm_compute.
Defined.

End reader_examples.

Section codec_examples.
Import Fields.

Lemma positions_postvalue_round_trip_witness :
  ∃ enc,
    write_postvalue (Float:=Z) id id Positions [Varint 7]
      (PList (PInt <$> [1; 4; 4; 9]))
    = Ok ([Varint 7] ++ enc, PInt 4)
    ∧ read_postvalue (Float:=Z) id Z.add Positions (enc ++ [Varint 8])
      = Ok (PList (PInt <$> [1; 4; 4; 9]), [Varint 8]).
Proof.
  apply (positions_postvalue_round_trip (Float:=Z) id Z.add id [1; 4; 4; 9]
           [Varint 7] [Varint 8]).
  repeat constructor; lia.
Defined.

Definition sample_tokens : list (WordDatas.token (Float:=Z)) :=
  [WordDatas.Token "fox" 0 0 3 false 1; WordDatas.Token "goat" 1 4 8 false 1;
   WordDatas.Token "fox" 2 9 12 false 1]%string.

Lemma positions_word_datas_round_trip_witness :
  ∃ enc,
    write_postvalue (Float:=Z) id id Positions [] (PList [PInt 0; PInt 2])
    = Ok ([] ++ enc, PInt 2)
    ∧ read_postvalue (Float:=Z) id Z.add Positions (enc ++ [])
      = Ok (PList [PInt 0; PInt 2], []).
Proof.
  apply (positions_word_datas_round_trip (Float:=Z) id Z.add id 0 sample_tokens
           "fox" 2 (PList [PInt 0; PInt 2]) [] []).
  - repeat constructor; simpl; lia.
  - apply elem_of_positions_word_datas. split_and!.
    + by vm_compute.
    + reflexivity.
    + reflexivity.
Defined.

Lemma position_boosts_postvalue_read_back_witness :
  let pbs : list (Z * Z) := [(1, 5); (3, 7)] in
  ∃ enc,
    write_postvalue (Float:=Z) id id PositionBoosts [] (PList (boost_pair <$> pbs))
    = Ok ([] ++ enc, PInt 2)
    ∧ read_postvalue (Float:=Z) id Z.add PositionBoosts (enc ++ [])
      = Ok (PTuple [PInt 2; PList (boost_pair <$> pbs)], []).
Proof.
  simpl.
  apply (position_boosts_postvalue_read_back (Float:=Z) id Z.add id
           [(1, 5); (3, 7)] [] []).
  repeat constructor; simpl; lia.
Defined.

Lemma write_postvalue_returns_frequency_witness :
  data_to_frequency (Float:=Z) Positions (PList [PInt 1; PInt 4]) = Ok (PInt 2).
Proof.
  apply (write_postvalue_returns_frequency (Float:=Z) id id Positions []
           [Varint 2; Varint 1; Varint 3] (PList [PInt 1; PInt 4]) (PInt 2)).
  reflexivity.
Defined.

End codec_examples.

Lemma imerge_keeps_every_item_witness :
  imerge [Generator 0 [4; 1]; Generator 1 []; Generator 2 [2; 2]]
  ≡ₚ [4; 1; 2; 2]%Z.
Proof.
  apply (imerge_keeps_every_item (A:=Z)
           [Generator 0 [4; 1]; Generator 1 []; Generator 2 [2; 2]]).
Defined.
